(** * Turia Invaders: the simulation core, embedded and verified

    A shallow embedding of the collision pipeline, the formation
    controller, the player's gun, the spawn policy and the score system of
    the game, each definition translated from the JavaScript source it is
    named after.

    Conventions of the embedding.
    - A JavaScript number that carries a position, a size, a speed or a
      timer is an exact rational ([Q]): the arithmetic of the source
      ([+], [-], [*], [/ 2]) and its comparisons are kept, rounding is not
      modelled.  The counters of the score system (score, lives, power) and
      the wave number only ever hold integers and are [Z].
    - A call that can raise returns a [Result]; a write to the browser's
      storage either stores or throws, as its argument [SetItem] says.
    - [Infinity] and [-Infinity] occur only as the start values of the
      running minimum and maximum of the formation; they have a type of
      their own, [ExtNum].
    - An object that lives in an array and is mutated in place (a bullet,
      an enemy, a projectile) is identified by its index in that array,
      no object occurring twice in one array; a collision event records
      indices where the source records object references.
    - A method that mutates [this] takes the object and returns the
      object afterwards, next to the value the method returns.
    - The global [CONFIG] object is passed explicitly.
    - Rendering, sprites and screen shake have no effect on the simulation
      state and are left out. *)

From Stdlib Require Import ZArith QArith Qminmax Qround Lqa Lia Bool String.
From Stdlib Require Import List Sorted Permutation.
From stdpp Require Import base option list strings gmap.
Import ListNotations.

Local Open Scope Q_scope.

(** ** JavaScript comparisons on numbers, as booleans *)

Definition ltb (a b : Q) : bool := negb (Qle_bool b a).
Definition gtb (a b : Q) : bool := ltb b a.
Definition leb (a b : Q) : bool := Qle_bool a b.
Definition geb (a b : Q) : bool := Qle_bool b a.

(** ** utils.js *)

(** A bounding box [{x, y, width, height}]: top-left corner and extent. *)
Record Rect : Type := mkRect {
  rx : Q;
  ry : Q;
  rwidth : Q;
  rheight : Q
}.

(** [rectIntersect(a, b)]. *)
Definition rectIntersect (a b : Rect) : bool :=
  ltb (rx a) (rx b + rwidth b) &&
  gtb (rx a + rwidth a) (rx b) &&
  ltb (ry a) (ry b + rheight b) &&
  gtb (ry a + rheight a) (ry b).

(** [clamp(val, min, max)]. *)
Definition clamp (val min max : Q) : Q := Qmax min (Qmin max val).

(** Two boxes touch along an edge: a side of one lies on the opposite side
    of the other, so that they share no area. *)
Definition edgeTouching (a b : Rect) : Prop :=
  rx a + rwidth a == rx b \/ rx b + rwidth b == rx a \/
  ry a + rheight a == ry b \/ ry b + rheight b == ry a.

(** Box [b] lies inside box [a]: no side of [b] is outside [a], the right
    and the bottom sides being the sums [x + width] and [y + height] that
    [rectIntersect] computes. *)
Definition containedIn (b a : Rect) : Prop :=
  rx a <= rx b /\ rx b + rwidth b <= rx a + rwidth a /\
  ry a <= ry b /\ ry b + rheight b <= ry a + rheight a.

(** Box [b] has an extent: its right side, the sum [x + width], lies
    right of its left side, and its bottom side below its top side. *)
Definition extended (b : Rect) : Prop :=
  rx b < rx b + rwidth b /\ ry b < ry b + rheight b.

(** ** config.js *)

(** The [CONFIG] object.  It is global and mutable in the source (the
    entry point overwrites the canvas size, [playerStartY] and
    [bottomLine] when it sizes the canvas to the window), so every
    function that reads it takes the configuration in force as its
    argument [cfg].  A field [CONFIG.GROUP.name] is [GROUP_name cfg]. *)
Record Config : Type := mkConfig {
  CANVAS_width : Q;
  CANVAS_height : Q;
  SIZES_player_width : Q;
  SIZES_player_height : Q;
  SIZES_enemy_width : Q;
  SIZES_enemy_height : Q;
  SIZES_boss_width : Q;
  SIZES_boss_height : Q;
  SIZES_bullet_width : Q;
  SIZES_bullet_height : Q;
  SIZES_powerProjectile_width : Q;
  SIZES_powerProjectile_height : Q;
  GAMEPLAY_playerSpeed : Q;
  GAMEPLAY_playerStartY : Q;
  GAMEPLAY_bulletSpeed : Q;
  GAMEPLAY_fireCooldown : Q;
  GAMEPLAY_enemySpeed : Q;
  GAMEPLAY_enemyStepDown : Q;
  GAMEPLAY_enemyStartX : Q;
  GAMEPLAY_enemyStartY : Q;
  GAMEPLAY_bossHP : Q;
  GAMEPLAY_bossSpawnWave : Z;
  GAMEPLAY_bossRewardScore : Z;
  GAMEPLAY_bossRewardPower : Z;
  GAMEPLAY_turiaPowerMax : Z;
  GAMEPLAY_turiaPowerPerKill : Z;
  GAMEPLAY_powerAttackSpeed : Q;
  GAMEPLAY_livesMax : Z;
  GAMEPLAY_scorePerKill : Z;
  GAMEPLAY_speedIncreasePerWave : Q;
  GAMEPLAY_bottomLine : Q
}.

(** The values written in [js/config.js]. *)
Definition CONFIG : Config := {|
  CANVAS_width := 800;
  CANVAS_height := 600;
  SIZES_player_width := 72;
  SIZES_player_height := 48;
  SIZES_enemy_width := 48;
  SIZES_enemy_height := 48;
  SIZES_boss_width := 96;
  SIZES_boss_height := 96;
  SIZES_bullet_width := 4;
  SIZES_bullet_height := 12;
  SIZES_powerProjectile_width := 8;
  SIZES_powerProjectile_height := 8;
  GAMEPLAY_playerSpeed := 300;
  GAMEPLAY_playerStartY := 500;
  GAMEPLAY_bulletSpeed := 500;
  GAMEPLAY_fireCooldown := 200;
  GAMEPLAY_enemySpeed := 50;
  GAMEPLAY_enemyStepDown := 20;
  GAMEPLAY_enemyStartX := 100;
  GAMEPLAY_enemyStartY := 80;
  GAMEPLAY_bossHP := 20;
  GAMEPLAY_bossSpawnWave := 3;
  GAMEPLAY_bossRewardScore := 500;
  GAMEPLAY_bossRewardPower := 50;
  GAMEPLAY_turiaPowerMax := 100;
  GAMEPLAY_turiaPowerPerKill := 10;
  GAMEPLAY_powerAttackSpeed := 400;
  GAMEPLAY_livesMax := 3;
  GAMEPLAY_scorePerKill := 10;
  GAMEPLAY_speedIncreasePerWave := 5;
  GAMEPLAY_bottomLine := 470
|}.

(** The formation offset [{x, y}] handed to the enemies and to the
    collision system. *)
Record Offset : Type := mkOffset { off_x : Q; off_y : Q }.

(** ** entities/Bullet.js *)

Module Bullet.
Record t : Type := mk {
  x : Q;
  y : Q;
  velocityY : Q;
  width : Q;
  height : Q;
  active : bool
}.

(** [new Bullet(x, y, velocityY)]. *)
Definition new (cfg : Config) (x0 y0 velocityY0 : Q) : t :=
  mk x0 y0 velocityY0
     (SIZES_bullet_width cfg) (SIZES_bullet_height cfg) true.

Definition getBounds (b : t) : Rect :=
  mkRect (x b - width b / 2) (y b - height b / 2) (width b) (height b).

Definition destroy (b : t) : t :=
  mk (x b) (y b) (velocityY b) (width b) (height b) false.

(** [update(dt)]. *)
Definition update (dt : Q) (b : t) : t :=
  mk (x b) (y b + velocityY b * dt) (velocityY b) (width b) (height b)
     (active b).

(** [isOffScreen(canvasHeight)]. *)
Definition isOffScreen (canvasHeight : Q) (b : t) : bool :=
  ltb (y b) (- height b) || gtb (y b) (canvasHeight + height b).
End Bullet.

(** ** entities/Enemy.js *)

Inductive EnemyType : Type := TYPE1 | TYPE2 | TYPE3.

Module Enemy.
Record t : Type := mk {
  localX : Q;
  localY : Q;
  type : EnemyType;
  width : Q;
  height : Q;
  alive : bool;
  dying : bool;
  deathTimer : Q;
  deathDuration : Q
}.

(** [new Enemy(localX, localY, type)]. *)
Definition new (cfg : Config) (localX0 localY0 : Q) (type0 : EnemyType)
  : t :=
  mk localX0 localY0 type0
     (SIZES_enemy_width cfg) (SIZES_enemy_height cfg)
     true false 0 200.

Definition getWorldPosition (e : t) (formationOffset : Offset) : Q * Q :=
  (localX e + off_x formationOffset, localY e + off_y formationOffset).

Definition getBounds (e : t) (formationOffset : Offset) : Rect :=
  let worldPos := getWorldPosition e formationOffset in
  mkRect (fst worldPos - width e / 2) (snd worldPos - height e / 2)
         (width e) (height e).

(** [kill()]: starts the death animation, unless the enemy is gone. *)
Definition kill (e : t) : t :=
  if negb (alive e) then e
  else mk (localX e) (localY e) (type e) (width e) (height e)
          (alive e) true (deathDuration e) (deathDuration e).

(** [update(dt)], without the bobbing animation phase. *)
Definition update (dt : Q) (e : t) : t :=
  if dying e then
    let timer := deathTimer e - dt * 1000 in
    if leb timer 0
    then mk (localX e) (localY e) (type e) (width e) (height e)
            false false timer (deathDuration e)
    else mk (localX e) (localY e) (type e) (width e) (height e)
            (alive e) (dying e) timer (deathDuration e)
  else e.
End Enemy.

(** ** systems/InputSystem.js *)

(** A call that returns a value, or raises a [TypeError]. *)
Inductive Result (A : Type) : Type :=
| Returns (a : A)
| TypeError.
Arguments Returns {A} _.
Arguments TypeError {A}.

Definition bind {A B : Type} (r : Result A) (k : A -> Result B)
    : Result B :=
  match r with
  | Returns a => k a
  | TypeError => TypeError
  end.

(** The property names that every plain object inherits from
    [Object.prototype]; each of them reads as a function, or, for
    [__proto__], as the prototype itself. *)
Definition prototypeNames : list string :=
  ["constructor"; "hasOwnProperty"; "isPrototypeOf";
   "propertyIsEnumerable"; "toLocaleString"; "toString"; "valueOf";
   "__defineGetter__"; "__defineSetter__"; "__lookupGetter__";
   "__lookupSetter__"; "__proto__"].

Definition inherited (name : string) : bool :=
  existsb (String.eqb name) prototypeNames.

(** [CONFIG.KEYS]: the key codes of each action, the own properties of
    an object literal. *)
Definition KEYS : gmap string (list string) :=
  {[ "left" := ["ArrowLeft"; "KeyA"];
     "right" := ["ArrowRight"; "KeyD"];
     "shoot" := ["Space"];
     "power" := ["KeyE"; "ShiftLeft"; "ShiftRight"] ]}.

(** The objects [keys], [justPressedKeys] and [justReleasedKeys] start as
    [{}] and only ever get booleans assigned; such an object is given by
    its own properties.

    [obj[code]] read as a condition: the own property if there is one,
    else the inherited one, which is truthy, else [undefined], which is
    falsy.  [__proto__] is an accessor of the prototype and always reads
    as the prototype. *)
Definition truthy (obj : gmap string bool) (code : string) : bool :=
  if String.eqb code "__proto__" then true
  else match obj !! code with
       | Some v => v
       | None => inherited code
       end.

(** [obj[code] = v] for a boolean [v]: the own property is created or
    overwritten; for [__proto__] the setter of the prototype is called,
    which ignores a boolean. *)
Definition assign (code : string) (v : bool) (obj : gmap string bool)
    : gmap string bool :=
  if String.eqb code "__proto__" then obj else <[code := v]> obj.

Module InputSystem.
Record t : Type := mk {
  keys : gmap string bool;
  justPressedKeys : gmap string bool;
  justReleasedKeys : gmap string bool
}.

(** [new InputSystem()]. *)
Definition new : t := mk ∅ ∅ ∅.

(** [handleKeyDown(e)], for the event's [e.code]. *)
Definition handleKeyDown (code : string) (i : t) : t :=
  mk (assign code true (keys i))
     (if negb (truthy (keys i) code)
      then assign code true (justPressedKeys i)
      else justPressedKeys i)
     (justReleasedKeys i).

(** [handleKeyUp(e)]. *)
Definition handleKeyUp (code : string) (i : t) : t :=
  mk (assign code false (keys i))
     (justPressedKeys i)
     (assign code true (justReleasedKeys i)).

(** The shape shared by [isPressed], [justPressed] and [justReleased].
    [CONFIG.KEYS[action]] is the array of an action, or, for a name of
    [Object.prototype], a function or object that has no [some] method,
    so that the call raises, or [undefined], and the result is [false]. *)
Definition someKey (obj : gmap string bool) (action : string)
    : Result bool :=
  match KEYS !! action with
  | Some keyCodes => Returns (existsb (truthy obj) keyCodes)
  | None => if inherited action then TypeError else Returns false
  end.

Definition isPressed (action : string) (i : t) : Result bool :=
  someKey (keys i) action.

Definition justPressed (action : string) (i : t) : Result bool :=
  someKey (justPressedKeys i) action.

Definition justReleased (action : string) (i : t) : Result bool :=
  someKey (justReleasedKeys i) action.

Definition isKeyPressed (code : string) (i : t) : bool :=
  truthy (keys i) code.

(** [update()]: called at the end of each frame. *)
Definition update (i : t) : t := mk (keys i) ∅ ∅.

Definition reset (i : t) : t := mk ∅ ∅ ∅.
End InputSystem.

(** ** entities/Player.js *)

Module Player.
Record t : Type := mk {
  x : Q;
  y : Q;
  width : Q;
  height : Q;
  speed : Q;
  fireCooldown : Q;
  fireCooldownMax : Q
}.

(** [new Player(x, y)]. *)
Definition new (cfg : Config) (x0 y0 : Q) : t :=
  mk x0 y0 (SIZES_player_width cfg) (SIZES_player_height cfg)
     (GAMEPLAY_playerSpeed cfg) 0 (GAMEPLAY_fireCooldown cfg).

(** [shoot()]: the bullet fired, if any, and the player afterwards. *)
Definition shoot (cfg : Config) (p : t) : option Bullet.t * t :=
  if leb (fireCooldown p) 0 then
    (Some (Bullet.new cfg (x p) (y p - height p / 2)
                      (- (GAMEPLAY_bulletSpeed cfg))),
     mk (x p) (y p) (width p) (height p) (speed p)
        (fireCooldownMax p) (fireCooldownMax p))
  else (None, p).

Definition canShoot (p : t) : bool := leb (fireCooldown p) 0.

Definition getBounds (p : t) : Rect :=
  mkRect (x p - width p / 2) (y p - height p / 2) (width p) (height p).

(** [update(dt, input, canvasWidth)]; an exception raised by a call of
    [isPressed] ends the method. *)
Definition update (dt : Q) (input : InputSystem.t) (canvasWidth : Q)
    (p : t) : Result t :=
  bind (InputSystem.isPressed "left" input) (fun left =>
  let x1 := if left then x p - speed p * dt else x p in
  bind (InputSystem.isPressed "right" input) (fun right =>
  let x2 := if right then x1 + speed p * dt else x1 in
  let x3 := clamp x2 (width p / 2) (canvasWidth - width p / 2) in
  let fireCooldown1 :=
    if gtb (fireCooldown p) 0 then fireCooldown p - dt * 1000
    else fireCooldown p in
  Returns (mk x3 (y p) (width p) (height p) (speed p) fireCooldown1
              (fireCooldownMax p)))).

(** [reset(canvasWidth)]. *)
Definition reset (cfg : Config) (canvasWidth : Q) (p : t) : t :=
  mk (canvasWidth / 2) (GAMEPLAY_playerStartY cfg) (width p) (height p)
     (speed p) 0 (fireCooldownMax p).
End Player.

(** ** entities/Enemy.js: the formation controller *)

(** The running minimum and maximum of [update] start at [Infinity] and
    [-Infinity]; these are the only non-finite numbers of the source. *)
Inductive ExtNum : Type :=
| NegInfinity
| Finite (q : Q)
| Infinity.

(** [Math.min(a, b)] and [Math.max(a, b)] for a finite [b]. *)
Definition Math_min (a : ExtNum) (b : Q) : ExtNum :=
  match a with
  | NegInfinity => NegInfinity
  | Finite q => Finite (Qmin q b)
  | Infinity => Finite b
  end.

Definition Math_max (a : ExtNum) (b : Q) : ExtNum :=
  match a with
  | NegInfinity => Finite b
  | Finite q => Finite (Qmax q b)
  | Infinity => Infinity
  end.

(** [a >= b] and [a <= b] for a finite [b]. *)
Definition ext_geb (a : ExtNum) (b : Q) : bool :=
  match a with
  | NegInfinity => false
  | Finite q => geb q b
  | Infinity => true
  end.

Definition ext_leb (a : ExtNum) (b : Q) : bool :=
  match a with
  | NegInfinity => true
  | Finite q => leb q b
  | Infinity => false
  end.

Module FormationController.
Record t : Type := mk {
  offsetX : Q;
  offsetY : Q;
  direction : Q;
  speed : Q;
  stepDownAmount : Q;
  minX : Q;
  maxX : Q
}.

(** [new FormationController()]. *)
Definition new (cfg : Config) : t :=
  mk 0 0 1 (GAMEPLAY_enemySpeed cfg) (GAMEPLAY_enemyStepDown cfg)
     (GAMEPLAY_enemyStartX cfg)
     ((CANVAS_width cfg) - (GAMEPLAY_enemyStartX cfg)).

(** The predicate of [enemies.filter(e => e.alive || e.dying)]. *)
Definition aliveOrDying (e : Enemy.t) : bool :=
  Enemy.alive e || Enemy.dying e.

(** The [for (const enemy of aliveEnemies)] loop of [update]: the running
    pair [(minEnemyX, maxEnemyX)]. *)
Fixpoint enemyBounds (offsetX0 : Q) (aliveEnemies : list Enemy.t)
    (minEnemyX maxEnemyX : ExtNum) : ExtNum * ExtNum :=
  match aliveEnemies with
  | [] => (minEnemyX, maxEnemyX)
  | enemy :: rest =>
      let worldX := Enemy.localX enemy + offsetX0 in
      enemyBounds offsetX0 rest
        (Math_min minEnemyX (worldX - Enemy.width enemy / 2))
        (Math_max maxEnemyX (worldX + Enemy.width enemy / 2))
  end.

(** [update(dt, enemies)]. *)
Definition update (cfg : Config) (dt : Q) (enemies : list Enemy.t) (f : t)
    : t :=
  let maxX1 := (CANVAS_width cfg) - (GAMEPLAY_enemyStartX cfg) in
  let offsetX1 := offsetX f + speed f * direction f * dt in
  let f1 :=
    mk offsetX1 (offsetY f) (direction f) (speed f) (stepDownAmount f)
       (minX f) maxX1 in
  let aliveEnemies := List.filter aliveOrDying enemies in
  if Nat.eqb (length aliveEnemies) 0 then f1
  else
    let '(minEnemyX, maxEnemyX) :=
      enemyBounds offsetX1 aliveEnemies Infinity NegInfinity in
    if ext_geb maxEnemyX maxX1 && gtb (direction f1) 0 then
      mk offsetX1 (offsetY f1 + stepDownAmount f1) (-1) (speed f1)
         (stepDownAmount f1) (minX f1) maxX1
    else if ext_leb minEnemyX (minX f1) && ltb (direction f1) 0 then
      mk offsetX1 (offsetY f1 + stepDownAmount f1) 1 (speed f1)
         (stepDownAmount f1) (minX f1) maxX1
    else f1.

Definition getOffset (f : t) : Offset := mkOffset (offsetX f) (offsetY f).

Definition increaseSpeed (amount : Q) (f : t) : t :=
  mk (offsetX f) (offsetY f) (direction f) (speed f + amount)
     (stepDownAmount f) (minX f) (maxX f).

Definition reset (f : t) : t :=
  mk 0 0 1 (speed f) (stepDownAmount f) (minX f) (maxX f).
End FormationController.

(** World-space left and right edge of an enemy, as [update] computes
    them from the horizontal offset. *)
Definition leftEdge (offsetX0 : Q) (e : Enemy.t) : Q :=
  Enemy.localX e + offsetX0 - Enemy.width e / 2.

Definition rightEdge (offsetX0 : Q) (e : Enemy.t) : Q :=
  Enemy.localX e + offsetX0 + Enemy.width e / 2.

(** The fields of [CONFIG.GAMEPLAY] that only the wave layout reads. *)
Record WaveConfig : Type := mkWaveConfig {
  GAMEPLAY_enemyRows : nat;
  GAMEPLAY_enemyCols : nat;
  GAMEPLAY_enemySpacingX : Q;
  GAMEPLAY_enemySpacingY : Q
}.

(** Their values in [js/config.js]. *)
Definition WAVES : WaveConfig := mkWaveConfig 4 8 50 40.

(** ** systems/SpawnSystem.js *)

Module SpawnSystem.
(** [shouldSpawnBoss(waveNumber)]; [%] is the remainder that takes the
    sign of the dividend, [Z.rem]. *)
Definition shouldSpawnBoss (cfg : Config) (waveNumber : Z) : bool :=
  (0 <? waveNumber)%Z &&
  (Z.rem waveNumber (GAMEPLAY_bossSpawnWave cfg) =? 0)%Z.

Definition getSpeedForWave (cfg : Config) (waveNumber : Z) : Q :=
  (GAMEPLAY_enemySpeed cfg)
  + inject_Z waveNumber * (GAMEPLAY_speedIncreasePerWave cfg).

(** [nextWave()]: the new wave number, which is also the new counter. *)
Definition nextWave (waveNumber : Z) : Z := (waveNumber + 1)%Z.

(** The enemy type [createWave] gives to a row. *)
Definition typeForRow (row : nat) : EnemyType :=
  if Nat.eqb row 0 then TYPE3
  else if Nat.ltb row 2 then TYPE2
  else TYPE1.

(** [createWave(rows, cols)]: the two nested counting loops, each enemy
    pushed in turn. *)
Definition createWave (cfg : Config) (w : WaveConfig) (rows cols : nat)
    : list Enemy.t :=
  flat_map
    (fun row =>
       map (fun col =>
              Enemy.new cfg
                (GAMEPLAY_enemyStartX cfg
                 + inject_Z (Z.of_nat col) * GAMEPLAY_enemySpacingX w)
                (GAMEPLAY_enemyStartY cfg
                 + inject_Z (Z.of_nat row) * GAMEPLAY_enemySpacingY w)
                (typeForRow row))
           (seq 0 cols))
    (seq 0 rows).
End SpawnSystem.

(** ** systems/ScoreSystem.js *)

(** A record of the persisted scoreboard, [{name, score, date}]. *)
Record ScoreEntry : Type := mkEntry {
  entry_name : string;
  entry_score : Z;
  entry_date : Z
}.

(** What reading [localStorage] under the key ['turiaScores'] gives:
    nothing (no item, an item that does not parse to an array, or a read
    that throws, which [getScoreboard] catches), or a list of entries. *)
Definition Storage : Type := option (list ScoreEntry).

(** What [localStorage.setItem] does with the value it is given: it stores
    it, or it throws, as it does when the environment has no
    [localStorage], or when the storage is disabled or full. *)
Inductive SetItem : Type := stores | throws.

(** [Array.prototype.sort(compare)].  The language requires the sort to
    be stable; insertion from the right, placing an element before the
    first one it does not have to follow, computes that order. *)
Fixpoint sort_insert {A : Type} (compare : A -> A -> Z) (a : A)
    (sorted : list A) : list A :=
  match sorted with
  | [] => [a]
  | b :: rest =>
      if (0 <? compare a b)%Z then b :: sort_insert compare a rest
      else a :: b :: rest
  end.

Fixpoint Array_sort {A : Type} (compare : A -> A -> Z) (l : list A)
    : list A :=
  match l with
  | [] => []
  | a :: rest => sort_insert compare a (Array_sort compare rest)
  end.

(** [toUpperCase()] on a name of ASCII characters, one byte of the
    string for each character: the letters [a] to [z] are raised, every
    other ASCII character is kept.  A name with a character outside ASCII
    is outside this model, which neither has the upper-casing of Unicode
    nor the UTF-16 units that [substring] counts. *)
Definition upperChar (c : Ascii.ascii) : Ascii.ascii :=
  let n := Ascii.nat_of_ascii c in
  if (Nat.leb 97 n && Nat.leb n 122)%bool
  then Ascii.ascii_of_nat (n - 32) else c.

Fixpoint toUpperCase (s : string) : string :=
  match s with
  | EmptyString => EmptyString
  | String c rest => String (upperChar c) (toUpperCase rest)
  end.

Module ScoreSystem.
Record t : Type := mk {
  score : Z;
  lives : Z;
  turiaPower : Z;
  turiaPowerMax : Z;
  playerName : string
}.

(** [new ScoreSystem()]. *)
Definition new (cfg : Config) : t :=
  mk 0 (GAMEPLAY_livesMax cfg) 0 (GAMEPLAY_turiaPowerMax cfg) EmptyString.

Definition setPlayerName (name : string) (s : t) : t :=
  mk (score s) (lives s) (turiaPower s) (turiaPowerMax s)
     (substring 0 10 (toUpperCase name)).

Definition addPower (amount : Z) (s : t) : t :=
  mk (score s) (lives s)
     (Z.min (turiaPower s + amount) (turiaPowerMax s))
     (turiaPowerMax s) (playerName s).

Definition addKill (points power : Z) (s : t) : t :=
  addPower power
    (mk (score s + points) (lives s) (turiaPower s) (turiaPowerMax s)
        (playerName s)).

(** [addKill()] with both arguments defaulted. *)
Definition addKillDefault (cfg : Config) (s : t) : t :=
  addKill (GAMEPLAY_scorePerKill cfg) (GAMEPLAY_turiaPowerPerKill cfg) s.

Definition addBossKill (cfg : Config) (s : t) : t :=
  addPower (GAMEPLAY_bossRewardPower cfg)
    (mk (score s + (GAMEPLAY_bossRewardScore cfg)) (lives s)
        (turiaPower s) (turiaPowerMax s) (playerName s)).

Definition isPowerReady (s : t) : bool :=
  (turiaPowerMax s <=? turiaPower s)%Z.

(** [consumePower()]: the returned flag and the state afterwards. *)
Definition consumePower (s : t) : bool * t :=
  if isPowerReady s then
    (true, mk (score s) (lives s) 0 (turiaPowerMax s) (playerName s))
  else (false, s).

(** [loseLife()]: the returned count and the state afterwards. *)
Definition loseLife (s : t) : Z * t :=
  let lives1 := Z.max 0 (lives s - 1) in
  (lives1, mk (score s) lives1 (turiaPower s) (turiaPowerMax s)
              (playerName s)).

Definition isGameOver (s : t) : bool := (lives s <=? 0)%Z.

Definition reset (cfg : Config) (s : t) : t :=
  mk 0 (GAMEPLAY_livesMax cfg) 0 (turiaPowerMax s) (playerName s).

Definition getScoreboard (store : Storage) : list ScoreEntry :=
  match store with
  | None => []
  | Some scores => scores
  end.

(** The comparator [(a, b) => b.score - a.score]. *)
Definition byScoreDesc (a b : ScoreEntry) : Z :=
  (entry_score b - entry_score a)%Z.

(** [!this.playerName]: the empty string is the only falsy name. *)
Definition nameIsEmpty (name : string) : bool :=
  match name with
  | EmptyString => true
  | String _ _ => false
  end.

(** [saveScore()], with [Date.now()] passed in as [now] and the
    behaviour of [localStorage.setItem] as [setItem]: the returned flag
    and the store afterwards.  The [catch] branch is taken when the write
    throws; nothing has been written then. *)
Definition saveScore (now : Z) (setItem : SetItem) (s : t)
    (store : Storage) : bool * Storage :=
  if nameIsEmpty (playerName s) || (score s <=? 0)%Z then (false, store)
  else
    let scores :=
      getScoreboard store ++ [mkEntry (playerName s) (score s) now] in
    let sorted := Array_sort byScoreDesc scores in
    let topScores := firstn 10 sorted in
    match setItem with
    | stores => (true, Some topScores)
    | throws => (false, store)
    end.

(** [isHighScore(score)]. *)
Definition isHighScore (candidate : Z) (store : Storage) : bool :=
  let scores := getScoreboard store in
  if Nat.ltb (length scores) 10 then true
  else
    match last scores with
    | Some lowest => (entry_score lowest <? candidate)%Z
    | None => false
    end.

(** The loop of [getCurrentRank], entered at index [i]. *)
Fixpoint rankFrom (i : nat) (name : string) (points : Z)
    (scores : list ScoreEntry) : nat :=
  match scores with
  | [] => 0
  | e :: rest =>
      if String.eqb (entry_name e) name && (entry_score e =? points)%Z
      then S i
      else rankFrom (S i) name points rest
  end.

(** [getCurrentRank()]. *)
Definition getCurrentRank (s : t) (store : Storage) : nat :=
  rankFrom 0 (playerName s) (score s) (getScoreboard store).

(** [clearScoreboard()]: the store afterwards. *)
Definition clearScoreboard (store : Storage) : Storage := None.

(** How many times [loseLife()] is applied in a row. *)
Fixpoint loseLives (n : nat) (s : t) : t :=
  match n with
  | O => s
  | S k => loseLives k (snd (loseLife s))
  end.

(** The states a score system goes through once it is in state [s0]:
    from then on only its methods touch it. *)
Inductive reachableFrom (cfg : Config) (s0 : t) : t -> Prop :=
| reach_start : reachableFrom cfg s0 s0
| reach_setPlayerName name s :
    reachableFrom cfg s0 s -> reachableFrom cfg s0 (setPlayerName name s)
| reach_addKill points power s :
    reachableFrom cfg s0 s -> reachableFrom cfg s0 (addKill points power s)
| reach_addBossKill s :
    reachableFrom cfg s0 s -> reachableFrom cfg s0 (addBossKill cfg s)
| reach_addPower amount s :
    reachableFrom cfg s0 s -> reachableFrom cfg s0 (addPower amount s)
| reach_consumePower s :
    reachableFrom cfg s0 s -> reachableFrom cfg s0 (snd (consumePower s))
| reach_loseLife s :
    reachableFrom cfg s0 s -> reachableFrom cfg s0 (snd (loseLife s))
| reach_reset s :
    reachableFrom cfg s0 s -> reachableFrom cfg s0 (reset cfg s).

(** The states of a score system in the program: it is constructed, and
    then only its methods touch it. *)
Definition reachable (cfg : Config) : t -> Prop :=
  reachableFrom cfg (new cfg).
End ScoreSystem.

(** One finished game handed to [saveScore]: the name and score of the
    score system at game over, and the clock. *)
Record Play : Type := mkPlay {
  play_name : string;
  play_score : Z;
  play_now : Z
}.

Definition scoreSystemOf (p : Play) : ScoreSystem.t :=
  ScoreSystem.mk (play_score p) 0 0 0 (play_name p).

(** The guard of [saveScore] passes for this game. *)
Definition savable (p : Play) : Prop :=
  play_name p <> EmptyString /\ (0 < play_score p)%Z.

(** A sequence of games, each saved in turn, on a storage that takes
    every write. *)
Fixpoint saveAll (plays : list Play) (store : Storage) : Storage :=
  match plays with
  | [] => store
  | p :: rest =>
      saveAll rest
        (snd (ScoreSystem.saveScore (play_now p) stores (scoreSystemOf p)
                                    store))
  end.

(** ** entities/Boss.js: the fields and methods the collision pass uses *)

Module Boss.
Record t : Type := mk {
  x : Q;
  y : Q;
  hp : Q;
  maxHP : Q;
  width : Q;
  height : Q;
  active : bool;
  dying : bool;
  deathTimer : Q;
  deathDuration : Q;
  hitFlash : Q;
  hitFlashDuration : Q
}.

(** [new Boss(x, y, hp)]. *)
Definition new (cfg : Config) (x0 y0 hp0 : Q) : t :=
  mk x0 y0 hp0 hp0 (SIZES_boss_width cfg) (SIZES_boss_height cfg)
     true false 0 500 0 100.

Definition getBounds (b : t) : Rect :=
  mkRect (x b - width b / 2) (y b - height b / 2) (width b) (height b).

(** [takeDamage(amount)]: whether the boss died, and the boss afterwards. *)
Definition takeDamage (amount : Q) (b : t) : bool * t :=
  if dying b || negb (active b) then (false, b)
  else
    let hp1 := hp b - amount in
    if leb hp1 0 then
      (true, mk (x b) (y b) 0 (maxHP b) (width b) (height b) (active b)
                true (deathDuration b) (deathDuration b)
                (hitFlashDuration b) (hitFlashDuration b))
    else
      (false, mk (x b) (y b) hp1 (maxHP b) (width b) (height b) (active b)
                 (dying b) (deathTimer b) (deathDuration b)
                 (hitFlashDuration b) (hitFlashDuration b)).

(** [isDead()]. *)
Definition isDead (b : t) : bool := leb (hp b) 0 && negb (dying b).
End Boss.

(** ** entities/PowerAttack.js *)

Module PowerProjectile.
Record t : Type := mk {
  x : Q;
  y : Q;
  dirX : Q;
  dirY : Q;
  speed : Q;
  width : Q;
  height : Q;
  active : bool
}.

Definition getBounds (p : t) : Rect :=
  mkRect (x p - width p / 2) (y p - height p / 2) (width p) (height p).

Definition deactivate (p : t) : t :=
  mk (x p) (y p) (dirX p) (dirY p) (speed p) (width p) (height p) false.

(** [update(dt)], without the trail kept for drawing. *)
Definition update (dt : Q) (p : t) : t :=
  mk (x p + dirX p * speed p * dt) (y p + dirY p * speed p * dt)
     (dirX p) (dirY p) (speed p) (width p) (height p) (active p).

(** [isOffScreen(width, height)], with its margin of 50. *)
Definition isOffScreen (canvasWidth canvasHeight : Q) (p : t) : bool :=
  let margin := 50 in
  ltb (x p) (- margin) || gtb (x p) (canvasWidth + margin) ||
  ltb (y p) (- margin) || gtb (y p) (canvasHeight + margin).
End PowerProjectile.

Module PowerAttack.
Record t : Type := mk {
  x : Q;
  y : Q;
  projectiles : list PowerProjectile.t;
  active : bool;
  flashTimer : Q
}.

(** [this.projectiles.filter(p => p.active)], each projectile paired with
    its index in [this.projectiles]: the filtered array holds the same
    objects, and the index is what tells them apart after the filter. *)
Fixpoint activeFrom (i : nat) (ps : list PowerProjectile.t)
    : list (nat * PowerProjectile.t) :=
  match ps with
  | [] => []
  | p :: rest =>
      if PowerProjectile.active p then (i, p) :: activeFrom (S i) rest
      else activeFrom (S i) rest
  end.

Definition getProjectiles (a : t) : list (nat * PowerProjectile.t) :=
  activeFrom 0 (projectiles a).

(** A projectile mutated through the filtered array is the one stored in
    [this.projectiles] at its index. *)
Fixpoint writeBack (updated : list (nat * PowerProjectile.t))
    (ps : list PowerProjectile.t) : list PowerProjectile.t :=
  match updated with
  | [] => ps
  | (i, p) :: rest => writeBack rest (<[i := p]> ps)
  end.

Definition setProjectiles (ps : list PowerProjectile.t) (a : t) : t :=
  mk (x a) (y a) ps (active a) (flashTimer a).

(** The body of the loop of [update] for one projectile. *)
Definition updateProjectile (dt canvasWidth canvasHeight : Q)
    (projectile : PowerProjectile.t) : PowerProjectile.t :=
  if negb (PowerProjectile.active projectile) then projectile
  else
    let moved := PowerProjectile.update dt projectile in
    if PowerProjectile.isOffScreen canvasWidth canvasHeight moved
    then PowerProjectile.deactivate moved
    else moved.

(** [getActiveCount()]. *)
Definition getActiveCount (a : t) : nat :=
  length (List.filter PowerProjectile.active (projectiles a)).

(** [update(dt, canvasWidth, canvasHeight)]. *)
Definition update (dt canvasWidth canvasHeight : Q) (a : t) : t :=
  let flashTimer1 :=
    if gtb (flashTimer a) 0 then flashTimer a - dt * 1000
    else flashTimer a in
  let projectiles1 :=
    map (updateProjectile dt canvasWidth canvasHeight) (projectiles a) in
  let activeCount :=
    length (List.filter PowerProjectile.active projectiles1) in
  mk (x a) (y a) projectiles1
     (if Nat.eqb activeCount 0 then false else active a)
     flashTimer1.
End PowerAttack.

(** ** systems/CollisionSystem.js *)

(** A collision event; the [type] string of the source is the
    constructor. *)
Inductive CollisionEvent : Type :=
| bullet_enemy (bullet enemy : nat)
| bullet_boss (bullet : nat) (damage : Q)
| enemy_reach_bottom (enemy : nat)
| power_enemy (projectile enemy : nat)
| power_boss (projectile : nat) (damage : Q).

Definition damageOf (ev : CollisionEvent) : Q :=
  match ev with
  | bullet_boss _ damage => damage
  | power_boss _ damage => damage
  | _ => 0
  end.

Module CollisionSystem.
(** The guard of the inner loops, [!enemy.alive || enemy.dying]. *)
Definition skipped (enemy : Enemy.t) : bool :=
  negb (Enemy.alive enemy) || Enemy.dying enemy.

(** The inner loop of [checkBulletEnemyCollisions], entered at enemy
    index [j]: the index of the enemy hit and the enemies after its
    [kill()], or [None] when the loop runs to its end. *)
Fixpoint scanEnemies (bulletBounds : Rect) (formationOffset : Offset)
    (j : nat) (enemies : list Enemy.t) : option (nat * list Enemy.t) :=
  match enemies with
  | [] => None
  | enemy :: rest =>
      if skipped enemy then
        match scanEnemies bulletBounds formationOffset (S j) rest with
        | Some (k, rest1) => Some (k, enemy :: rest1)
        | None => None
        end
      else if rectIntersect bulletBounds
                (Enemy.getBounds enemy formationOffset) then
        Some (j, Enemy.kill enemy :: rest)
      else
        match scanEnemies bulletBounds formationOffset (S j) rest with
        | Some (k, rest1) => Some (k, enemy :: rest1)
        | None => None
        end
  end.

(** The outer loop of [checkBulletEnemyCollisions], entered at bullet
    index [i]: the collisions pushed, the bullets and the enemies after
    the pass. *)
Fixpoint bulletLoop (formationOffset : Offset) (i : nat)
    (bullets : list Bullet.t) (enemies : list Enemy.t)
    : list CollisionEvent * list Bullet.t * list Enemy.t :=
  match bullets with
  | [] => ([], [], enemies)
  | bullet :: rest =>
      if negb (Bullet.active bullet) then
        let '(collisions, rest1, enemies1) :=
          bulletLoop formationOffset (S i) rest enemies in
        (collisions, bullet :: rest1, enemies1)
      else
        match scanEnemies (Bullet.getBounds bullet) formationOffset
                          0 enemies with
        | Some (j, enemies0) =>
            let '(collisions, rest1, enemies1) :=
              bulletLoop formationOffset (S i) rest enemies0 in
            (bullet_enemy i j :: collisions,
             Bullet.destroy bullet :: rest1, enemies1)
        | None =>
            let '(collisions, rest1, enemies1) :=
              bulletLoop formationOffset (S i) rest enemies in
            (collisions, bullet :: rest1, enemies1)
        end
  end.

(** What a check hands back: the collisions it returns, [this.events]
    afterwards, and the two arrays it may have mutated. *)
Record Outcome (A B : Type) : Type := mkOutcome {
  collisions : list CollisionEvent;
  events : list CollisionEvent;
  firsts : list A;
  seconds : B
}.
Arguments mkOutcome {A B} _ _ _ _.
Arguments collisions {A B} _.
Arguments events {A B} _.
Arguments firsts {A B} _.
Arguments seconds {A B} _.

Definition checkBulletEnemyCollisions (events0 : list CollisionEvent)
    (bullets : list Bullet.t) (enemies : list Enemy.t)
    (formationOffset : Offset) : Outcome Bullet.t (list Enemy.t) :=
  let '(found, bullets1, enemies1) :=
    bulletLoop formationOffset 0 bullets enemies in
  mkOutcome found (events0 ++ found) bullets1 enemies1.

(** The loop of [checkBulletBossCollisions], entered at bullet index [i]. *)
Fixpoint bossLoop (bossBounds : Rect) (i : nat) (bullets : list Bullet.t)
    : list CollisionEvent * list Bullet.t :=
  match bullets with
  | [] => ([], [])
  | bullet :: rest =>
      let '(found, rest1) := bossLoop bossBounds (S i) rest in
      if negb (Bullet.active bullet) then (found, bullet :: rest1)
      else if rectIntersect (Bullet.getBounds bullet) bossBounds then
        (bullet_boss i 1 :: found, Bullet.destroy bullet :: rest1)
      else (found, bullet :: rest1)
  end.

Definition bossPresent (boss : option Boss.t) : bool :=
  match boss with
  | Some b => Boss.active b
  | None => false
  end.

Definition checkBulletBossCollisions (events0 : list CollisionEvent)
    (bullets : list Bullet.t) (boss : option Boss.t)
    : Outcome Bullet.t unit :=
  match boss with
  | Some b =>
      if negb (Boss.active b) then mkOutcome [] events0 bullets tt
      else
        let '(found, bullets1) := bossLoop (Boss.getBounds b) 0 bullets in
        mkOutcome found (events0 ++ found) bullets1 tt
  | None => mkOutcome [] events0 bullets tt
  end.

(** The loop of [checkEnemyReachBottom], entered at enemy index [j]: the
    index of the first enemy found at or below the line. *)
Fixpoint reachBottomLoop (formationOffset : Offset) (bottomLine : Q)
    (j : nat) (enemies : list Enemy.t) : option nat :=
  match enemies with
  | [] => None
  | enemy :: rest =>
      if negb (Enemy.alive enemy) then
        reachBottomLoop formationOffset bottomLine (S j) rest
      else
        let worldPos := Enemy.getWorldPosition enemy formationOffset in
        let bottomY := snd worldPos + Enemy.height enemy / 2 in
        if geb bottomY bottomLine then Some j
        else reachBottomLoop formationOffset bottomLine (S j) rest
  end.

(** [checkEnemyReachBottom(enemies, formationOffset, bottomLine)]: the
    returned flag and [this.events] afterwards. *)
Definition checkEnemyReachBottom (events0 : list CollisionEvent)
    (enemies : list Enemy.t) (formationOffset : Offset) (bottomLine : Q)
    : bool * list CollisionEvent :=
  match reachBottomLoop formationOffset bottomLine 0 enemies with
  | Some j => (true, events0 ++ [enemy_reach_bottom j])
  | None => (false, events0)
  end.

(** The inner loop of [checkPowerAttackEnemyCollisions] for projectile
    [p], entered at enemy index [j]; it has no [break]. *)
Fixpoint powerScan (projectileBounds : Rect) (formationOffset : Offset)
    (p j : nat) (enemies : list Enemy.t)
    : list CollisionEvent * list Enemy.t :=
  match enemies with
  | [] => ([], [])
  | enemy :: rest =>
      let '(found, rest1) :=
        powerScan projectileBounds formationOffset p (S j) rest in
      if skipped enemy then (found, enemy :: rest1)
      else if rectIntersect projectileBounds
                (Enemy.getBounds enemy formationOffset) then
        (power_enemy p j :: found, Enemy.kill enemy :: rest1)
      else (found, enemy :: rest1)
  end.

Fixpoint powerLoop (formationOffset : Offset)
    (projectiles : list (nat * PowerProjectile.t)) (enemies : list Enemy.t)
    : list CollisionEvent * list Enemy.t :=
  match projectiles with
  | [] => ([], enemies)
  | (p, projectile) :: rest =>
      if negb (PowerProjectile.active projectile) then
        powerLoop formationOffset rest enemies
      else
        let '(found, enemies0) :=
          powerScan (PowerProjectile.getBounds projectile) formationOffset
                    p 0 enemies in
        let '(found1, enemies1) := powerLoop formationOffset rest enemies0 in
        (found ++ found1, enemies1)
  end.

Definition checkPowerAttackEnemyCollisions (events0 : list CollisionEvent)
    (projectiles : list (nat * PowerProjectile.t)) (enemies : list Enemy.t)
    (formationOffset : Offset)
    : Outcome (nat * PowerProjectile.t) (list Enemy.t) :=
  let '(found, enemies1) := powerLoop formationOffset projectiles enemies in
  mkOutcome found (events0 ++ found) projectiles enemies1.

Fixpoint powerBossLoop (bossBounds : Rect)
    (projectiles : list (nat * PowerProjectile.t))
    : list CollisionEvent * list (nat * PowerProjectile.t) :=
  match projectiles with
  | [] => ([], [])
  | (p, projectile) :: rest =>
      let '(found, rest1) := powerBossLoop bossBounds rest in
      if negb (PowerProjectile.active projectile) then
        (found, (p, projectile) :: rest1)
      else if rectIntersect (PowerProjectile.getBounds projectile)
                bossBounds then
        (power_boss p 1 :: found,
         (p, PowerProjectile.deactivate projectile) :: rest1)
      else (found, (p, projectile) :: rest1)
  end.

Definition checkPowerAttackBossCollisions (events0 : list CollisionEvent)
    (projectiles : list (nat * PowerProjectile.t)) (boss : option Boss.t)
    : Outcome (nat * PowerProjectile.t) unit :=
  match boss with
  | Some b =>
      if negb (Boss.active b) then mkOutcome [] events0 projectiles tt
      else
        let '(found, projectiles1) :=
          powerBossLoop (Boss.getBounds b) projectiles in
        mkOutcome found (events0 ++ found) projectiles1 tt
  | None => mkOutcome [] events0 projectiles tt
  end.
End CollisionSystem.

(** ** states/PlayState.js: the collision step of the tick *)

Module PlayState.
(** The fields of the play state that [checkCollisions] reads or writes;
    [collision] is the event buffer of its [CollisionSystem]. *)
Record t : Type := mk {
  collision : list CollisionEvent;
  score : ScoreSystem.t;
  bullets : list Bullet.t;
  enemies : list Enemy.t;
  formation : FormationController.t;
  boss : option Boss.t;
  powerAttack : option PowerAttack.t;
  bossActive : bool
}.

(** [for (const hit of hits) this.score.addKill()]. *)
Fixpoint addKills (cfg : Config) (hits : list CollisionEvent)
    (s : ScoreSystem.t) : ScoreSystem.t :=
  match hits with
  | [] => s
  | _ :: rest => addKills cfg rest (ScoreSystem.addKillDefault cfg s)
  end.

(** The loop over the boss hits: [takeDamage(hit.damage)] for each, with
    the reward and the flag when the boss dies. *)
Fixpoint applyBossHits (cfg : Config) (hits : list CollisionEvent)
    (b : Boss.t) (s : ScoreSystem.t) (bossActive0 : bool)
    : Boss.t * ScoreSystem.t * bool :=
  match hits with
  | [] => (b, s, bossActive0)
  | hit :: rest =>
      let '(died, b1) := Boss.takeDamage (damageOf hit) b in
      if died then
        applyBossHits cfg rest b1 (ScoreSystem.addBossKill cfg s) false
      else applyBossHits cfg rest b1 s bossActive0
  end.

(** Bullets vs enemies, and the score for the kills. *)
Definition bulletsVsEnemies (cfg : Config) (offset : Offset) (st : t)
    : t :=
  let out :=
    CollisionSystem.checkBulletEnemyCollisions
      (collision st) (bullets st) (enemies st) offset in
  mk (CollisionSystem.events out)
     (addKills cfg (CollisionSystem.collisions out) (score st))
     (CollisionSystem.firsts out) (CollisionSystem.seconds out)
     (formation st) (boss st) (powerAttack st) (bossActive st).

(** Bullets vs boss. *)
Definition bulletsVsBoss (cfg : Config) (st : t) : t :=
  match boss st with
  | Some b =>
      if Boss.active b then
        let out :=
          CollisionSystem.checkBulletBossCollisions
            (collision st) (bullets st) (boss st) in
        let '(b1, score1, bossActive1) :=
          applyBossHits cfg (CollisionSystem.collisions out) b (score st)
                        (bossActive st) in
        mk (CollisionSystem.events out) score1 (CollisionSystem.firsts out)
           (enemies st) (formation st) (Some b1) (powerAttack st)
           bossActive1
      else st
  | None => st
  end.

(** Power attack vs boss, inside the power-attack branch. *)
Definition powerAttackVsBoss (cfg : Config) (st : t) : t :=
  match powerAttack st, boss st with
  | Some attack, Some b =>
      if Boss.active b then
        let out :=
          CollisionSystem.checkPowerAttackBossCollisions
            (collision st) (PowerAttack.getProjectiles attack) (boss st) in
        let attack1 :=
          PowerAttack.setProjectiles
            (PowerAttack.writeBack (CollisionSystem.firsts out)
                                   (PowerAttack.projectiles attack))
            attack in
        let '(b1, score1, bossActive1) :=
          applyBossHits cfg (CollisionSystem.collisions out) b (score st)
                        (bossActive st) in
        mk (CollisionSystem.events out) score1 (bullets st) (enemies st)
           (formation st) (Some b1) (Some attack1) bossActive1
      else st
  | _, _ => st
  end.

(** Power attack vs enemies, then vs boss. *)
Definition powerAttackVsEnemies (cfg : Config) (offset : Offset)
    (st : t) : t :=
  match powerAttack st with
  | Some attack =>
      if PowerAttack.active attack then
        let out :=
          CollisionSystem.checkPowerAttackEnemyCollisions
            (collision st) (PowerAttack.getProjectiles attack)
            (enemies st) offset in
        powerAttackVsBoss cfg
          (mk (CollisionSystem.events out)
              (addKills cfg (CollisionSystem.collisions out) (score st))
              (bullets st) (CollisionSystem.seconds out) (formation st)
              (boss st) (powerAttack st) (bossActive st))
      else st
  | None => st
  end.

(** [handleEnemyReachBottom()]. *)
Definition handleEnemyReachBottom (st : t) : t :=
  let '(remaining, score1) := ScoreSystem.loseLife (score st) in
  if (remaining <=? 0)%Z then
    mk (collision st) score1 (bullets st) (enemies st) (formation st)
       (boss st) (powerAttack st) (bossActive st)
  else
    mk (collision st) score1 (bullets st) (enemies st)
       (FormationController.reset (formation st))
       (boss st) (powerAttack st) (bossActive st).

(** Enemies reaching bottom. *)
Definition enemiesReachingBottom (cfg : Config) (offset : Offset)
    (st : t) : t :=
  let '(reached, events1) :=
    CollisionSystem.checkEnemyReachBottom
      (collision st) (enemies st) offset (GAMEPLAY_bottomLine cfg) in
  let st1 :=
    mk events1 (score st) (bullets st) (enemies st) (formation st)
       (boss st) (powerAttack st) (bossActive st) in
  if reached then handleEnemyReachBottom st1 else st1.

(** [this.collision.clear()]. *)
Definition clearEvents (st : t) : t :=
  mk [] (score st) (bullets st) (enemies st) (formation st)
     (boss st) (powerAttack st) (bossActive st).

(** [checkCollisions()]: the event buffer is cleared, the offset is read
    once, and the four blocks the source marks with comments run in their
    order, each one a definition above. *)
Definition checkCollisions (cfg : Config) (st : t) : t :=
  let offset := FormationController.getOffset (formation st) in
  enemiesReachingBottom cfg offset
    (powerAttackVsEnemies cfg offset
       (bulletsVsBoss cfg
          (bulletsVsEnemies cfg offset (clearEvents st)))).

(** [updateBullets(dt)]. *)
Definition updateBullets (cfg : Config) (dt : Q) (st : t) : t :=
  mk (collision st) (score st)
     (List.filter
        (fun b =>
           Bullet.active b
           && negb (Bullet.isOffScreen (CANVAS_height cfg) b))
        (map (Bullet.update dt) (bullets st)))
     (enemies st) (formation st) (boss st) (powerAttack st)
     (bossActive st).

(** [updateEnemies(dt)]. *)
Definition updateEnemies (cfg : Config) (dt : Q) (st : t) : t :=
  mk (collision st) (score st) (bullets st)
     (List.filter FormationController.aliveOrDying
        (map (Enemy.update dt) (enemies st)))
     (FormationController.update cfg dt (enemies st) (formation st))
     (boss st) (powerAttack st) (bossActive st).

(** [updatePowerAttack(dt)]. *)
Definition updatePowerAttack (cfg : Config) (dt : Q) (st : t) : t :=
  match powerAttack st with
  | Some attack =>
      if PowerAttack.active attack then
        let attack1 :=
          PowerAttack.update dt (CANVAS_width cfg) (CANVAS_height cfg)
                             attack in
        mk (collision st) (score st) (bullets st) (enemies st)
           (formation st) (boss st)
           (if PowerAttack.active attack1 then Some attack1 else None)
           (bossActive st)
      else st
  | None => st
  end.
End PlayState.

(** ** Vocabulary of the statements *)

(** *** The formation *)

(** [mn] is the least left edge of the enemies of [l]. *)
Definition isMinLeft (offsetX0 : Q) (l : list Enemy.t) (mn : Q) : Prop :=
  (exists e, In e l /\ mn = leftEdge offsetX0 e) /\
  (forall e, In e l -> mn <= leftEdge offsetX0 e).

(** [mx] is the greatest right edge of the enemies of [l]. *)
Definition isMaxRight (offsetX0 : Q) (l : list Enemy.t) (mx : Q) : Prop :=
  (exists e, In e l /\ mx = rightEdge offsetX0 e) /\
  (forall e, In e l -> rightEdge offsetX0 e <= mx).

(** What one tick leaves of the direction and of the vertical offset. *)
Definition unchanged (f f1 : FormationController.t) : Prop :=
  FormationController.direction f1 = FormationController.direction f /\
  FormationController.offsetY f1 = FormationController.offsetY f.

Definition flippedTo (d : Q) (f f1 : FormationController.t) : Prop :=
  FormationController.direction f1 = d /\
  FormationController.offsetY f1 =
    FormationController.offsetY f + FormationController.stepDownAmount f.

(** *** The score system and the scoreboard *)

(** A power reading within its range: at most the maximum, which is
    positive.  The constructor establishes it and every method keeps it. *)
Definition powerInRange (s : ScoreSystem.t) : Prop :=
  (ScoreSystem.turiaPower s <= ScoreSystem.turiaPowerMax s)%Z /\
  (0 < ScoreSystem.turiaPowerMax s)%Z.

(** Descending by score, and strictly so. *)
Definition scoreGe (a b : ScoreEntry) : Prop :=
  (entry_score b <= entry_score a)%Z.

Definition scoreGt (a b : ScoreEntry) : Prop :=
  (entry_score b < entry_score a)%Z.

(** The entry [saveScore] appends for a score system at time [now]. *)
Definition entryOf (now : Z) (s : ScoreSystem.t) : ScoreEntry :=
  mkEntry (ScoreSystem.playerName s) (ScoreSystem.score s) now.

(** Eleven games of one player, with the scores 10, 20, ..., 110. *)
Definition elevenPlays : list Play :=
  map (fun k : nat => mkPlay "ANA" (10 * Z.of_nat k) (Z.of_nat k))
      (seq 1 11).

(** A full board of ten entries with the scores 1000, 900, ..., 100. *)
Definition fullBoard : list ScoreEntry :=
  map (fun k : nat => mkEntry "BOB" (100 * Z.of_nat (11 - k)) (Z.of_nat k))
      (seq 1 10).

(** *** The collision checks *)

(** An enemy a bullet with bounds [bounds] collides with: alive, not
    dying, and overlapping. *)
Definition hittable (bounds : Rect) (formationOffset : Offset)
    (e : Enemy.t) : Prop :=
  Enemy.alive e = true /\ Enemy.dying e = false /\
  rectIntersect bounds (Enemy.getBounds e formationOffset) = true.

(** The bullet index of a [bullet_enemy] event. *)
Definition bulletOf (ev : CollisionEvent) : option nat :=
  match ev with
  | bullet_enemy i _ => Some i
  | _ => None
  end.

(** The events of a pass that carry bullet [i]. *)
Definition eventsOfBullet (i : nat) (cs : list CollisionEvent)
    : list CollisionEvent :=
  List.filter
    (fun ev => match bulletOf ev with
               | Some k => Nat.eqb k i
               | None => false
               end) cs.

(** Enemy [j] was hit, in this pass, by a bullet in the index range
    [[lo, hi)]. *)
Definition hitBy (cs : list CollisionEvent) (lo hi j : nat) : Prop :=
  exists i : nat, (lo <= i < hi)%nat /\ In (bullet_enemy i j) cs.

(** World-space bottom edge of an enemy, as [checkEnemyReachBottom]
    computes it. *)
Definition bottomY (formationOffset : Offset) (e : Enemy.t) : Q :=
  snd (Enemy.getWorldPosition e formationOffset) + Enemy.height e / 2.

(** An enemy that [checkEnemyReachBottom] reports: its [alive] flag is
    set and its bottom edge is at or below the line. *)
Definition reachedBottom (formationOffset : Offset) (bottomLine : Q)
    (e : Enemy.t) : Prop :=
  Enemy.alive e = true /\ bottomLine <= bottomY formationOffset e.

(** What the collision checks before the bottom-line check leave alone
    for an enemy [e] at index [j] that their inner loops skip: the enemy
    itself, the formation and the lives. *)
Definition keeps (j : nat) (e : Enemy.t) (st st1 : PlayState.t) : Prop :=
  PlayState.formation st1 = PlayState.formation st /\
  ScoreSystem.lives (PlayState.score st1) =
    ScoreSystem.lives (PlayState.score st) /\
  (PlayState.enemies st !! j = Some e ->
   PlayState.enemies st1 !! j = Some e).

(** A bullet whose box overlaps two neighbouring enemies of the top row,
    in a tick without boss and without power attack. *)
Definition twoEnemies : list Enemy.t :=
  [Enemy.new CONFIG 100 80 TYPE3; Enemy.new CONFIG 110 80 TYPE3].

Definition oneBullet : list Bullet.t := [Bullet.new CONFIG 105 80 (-500)].

Definition overlapState : PlayState.t :=
  PlayState.mk [] (ScoreSystem.new CONFIG) oneBullet twoEnemies
               (FormationController.new CONFIG) None None false.

(** A dying enemy just above the bottom line, with the formation moved
    down far enough for it to cross. *)
Definition dyingState : PlayState.t :=
  PlayState.mk []
    (ScoreSystem.new CONFIG) []
    [Enemy.mk 100 200 TYPE1 48 48 true true 150 200]
    (FormationController.mk 0 250 1 50 20 100 700)
    None None false.

(** ** Vocabulary of the further properties *)

(** *** Runs of ticks *)

(** The player through a run of frames of length [dt], one for each
    input of the list. *)
Fixpoint playerFrames (inputs : list InputSystem.t) (dt canvasWidth : Q)
    (p : Player.t) : Result Player.t :=
  match inputs with
  | [] => Returns p
  | input :: rest =>
      bind (Player.update dt input canvasWidth p)
           (playerFrames rest dt canvasWidth)
  end.

(** An enemy through a run of frames, given by their frame times. *)
Fixpoint enemyTicks (dts : list Q) (e : Enemy.t) : Enemy.t :=
  match dts with
  | [] => e
  | dt :: rest => enemyTicks rest (Enemy.update dt e)
  end.
(** The formation through a run of frames, each with its frame time and
    the enemy array of that frame. *)
Fixpoint formationTicks (cfg : Config) (ticks : list (Q * list Enemy.t))
    (f : FormationController.t) : FormationController.t :=
  match ticks with
  | [] => f
  | (dt, enemies) :: rest =>
      formationTicks cfg rest (FormationController.update cfg dt enemies f)
  end.

(** *** Enemies *)

(** Only a living enemy plays the death animation. *)
Definition dyingAlive (e : Enemy.t) : Prop :=
  Enemy.dying e = true -> Enemy.alive e = true.

(** The enemy [e] with its status fields left aside. *)
Definition sameBody (e1 e2 : Enemy.t) : Prop :=
  Enemy.localX e1 = Enemy.localX e2 /\ Enemy.localY e1 = Enemy.localY e2 /\
  Enemy.type e1 = Enemy.type e2 /\ Enemy.width e1 = Enemy.width e2 /\
  Enemy.height e1 = Enemy.height e2 /\
  Enemy.deathDuration e1 = Enemy.deathDuration e2.

(** *** The scoreboard *)

(** A name of ASCII characters only. *)
Definition asciiOnly (name : string) : Prop :=
  Forall (fun c => (Ascii.nat_of_ascii c < 128)%nat)
         (list_ascii_of_string name).

(** The entry carries the name and the score that [getCurrentRank] looks
    for. *)
Definition ranksAs (s : ScoreSystem.t) (e : ScoreEntry) : Prop :=
  entry_name e = ScoreSystem.playerName s /\
  entry_score e = ScoreSystem.score s.

(** *** The boss *)

(** The damage of a list of hits. *)
Definition totalDamage (hits : list CollisionEvent) : Q :=
  fold_right (fun hit acc => damageOf hit + acc) 0 hits.

(** A bullet that [checkBulletBossCollisions] counts as a hit on a boss
    with bounds [bossBounds]: active and overlapping. *)
Definition strikes (bossBounds : Rect) (bullet : Bullet.t) : bool :=
  Bullet.active bullet && rectIntersect (Bullet.getBounds bullet) bossBounds.

(** A boss in the fight: active, not dying, with hit points left. *)
Definition fighting (b : Boss.t) : Prop :=
  Boss.active b = true /\ Boss.dying b = false /\ 0 < Boss.hp b.

(** The bullet of [overlapState] with a boss at the same place. *)
Definition bossOverlapState : PlayState.t :=
  PlayState.mk [] (ScoreSystem.new CONFIG) oneBullet twoEnemies
               (FormationController.new CONFIG)
               (Some (Boss.new CONFIG 105 80 20)) None true.

(** *** The power attack *)

(** A projectile that moves: it has a direction and a positive speed. *)
Definition moving (p : PowerProjectile.t) : Prop :=
  0 < PowerProjectile.speed p /\
  (~ PowerProjectile.dirX p == 0 \/ ~ PowerProjectile.dirY p == 0).

(** A power attack with one projectile left, flying straight up. *)
Definition oneProjectile : PowerAttack.t :=
  PowerAttack.mk 400 500 [PowerProjectile.mk 400 300 0 (-1) 400 8 8 true]
                 true 100.

(** A projectile of bounds [bounds] hits the enemy: the guard and the
    overlap test of the inner loops. *)
Definition hitsEnemy (bounds : Rect) (formationOffset : Offset)
    (e : Enemy.t) : bool :=
  negb (CollisionSystem.skipped e) &&
  rectIntersect bounds (Enemy.getBounds e formationOffset).

(** Some active projectile of the list hits the enemy. *)
Definition struck (formationOffset : Offset)
    (projectiles : list (nat * PowerProjectile.t)) (e : Enemy.t) : bool :=
  existsb (fun ip =>
             PowerProjectile.active (snd ip) &&
             hitsEnemy (PowerProjectile.getBounds (snd ip))
                       formationOffset e)
          projectiles.

(** The [power_enemy] events of a pass that name enemy [j]. *)
Definition eventsOfEnemy (j : nat) (cs : list CollisionEvent)
    : list CollisionEvent :=
  List.filter
    (fun ev => match ev with
               | power_enemy _ k => Nat.eqb k j
               | _ => false
               end) cs.

(** A projectile over the two enemies of [twoEnemies], as the only entry
    of the array that [getProjectiles()] returns. *)
Definition piercing : list (nat * PowerProjectile.t) :=
  [(0%nat, PowerProjectile.mk 105 80 0 (-1) 400 8 8 true)].

(** A projectile that [checkPowerAttackBossCollisions] counts as a hit. *)
Definition strikesBoss (bossBounds : Rect) (p : PowerProjectile.t) : bool :=
  PowerProjectile.active p &&
  rectIntersect (PowerProjectile.getBounds p) bossBounds.

(** What a collision pass may do to an enemy: nothing, or [kill()]. *)
Definition sameOrKilled (e e1 : Enemy.t) : Prop :=
  e1 = e \/ e1 = Enemy.kill e.

(** What the collision checks before the bottom-line check do to a play
    state: formation and lives are kept, and each enemy stays at its
    place, as it was or killed. *)
Definition passes (st st1 : PlayState.t) : Prop :=
  PlayState.formation st1 = PlayState.formation st /\
  ScoreSystem.lives (PlayState.score st1)
  = ScoreSystem.lives (PlayState.score st) /\
  Forall2 sameOrKilled (PlayState.enemies st) (PlayState.enemies st1).

(** A power attack whose only projectile has been spent. *)
Definition spentAttack : PowerAttack.t :=
  PowerAttack.mk 400 500 [PowerProjectile.mk 400 300 0 (-1) 400 8 8 false]
                 true 0.
(** * Proofs *)

(** ** Comparisons *)

Lemma ltb_lt a b : ltb a b = true <-> a < b.
Proof.
  unfold ltb. rewrite negb_true_iff, <- not_true_iff_false, Qle_bool_iff.
  split; [apply Qnot_le_lt | apply Qlt_not_le].
Qed.

Lemma gtb_gt a b : gtb a b = true <-> b < a.
Proof. apply ltb_lt. Qed.

Lemma leb_le a b : leb a b = true <-> a <= b.
Proof. apply Qle_bool_iff. Qed.

Lemma geb_ge a b : geb a b = true <-> b <= a.
Proof. apply Qle_bool_iff. Qed.

Lemma ltb_nlt a b : ltb a b = false <-> ~ a < b.
Proof. rewrite <- ltb_lt. destruct (ltb a b); intuition congruence. Qed.

Lemma geb_nge a b : geb a b = false <-> ~ b <= a.
Proof. rewrite <- geb_ge. destruct (geb a b); intuition congruence. Qed.

Lemma gtb_ngt a b : gtb a b = false <-> ~ b < a.
Proof. apply ltb_nlt. Qed.

Lemma leb_nle a b : leb a b = false <-> ~ a <= b.
Proof. rewrite <- leb_le. destruct (leb a b); intuition congruence. Qed.

(** Turns the boolean comparisons among the hypotheses into the
    propositions they decide. *)
Ltac cmp_prop :=
  repeat match goal with
  | H : geb _ _ = true |- _ => apply geb_ge in H
  | H : geb _ _ = false |- _ => apply geb_nge in H
  | H : gtb _ _ = true |- _ => apply gtb_gt in H
  | H : gtb _ _ = false |- _ => apply gtb_ngt in H
  | H : ltb _ _ = true |- _ => apply ltb_lt in H
  | H : ltb _ _ = false |- _ => apply ltb_nlt in H
  | H : leb _ _ = true |- _ => apply leb_le in H
  | H : leb _ _ = false |- _ => apply leb_nle in H
  end.

(** ** The overlap test *)

Lemma rectIntersect_iff a b :
  rectIntersect a b = true <->
  rx a < rx b + rwidth b /\ rx b < rx a + rwidth a /\
  ry a < ry b + rheight b /\ ry b < ry a + rheight a.
Proof.
  unfold rectIntersect.
  rewrite !andb_true_iff, !ltb_lt, !gtb_gt. tauto.
Qed.

Lemma rectIntersect_sym a b : rectIntersect a b = rectIntersect b a.
Proof.
  apply eq_true_iff_eq. rewrite !rectIntersect_iff. tauto.
Qed.

(** C2, refuted as stated: a box of width 0 that lies inside another box,
    on its left side, does not intersect it. *)
Lemma rectIntersect_contained_flat :
  containedIn (mkRect 0 5 0 5) (mkRect 0 0 20 20) /\
  rectIntersect (mkRect 0 0 20 20) (mkRect 0 5 0 5) = false.
Proof.
  split; [| reflexivity].
  unfold containedIn. cbn. repeat split; discriminate.
Qed.

(** C2, amended.  [rectIntersect(A, B)] is true exactly when the four
    strict inequalities of the AABB rule hold; hence it is symmetric, it
    is false for boxes that only touch along an edge, and it is true for
    a box that lies inside the other and has an extent: its right side
    [x + width] right of [x] and its bottom side [y + height] below
    [y]. *)
Theorem rectIntersect_spec :
  (forall a b : Rect,
      rectIntersect a b = true <->
      rx a < rx b + rwidth b /\ rx a + rwidth a > rx b /\
      ry a < ry b + rheight b /\ ry a + rheight a > ry b) /\
  (forall a b : Rect, rectIntersect a b = rectIntersect b a) /\
  (forall a b : Rect, edgeTouching a b -> rectIntersect a b = false) /\
  (forall a b : Rect,
      containedIn b a -> extended b -> rectIntersect a b = true) /\
  rectIntersect (mkRect 0 0 10 10) (mkRect 10 0 10 10) = false /\
  rectIntersect (mkRect 0 0 20 20) (mkRect 5 5 5 5) = true.
Proof.
  split; [| split; [| split; [| split; [| split]]]].
  - intros a b. apply rectIntersect_iff.
  - apply rectIntersect_sym.
  - intros a b Ht. apply not_true_iff_false. rewrite rectIntersect_iff.
    unfold edgeTouching in Ht. intros (H1 & H2 & H3 & H4).
    destruct Ht as [E | [E | [E | E]]]; lra.
  - intros a b (H1 & H2 & H3 & H4) (Hx & Hy).
    apply rectIntersect_iff. repeat split.
    + exact (Qle_lt_trans _ _ _ H1 Hx).
    + exact (Qlt_le_trans _ _ _ Hx H2).
    + exact (Qle_lt_trans _ _ _ H3 Hy).
    + exact (Qlt_le_trans _ _ _ Hy H4).
  - reflexivity.
  - reflexivity.
Qed.

Lemma rectIntersect_spec_witness :
  edgeTouching (mkRect 0 0 10 10) (mkRect 10 0 10 10) /\
  containedIn (mkRect 5 5 5 5) (mkRect 0 0 20 20) /\
  extended (mkRect 5 5 5 5) /\
  rectIntersect (mkRect 0 0 10 10) (mkRect 10 0 10 10) = false /\
  rectIntersect (mkRect 0 0 20 20) (mkRect 5 5 5 5) = true.
Proof.
  assert (Ht : edgeTouching (mkRect 0 0 10 10) (mkRect 10 0 10 10)).
  { left. reflexivity. }
  assert (Hc : containedIn (mkRect 5 5 5 5) (mkRect 0 0 20 20)).
  { unfold containedIn. simpl. repeat split; lra. }
  assert (He : extended (mkRect 5 5 5 5)).
  { unfold extended. simpl. split; lra. }
  split; [exact Ht |]. split; [exact Hc |]. split; [exact He |].
  split.
  - exact (proj1 (proj2 (proj2 rectIntersect_spec)) _ _ Ht).
  - exact (proj1 (proj2 (proj2 (proj2 rectIntersect_spec))) _ _ Hc He).
Defined.


(** ** The spawn policy *)

(** C8. [shouldSpawnBoss(waveNumber)] is true exactly for the positive
    wave numbers that the boss interval divides; the interval of the
    reference configuration is 3, and wave 0 spawns no boss. *)
Theorem shouldSpawnBoss_spec :
  (forall (cfg : Config) (waveNumber : Z),
      SpawnSystem.shouldSpawnBoss cfg waveNumber = true <->
      (0 < waveNumber)%Z /\ (GAMEPLAY_bossSpawnWave cfg | waveNumber)%Z) /\
  GAMEPLAY_bossSpawnWave CONFIG = 3%Z /\
  (forall cfg : Config, SpawnSystem.shouldSpawnBoss cfg 0 = false).
Proof.
  split; [| split; reflexivity].
  intros cfg w. unfold SpawnSystem.shouldSpawnBoss.
  rewrite andb_true_iff, Z.ltb_lt, Z.eqb_eq.
  destruct (Z.eq_dec (GAMEPLAY_bossSpawnWave cfg) 0%Z) as [H0 | Hn0].
  - rewrite H0, Z.rem_0_r_ext by reflexivity.
    split.
    + intros [Hpos Hw]. lia.
    + intros [Hpos Hdiv]. apply Z.divide_0_l in Hdiv. lia.
  - rewrite Z.rem_divide by exact Hn0. tauto.
Qed.

Lemma shouldSpawnBoss_spec_witness :
  SpawnSystem.shouldSpawnBoss CONFIG 6 = true /\
  SpawnSystem.shouldSpawnBoss CONFIG 0 = false.
Proof.
  split.
  - apply (proj1 shouldSpawnBoss_spec CONFIG 6%Z). split.
    + reflexivity.
    + exists 2%Z. reflexivity.
  - exact (proj2 (proj2 shouldSpawnBoss_spec) CONFIG).
Defined.

(** ** The player's gun *)

(** C6. With the cooldown at 0, [shoot()] returns an active bullet at
    [(x, y - height/2)] whose vertical velocity is minus the configured
    bullet speed, hence upwards, and sets the cooldown to its maximum;
    with a positive cooldown it returns no bullet and leaves the player
    as it was. *)
Theorem shoot_spec (cfg : Config) (p : Player.t) :
  0 < GAMEPLAY_bulletSpeed cfg ->
  (Player.fireCooldown p == 0 ->
   exists b : Bullet.t,
     fst (Player.shoot cfg p) = Some b /\
     Bullet.x b = Player.x p /\
     Bullet.y b = Player.y p - Player.height p / 2 /\
     Bullet.velocityY b = - GAMEPLAY_bulletSpeed cfg /\
     Bullet.velocityY b < 0 /\
     Bullet.active b = true /\
     Player.fireCooldown (snd (Player.shoot cfg p))
       = Player.fireCooldownMax p /\
     Player.x (snd (Player.shoot cfg p)) = Player.x p /\
     Player.y (snd (Player.shoot cfg p)) = Player.y p) /\
  (0 < Player.fireCooldown p -> Player.shoot cfg p = (None, p)).
Proof.
  intros Hspeed. unfold Player.shoot. split.
  - intros H0.
    assert (Hle : leb (Player.fireCooldown p) 0 = true).
    { apply leb_le. rewrite H0. apply Qle_refl. }
    rewrite Hle. simpl. eexists.
    repeat split; try reflexivity. simpl. lra.
  - intros Hpos.
    assert (Hle : leb (Player.fireCooldown p) 0 = false).
    { apply leb_nle. lra. }
    rewrite Hle. reflexivity.
Qed.

Lemma shoot_spec_witness :
  (exists b : Bullet.t,
      fst (Player.shoot CONFIG (Player.new CONFIG 400 500)) = Some b /\
      Bullet.velocityY b < 0) /\
  Player.shoot CONFIG (Player.mk 400 500 72 48 300 200 200) =
    (None, Player.mk 400 500 72 48 300 200 200).
Proof.
  assert (Hspeed : 0 < GAMEPLAY_bulletSpeed CONFIG) by reflexivity.
  split.
  - destruct (proj1 (shoot_spec CONFIG (Player.new CONFIG 400 500) Hspeed))
      as (b & Hb & _ & _ & _ & Hv & _).
    + reflexivity.
    + exists b. split; assumption.
  - apply (proj2 (shoot_spec CONFIG (Player.mk 400 500 72 48 300 200 200)
                             Hspeed)).
    reflexivity.
Defined.

(** ** The score system *)

Lemma reachableFrom_power (cfg : Config) (s0 s : ScoreSystem.t) :
  ScoreSystem.reachableFrom cfg s0 s ->
  powerInRange s0 -> powerInRange s.
Proof.
  unfold powerInRange. intros Hr H0.
  induction Hr as [| name s _ IH | points power s _ IH | s _ IH
                   | amount s _ IH | s _ IH | s _ IH | s _ IH];
    simpl; try assumption; try lia.
  unfold ScoreSystem.consumePower.
  destruct (ScoreSystem.isPowerReady s); simpl; lia.
Qed.

Lemma reachable_power (cfg : Config) (s : ScoreSystem.t) :
  (0 < GAMEPLAY_turiaPowerMax cfg)%Z ->
  ScoreSystem.reachable cfg s -> powerInRange s.
Proof.
  intros Hmax Hr. apply (reachableFrom_power cfg _ s Hr).
  unfold powerInRange. simpl. lia.
Qed.

Lemma reachableFrom_lives (cfg : Config) (s0 s : ScoreSystem.t) :
  (0 <= GAMEPLAY_livesMax cfg)%Z ->
  ScoreSystem.reachableFrom cfg s0 s ->
  (0 <= ScoreSystem.lives s0 <= GAMEPLAY_livesMax cfg)%Z ->
  (0 <= ScoreSystem.lives s <= GAMEPLAY_livesMax cfg)%Z.
Proof.
  intros Hmax Hr H0.
  induction Hr as [| name s _ IH | points power s _ IH | s _ IH
                   | amount s _ IH | s _ IH | s _ IH | s _ IH];
    simpl; try assumption; try lia.
  unfold ScoreSystem.consumePower.
  destruct (ScoreSystem.isPowerReady s); simpl; assumption.
Qed.

(** C4.  On every state of a score system of the program, one that was
    constructed and then touched by its methods only, under a
    configuration with a positive [turiaPowerMax] (100 in the reference
    configuration): [consumePower()] returns true exactly when the power
    equals the maximum, and then sets the power to 0 and touches nothing
    else; otherwise it returns false and changes nothing; and a second
    call right after a success returns false and leaves the power
    at 0. *)
Theorem consumePower_spec (cfg : Config) (s : ScoreSystem.t) :
  (0 < GAMEPLAY_turiaPowerMax cfg)%Z ->
  ScoreSystem.reachable cfg s ->
  (fst (ScoreSystem.consumePower s) = true <->
   ScoreSystem.turiaPower s = ScoreSystem.turiaPowerMax s) /\
  (ScoreSystem.turiaPower s = ScoreSystem.turiaPowerMax s ->
   ScoreSystem.consumePower s =
     (true,
      ScoreSystem.mk (ScoreSystem.score s) (ScoreSystem.lives s) 0
                     (ScoreSystem.turiaPowerMax s)
                     (ScoreSystem.playerName s))) /\
  (ScoreSystem.turiaPower s <> ScoreSystem.turiaPowerMax s ->
   ScoreSystem.consumePower s = (false, s)) /\
  (fst (ScoreSystem.consumePower s) = true ->
   ScoreSystem.consumePower (snd (ScoreSystem.consumePower s)) =
     (false, snd (ScoreSystem.consumePower s)) /\
   ScoreSystem.turiaPower (snd (ScoreSystem.consumePower s)) = 0%Z).
Proof.
  intros Hmax Hr.
  destruct (reachable_power cfg s Hmax Hr) as [Hle Hpos].
  unfold ScoreSystem.consumePower, ScoreSystem.isPowerReady.
  destruct (Z.leb_spec (ScoreSystem.turiaPowerMax s)
                       (ScoreSystem.turiaPower s)) as [Hge | Hlt]; simpl.
  - split; [split; [lia | reflexivity] |].
    split; [reflexivity |]. split; [lia |].
    intros _.
    destruct (Z.leb_spec (ScoreSystem.turiaPowerMax s) 0); [lia |].
    split; reflexivity.
  - split; [split; [discriminate | lia] |].
    split; [lia |]. split; [reflexivity | discriminate].
Qed.

Lemma consumePower_spec_witness :
  ScoreSystem.consumePower
    (ScoreSystem.addPower 100 (ScoreSystem.new CONFIG)) =
    (true, ScoreSystem.new CONFIG) /\
  ScoreSystem.consumePower (ScoreSystem.new CONFIG)
    = (false, ScoreSystem.new CONFIG).
Proof.
  assert (Hr : ScoreSystem.reachable CONFIG
                 (ScoreSystem.addPower 100 (ScoreSystem.new CONFIG))).
  { apply ScoreSystem.reach_addPower, ScoreSystem.reach_start. }
  destruct (consumePower_spec CONFIG
              (ScoreSystem.addPower 100 (ScoreSystem.new CONFIG))
              eq_refl Hr) as (_ & Hfull & _ & Hagain).
  split.
  - apply Hfull. reflexivity.
  - exact (proj1 (Hagain eq_refl)).
Defined.

Lemma loseLives_lives (n : nat) (s : ScoreSystem.t) :
  (0 <= ScoreSystem.lives s)%Z ->
  ScoreSystem.lives (ScoreSystem.loseLives n s) =
  Z.max 0 (ScoreSystem.lives s - Z.of_nat n).
Proof.
  revert s. induction n as [| n IH]; intros s Hs.
  - simpl. lia.
  - cbn [ScoreSystem.loseLives]. rewrite IH; simpl ScoreSystem.lives; lia.
Qed.

(** C7. [loseLife()] sets the lives to [max(0, lives - 1)], returns that
    count and touches nothing else.  From a reset onwards the lives never
    go below 0, however often [loseLife()] is applied, [livesMax + 5]
    applications leave 0 lives, and [isGameOver()] holds exactly when the
    lives are 0. *)
Theorem loseLife_spec (cfg : Config) (s0 s : ScoreSystem.t) :
  (0 <= GAMEPLAY_livesMax cfg)%Z ->
  ScoreSystem.reachableFrom cfg (ScoreSystem.reset cfg s0) s ->
  ScoreSystem.loseLife s =
    (Z.max 0 (ScoreSystem.lives s - 1),
     ScoreSystem.mk (ScoreSystem.score s)
                    (Z.max 0 (ScoreSystem.lives s - 1))
                    (ScoreSystem.turiaPower s)
                    (ScoreSystem.turiaPowerMax s)
                    (ScoreSystem.playerName s)) /\
  (0 <= ScoreSystem.lives s)%Z /\
  (forall n : nat,
      (0 <= ScoreSystem.lives (ScoreSystem.loseLives n s))%Z) /\
  ScoreSystem.lives
    (ScoreSystem.loseLives (Z.to_nat (GAMEPLAY_livesMax cfg + 5)) s)
    = 0%Z /\
  (forall n : nat,
      ScoreSystem.isGameOver (ScoreSystem.loseLives n s) = true <->
      ScoreSystem.lives (ScoreSystem.loseLives n s) = 0%Z).
Proof.
  intros Hmax Hr.
  assert (Hl : (0 <= ScoreSystem.lives s <= GAMEPLAY_livesMax cfg)%Z).
  { apply (reachableFrom_lives cfg _ _ Hmax Hr). simpl. lia. }
  split; [reflexivity |]. split; [lia |].
  split; [intros n; rewrite loseLives_lives; lia |].
  split; [rewrite loseLives_lives; lia |].
  intros n. unfold ScoreSystem.isGameOver.
  rewrite Z.leb_le, loseLives_lives; lia.
Qed.

Lemma loseLife_spec_witness :
  ScoreSystem.loseLife (ScoreSystem.new CONFIG) =
    (2%Z, ScoreSystem.mk 0 2 0 100 EmptyString) /\
  ScoreSystem.lives (ScoreSystem.loseLives 8 (ScoreSystem.new CONFIG))
    = 0%Z.
Proof.
  assert (Hmax : (0 <= GAMEPLAY_livesMax CONFIG)%Z) by discriminate.
  assert (Hr : ScoreSystem.reachableFrom CONFIG
                 (ScoreSystem.reset CONFIG (ScoreSystem.new CONFIG))
                 (ScoreSystem.new CONFIG)).
  { apply ScoreSystem.reach_start. }
  destruct (loseLife_spec CONFIG _ _ Hmax Hr) as (H1 & _ & _ & H3 & _).
  split; [exact H1 | exact H3].
Defined.

(** ** The formation controller *)

Lemma Qmin_cases (a b : Q) : Qmin a b = a \/ Qmin a b = b.
Proof.
  unfold Qmin, GenericMinMax.gmin. destruct (a ?= b); auto.
Qed.

Lemma Qmax_cases (a b : Q) : Qmax a b = a \/ Qmax a b = b.
Proof.
  unfold Qmax, GenericMinMax.gmax. destruct (a ?= b); auto.
Qed.

Lemma enemyBounds_finite (offsetX0 : Q) (l : list Enemy.t) (a b : Q) :
  exists mn mx : Q,
    FormationController.enemyBounds offsetX0 l (Finite a) (Finite b)
      = (Finite mn, Finite mx) /\
    (mn = a \/ exists e, In e l /\ mn = leftEdge offsetX0 e) /\
    mn <= a /\ (forall e, In e l -> mn <= leftEdge offsetX0 e) /\
    (mx = b \/ exists e, In e l /\ mx = rightEdge offsetX0 e) /\
    b <= mx /\ (forall e, In e l -> rightEdge offsetX0 e <= mx).
Proof.
  revert a b. induction l as [| e l IH]; intros a b.
  - exists a, b. simpl. repeat split; auto using Qle_refl; intros e [].
  - cbn [FormationController.enemyBounds Math_min Math_max].
    fold (leftEdge offsetX0 e). fold (rightEdge offsetX0 e).
    destruct (IH (Qmin a (leftEdge offsetX0 e))
                 (Qmax b (rightEdge offsetX0 e)))
      as (mn & mx & Heq & Hmn1 & Hmn2 & Hmn3 & Hmx1 & Hmx2 & Hmx3).
    exists mn, mx. split; [exact Heq |].
    assert (Hla := Q.le_min_l a (leftEdge offsetX0 e)).
    assert (Hlb := Q.le_min_r a (leftEdge offsetX0 e)).
    assert (Hra := Q.le_max_l b (rightEdge offsetX0 e)).
    assert (Hrb := Q.le_max_r b (rightEdge offsetX0 e)).
    repeat split.
    + destruct Hmn1 as [-> | (e' & Hin & ->)].
      * destruct (Qmin_cases a (leftEdge offsetX0 e)) as [-> | ->];
          [left; reflexivity | right; exists e; simpl; auto].
      * right. exists e'. simpl. auto.
    + lra.
    + intros e' [<- | Hin]; [lra | auto].
    + destruct Hmx1 as [-> | (e' & Hin & ->)].
      * destruct (Qmax_cases b (rightEdge offsetX0 e)) as [-> | ->];
          [left; reflexivity | right; exists e; simpl; auto].
      * right. exists e'. simpl. auto.
    + lra.
    + intros e' [<- | Hin]; [lra | auto].
Qed.

Lemma enemyBounds_nonempty (offsetX0 : Q) (l : list Enemy.t) :
  l <> [] ->
  exists mn mx : Q,
    FormationController.enemyBounds offsetX0 l Infinity NegInfinity
      = (Finite mn, Finite mx) /\
    isMinLeft offsetX0 l mn /\ isMaxRight offsetX0 l mx.
Proof.
  destruct l as [| e l]; [congruence | intros _].
  cbn [FormationController.enemyBounds Math_min Math_max].
  fold (leftEdge offsetX0 e). fold (rightEdge offsetX0 e).
  destruct (enemyBounds_finite offsetX0 l (leftEdge offsetX0 e)
                               (rightEdge offsetX0 e))
    as (mn & mx & Heq & Hmn1 & Hmn2 & Hmn3 & Hmx1 & Hmx2 & Hmx3).
  exists mn, mx. split; [exact Heq |]. split; split.
  - destruct Hmn1 as [-> | (e' & Hin & ->)];
      [exists e | exists e']; simpl; auto.
  - intros e' [<- | Hin]; auto.
  - destruct Hmx1 as [-> | (e' & Hin & ->)];
      [exists e | exists e']; simpl; auto.
  - intros e' [<- | Hin]; auto.
Qed.

Lemma filter_aliveOrDying_idem (enemies : list Enemy.t) :
  List.filter FormationController.aliveOrDying
    (List.filter FormationController.aliveOrDying enemies)
  = List.filter FormationController.aliveOrDying enemies.
Proof.
  induction enemies as [| e l IH]; simpl; [reflexivity |].
  destruct (FormationController.aliveOrDying e) eqn:He; simpl.
  - rewrite He, IH. reflexivity.
  - exact IH.
Qed.

Lemma update_filter (cfg : Config) (dt : Q) (enemies : list Enemy.t)
    (f : FormationController.t) :
  FormationController.update cfg dt
    (List.filter FormationController.aliveOrDying enemies) f
  = FormationController.update cfg dt enemies f.
Proof.
  unfold FormationController.update.
  rewrite filter_aliveOrDying_idem. reflexivity.
Qed.

(** C3. One tick of the formation: the horizontal offset advances by
    [speed * direction * dt] and is never clamped; the decision to turn
    looks only at the enemies that are alive or dying; with none of them
    nothing else changes; otherwise, with [mn] their least left edge and
    [mx] their greatest right edge, a formation moving right turns left
    and steps down once when [mx >= maxX], a formation moving left turns
    right and steps down once when [mn <= minX], and in every case the
    tick turns at most once.  [maxX] is the bound the controller holds
    once [update] has refreshed it from the canvas width. *)
Theorem update_spec (cfg : Config) (dt : Q) (enemies : list Enemy.t)
    (f : FormationController.t) :
  let f1 := FormationController.update cfg dt enemies f in
  let live := List.filter FormationController.aliveOrDying enemies in
  FormationController.offsetX f1 =
    FormationController.offsetX f
    + FormationController.speed f * FormationController.direction f * dt /\
  FormationController.maxX f1 =
    (CANVAS_width cfg) - (GAMEPLAY_enemyStartX cfg) /\
  FormationController.minX f1 = FormationController.minX f /\
  FormationController.speed f1 = FormationController.speed f /\
  FormationController.stepDownAmount f1 =
    FormationController.stepDownAmount f /\
  (forall enemies2 : list Enemy.t,
      List.filter FormationController.aliveOrDying enemies2 = live ->
      FormationController.update cfg dt enemies2 f = f1) /\
  (live = [] -> unchanged f f1) /\
  (live <> [] ->
   exists mn mx : Q,
     isMinLeft (FormationController.offsetX f1) live mn /\
     isMaxRight (FormationController.offsetX f1) live mx /\
     (FormationController.direction f == 1 ->
      FormationController.maxX f1 <= mx -> flippedTo (-1) f f1) /\
     (FormationController.direction f == 1 ->
      mx < FormationController.maxX f1 -> unchanged f f1) /\
     (FormationController.direction f == -1 ->
      mn <= FormationController.minX f -> flippedTo 1 f f1) /\
     (FormationController.direction f == -1 ->
      FormationController.minX f < mn -> unchanged f f1)) /\
  (unchanged f f1 \/ flippedTo (-1) f f1 \/ flippedTo 1 f f1).
Proof.
  intros f1 live.
  assert (Hsame : forall enemies2 : list Enemy.t,
             List.filter FormationController.aliveOrDying enemies2 = live ->
             FormationController.update cfg dt enemies2 f = f1).
  { intros enemies2 H2. subst f1 live.
    rewrite <- (update_filter cfg dt enemies2), H2.
    apply update_filter. }
  assert (Hf1 : f1 = FormationController.update cfg dt enemies f)
    by reflexivity.
  clearbody f1. unfold FormationController.update in Hf1. fold live in Hf1.
  destruct live as [| e0 l0] eqn:Hlive.
  { simpl in Hf1. subst f1. unfold unchanged. simpl.
    split; [reflexivity |]. split; [reflexivity |].
    split; [reflexivity |]. split; [reflexivity |].
    split; [reflexivity |]. split; [exact Hsame |].
    split; [auto |]. split; [intros Hn; congruence |].
    left. auto. }
  rewrite <- Hlive in Hf1 |- *.
  replace (Nat.eqb (length live) 0) with false in Hf1
    by (rewrite Hlive; reflexivity).
  destruct (enemyBounds_nonempty
              (FormationController.offsetX f
               + FormationController.speed f
                 * FormationController.direction f * dt) live)
    as (mn & mx & Heq & Hmn & Hmx).
  { rewrite Hlive. discriminate. }
  rewrite Heq in Hf1.
  cbn [ext_geb ext_leb FormationController.direction
       FormationController.minX FormationController.offsetY
       FormationController.stepDownAmount FormationController.speed]
    in Hf1.
  destruct (geb mx ((CANVAS_width cfg) - (GAMEPLAY_enemyStartX cfg)))
    eqn:Hge;
  destruct (gtb (FormationController.direction f) 0) eqn:Hgt;
  destruct (leb mn (FormationController.minX f)) eqn:Hle;
  destruct (ltb (FormationController.direction f) 0) eqn:Hlt;
  cbn [andb] in Hf1; subst f1; cmp_prop;
  unfold unchanged, flippedTo;
  cbn [FormationController.offsetX FormationController.offsetY
       FormationController.direction FormationController.speed
       FormationController.stepDownAmount FormationController.minX
       FormationController.maxX];
  (split; [reflexivity |]); (split; [reflexivity |]);
  (split; [reflexivity |]); (split; [reflexivity |]);
  (split; [reflexivity |]);
  (split; [intros ? H2; apply Hsame; rewrite <- Hlive; exact H2 |]);
  (split; [intros Hn; rewrite Hlive in Hn; discriminate |]);
  (split;
   [ intros _; exists mn, mx;
     split; [exact Hmn |]; split; [exact Hmx |];
     repeat split; try reflexivity; intros; exfalso; lra
   | auto ]).
Qed.

Lemma update_spec_witness :
  flippedTo (-1) (FormationController.new CONFIG)
    (FormationController.update CONFIG (1 # 10) [Enemy.new CONFIG 671 80 TYPE1]
                                (FormationController.new CONFIG)) /\
  FormationController.update CONFIG (1 # 10)
    [Enemy.new CONFIG 671 80 TYPE1;
     Enemy.mk 900 80 TYPE1 48 48 false false 0 200]
    (FormationController.new CONFIG)
  = FormationController.update CONFIG (1 # 10) [Enemy.new CONFIG 671 80 TYPE1]
                               (FormationController.new CONFIG).
Proof.
  pose proof (update_spec CONFIG (1 # 10) [Enemy.new CONFIG 671 80 TYPE1]
                          (FormationController.new CONFIG)) as H.
  cbv zeta in H.
  destruct H as (_ & _ & _ & _ & _ & Hsame & _ & Hne & _).
  split.
  - destruct Hne as (mn & mx & Hmn & Hmx & Hflip & _).
    { discriminate. }
    apply Hflip.
    + reflexivity.
    + destruct Hmx as [_ Hub].
      eapply Qle_trans; [| apply Hub; left; reflexivity].
      vm_compute. discriminate.
  - apply Hsame. reflexivity.
Defined.

(** ** The scoreboard *)

Section SortFacts.
Context {A : Type} (compare : A -> A -> Z).

Lemma sort_insert_perm (a : A) (l : list A) :
  Permutation (sort_insert compare a l) (a :: l).
Proof.
  induction l as [| b l IH]; simpl; [reflexivity |].
  destruct (0 <? compare a b)%Z.
  - rewrite IH. apply perm_swap.
  - reflexivity.
Qed.

Lemma Array_sort_perm (l : list A) : Permutation (Array_sort compare l) l.
Proof.
  induction l as [| a l IH]; simpl; [reflexivity |].
  rewrite sort_insert_perm, IH. reflexivity.
Qed.

Lemma Array_sort_length (l : list A) :
  length (Array_sort compare l) = length l.
Proof. apply Permutation_length, Array_sort_perm. Qed.
End SortFacts.

Lemma sort_insert_sorted (a : ScoreEntry) (l : list ScoreEntry) :
  StronglySorted scoreGe l ->
  StronglySorted scoreGe (sort_insert ScoreSystem.byScoreDesc a l).
Proof.
  induction 1 as [| b l Hs IH Hb]; simpl.
  - repeat constructor.
  - unfold ScoreSystem.byScoreDesc at 1.
    destruct (Z.ltb_spec 0 (entry_score b - entry_score a)) as [Hlt | Hge].
    + constructor; [exact IH |].
      rewrite (sort_insert_perm ScoreSystem.byScoreDesc a l).
      constructor; [unfold scoreGe; lia | exact Hb].
    + constructor; [constructor; assumption |].
      constructor; [unfold scoreGe; lia |].
      eapply Forall_impl; [exact Hb |].
      unfold scoreGe. intros c Hc. lia.
Qed.

Lemma Array_sort_sorted (l : list ScoreEntry) :
  StronglySorted scoreGe (Array_sort ScoreSystem.byScoreDesc l).
Proof.
  induction l as [| a l IH]; simpl; [constructor |].
  apply sort_insert_sorted, IH.
Qed.

(** Ties keep their order: among the entries of any one score, the sort
    changes nothing. *)
Lemma sort_insert_stable (v : Z) (a : ScoreEntry) (l : list ScoreEntry) :
  StronglySorted scoreGe l ->
  List.filter (fun e => (entry_score e =? v)%Z)
              (sort_insert ScoreSystem.byScoreDesc a l)
  = List.filter (fun e => (entry_score e =? v)%Z) (a :: l).
Proof.
  induction 1 as [| b l Hs IH Hb]; [reflexivity |].
  cbn [sort_insert]. unfold ScoreSystem.byScoreDesc at 1.
  destruct (Z.ltb_spec 0 (entry_score b - entry_score a)) as [Hlt | Hge];
    [| reflexivity].
  cbn [List.filter] in *.
  destruct (Z.eqb_spec (entry_score b) v) as [Hbv | Hbv];
  destruct (Z.eqb_spec (entry_score a) v) as [Hav | Hav];
    try lia; rewrite IH; reflexivity.
Qed.

Lemma Array_sort_stable (v : Z) (l : list ScoreEntry) :
  List.filter (fun e => (entry_score e =? v)%Z)
              (Array_sort ScoreSystem.byScoreDesc l)
  = List.filter (fun e => (entry_score e =? v)%Z) l.
Proof.
  induction l as [| a l IH]; [reflexivity |].
  cbn [Array_sort]. rewrite sort_insert_stable by apply Array_sort_sorted.
  cbn [List.filter]. rewrite IH. reflexivity.
Qed.

Lemma Array_sort_of_sorted (l : list ScoreEntry) :
  StronglySorted scoreGe l -> Array_sort ScoreSystem.byScoreDesc l = l.
Proof.
  induction 1 as [| a l Hs IH Ha]; [reflexivity |].
  cbn [Array_sort]. rewrite IH.
  destruct Ha as [| b l Hb _]; [reflexivity |].
  cbn [sort_insert]. unfold ScoreSystem.byScoreDesc, scoreGe in *.
  destruct (Z.ltb_spec 0 (entry_score b - entry_score a));
    [lia | reflexivity].
Qed.

Lemma sort_insert_above (a e : ScoreEntry) (l : list ScoreEntry) :
  scoreGt a e ->
  sort_insert ScoreSystem.byScoreDesc a (l ++ [e])
  = sort_insert ScoreSystem.byScoreDesc a l ++ [e].
Proof.
  intros Hae. induction l as [| b l IH]; simpl.
  - unfold ScoreSystem.byScoreDesc, scoreGt in *.
    destruct (Z.ltb_spec 0 (entry_score e - entry_score a));
      [lia | reflexivity].
  - destruct (0 <? ScoreSystem.byScoreDesc a b)%Z.
    + rewrite IH. reflexivity.
    + reflexivity.
Qed.

Lemma Array_sort_above (e : ScoreEntry) (l : list ScoreEntry) :
  Forall (fun a => scoreGt a e) l ->
  Array_sort ScoreSystem.byScoreDesc (l ++ [e])
  = Array_sort ScoreSystem.byScoreDesc l ++ [e].
Proof.
  induction 1 as [| a l Ha _ IH]; [reflexivity |].
  simpl. rewrite IH. apply sort_insert_above, Ha.
Qed.

Lemma StronglySorted_firstn {A : Type} (R : A -> A -> Prop) (n : nat)
    (l : list A) :
  StronglySorted R l -> StronglySorted R (firstn n l).
Proof.
  intros Hs. revert n. induction Hs as [| a l Hs IH Ha]; intros [| n];
    simpl; try constructor.
  - apply IH.
  - revert Ha. clear. revert n.
    induction l as [| b l IH]; intros [| n] Ha; simpl; constructor;
      inversion Ha; subst; auto.
Qed.

Lemma nameIsEmpty_true (name : string) :
  ScoreSystem.nameIsEmpty name = true <-> name = EmptyString.
Proof. destruct name; simpl; split; congruence. Qed.

Lemma saveScore_rejected (now : Z) (setItem : SetItem) (s : ScoreSystem.t)
    (store : Storage) :
  ScoreSystem.playerName s = EmptyString \/ (ScoreSystem.score s <= 0)%Z ->
  ScoreSystem.saveScore now setItem s store = (false, store).
Proof.
  intros H. unfold ScoreSystem.saveScore.
  replace (ScoreSystem.nameIsEmpty (ScoreSystem.playerName s)
           || (ScoreSystem.score s <=? 0)%Z) with true; [reflexivity |].
  symmetry. apply orb_true_iff.
  rewrite nameIsEmpty_true, Z.leb_le. exact H.
Qed.

Lemma guard_passes (s : ScoreSystem.t) :
  ScoreSystem.playerName s <> EmptyString -> (0 < ScoreSystem.score s)%Z ->
  ScoreSystem.nameIsEmpty (ScoreSystem.playerName s)
  || (ScoreSystem.score s <=? 0)%Z = false.
Proof.
  intros Hn Hs. apply orb_false_iff. split.
  - apply not_true_iff_false. rewrite nameIsEmpty_true. exact Hn.
  - apply Z.leb_gt. exact Hs.
Qed.

Lemma saveScore_accepted (now : Z) (s : ScoreSystem.t) (store : Storage) :
  ScoreSystem.playerName s <> EmptyString -> (0 < ScoreSystem.score s)%Z ->
  ScoreSystem.saveScore now stores s store =
    (true,
     Some (firstn 10 (Array_sort ScoreSystem.byScoreDesc
                        (ScoreSystem.getScoreboard store
                         ++ [entryOf now s])))).
Proof.
  intros Hn Hs. unfold ScoreSystem.saveScore.
  rewrite guard_passes by assumption. reflexivity.
Qed.

Lemma saveScore_thrown (now : Z) (s : ScoreSystem.t) (store : Storage) :
  ScoreSystem.playerName s <> EmptyString -> (0 < ScoreSystem.score s)%Z ->
  ScoreSystem.saveScore now throws s store = (false, store).
Proof.
  intros Hn Hs. unfold ScoreSystem.saveScore.
  rewrite guard_passes by assumption. reflexivity.
Qed.

Lemma saveScore_play (p : Play) (store : Storage) :
  savable p ->
  snd (ScoreSystem.saveScore (play_now p) stores (scoreSystemOf p)
                             store) =
    Some (firstn 10 (Array_sort ScoreSystem.byScoreDesc
                       (ScoreSystem.getScoreboard store
                        ++ [mkEntry (play_name p) (play_score p)
                                    (play_now p)]))).
Proof.
  intros [Hn Hs]. rewrite saveScore_accepted by assumption. reflexivity.
Qed.

Lemma saveAll_length (plays : list Play) (store : Storage) :
  Forall savable plays -> plays <> [] ->
  length (ScoreSystem.getScoreboard (saveAll plays store)) =
    Nat.min 10 (length (ScoreSystem.getScoreboard store) + length plays).
Proof.
  intros Hall. revert store.
  induction Hall as [| p rest Hp _ IH]; intros store Hne; [congruence |].
  cbn [saveAll]. rewrite (saveScore_play p store Hp).
  destruct rest as [| q rest].
  - cbn [saveAll ScoreSystem.getScoreboard].
    rewrite length_firstn, Array_sort_length, length_app.
    cbn [length]. lia.
  - rewrite IH by discriminate.
    cbn [ScoreSystem.getScoreboard].
    rewrite length_firstn, Array_sort_length, length_app.
    cbn [length]. lia.
Qed.

Lemma saveAll_sorted (plays : list Play) (store : Storage) :
  Forall savable plays -> plays <> [] ->
  StronglySorted scoreGe (ScoreSystem.getScoreboard (saveAll plays store)).
Proof.
  intros Hall. revert store.
  induction Hall as [| p rest Hp _ IH]; intros store Hne; [congruence |].
  cbn [saveAll]. rewrite (saveScore_play p store Hp).
  destruct rest as [| q rest].
  - cbn [saveAll ScoreSystem.getScoreboard].
    apply StronglySorted_firstn, Array_sort_sorted.
  - apply IH. discriminate.
Qed.

Lemma scores_of_top (old : list ScoreEntry) (e : ScoreEntry) :
  exists all : list Z,
    Permutation all (map entry_score old ++ [entry_score e]) /\
    sublist
      (map entry_score
         (firstn 10 (Array_sort ScoreSystem.byScoreDesc (old ++ [e]))))
      all.
Proof.
  exists (map entry_score (Array_sort ScoreSystem.byScoreDesc (old ++ [e]))).
  split.
  - rewrite (Permutation_map entry_score
               (Array_sort_perm ScoreSystem.byScoreDesc (old ++ [e]))).
    rewrite map_app. reflexivity.
  - rewrite <- firstn_map. apply sublist_take.
Qed.

Lemma saveAll_NoDup (plays : list Play) (store : Storage) :
  Forall savable plays ->
  NoDup (map entry_score (ScoreSystem.getScoreboard store)
         ++ map play_score plays) ->
  NoDup (map entry_score (ScoreSystem.getScoreboard (saveAll plays store))).
Proof.
  intros Hall. revert store.
  induction Hall as [| p rest Hp _ IH]; intros store Hnd.
  - simpl in *. rewrite app_nil_r in Hnd. exact Hnd.
  - cbn [saveAll]. rewrite (saveScore_play p store Hp).
    apply IH. cbn [ScoreSystem.getScoreboard].
    cbn [map] in Hnd.
    change (play_score p :: map play_score rest)
      with ([play_score p] ++ map play_score rest) in Hnd.
    rewrite app_assoc in Hnd.
    apply NoDup_app in Hnd. destruct Hnd as (Hl & Hd & Hr).
    destruct (scores_of_top (ScoreSystem.getScoreboard store)
                (mkEntry (play_name p) (play_score p) (play_now p)))
      as (all & Hperm & Hsub).
    cbn [entry_score] in Hperm.
    apply NoDup_app. split; [| split; [| exact Hr]].
    + eapply sublist_NoDup; [| exact Hsub].
      rewrite Hperm. exact Hl.
    + intros x Hx. apply Hd. rewrite <- Hperm.
      eapply elem_of_sublist; [exact Hx | exact Hsub].
Qed.

Lemma sorted_NoDup_strict (l : list ScoreEntry) :
  StronglySorted scoreGe l -> NoDup (map entry_score l) ->
  StronglySorted scoreGt l.
Proof.
  induction 1 as [| a l Hs IH Ha]; intros Hnd; [constructor |].
  cbn [map] in Hnd. apply NoDup_cons in Hnd. destruct Hnd as [Hna Hnd].
  constructor; [apply IH, Hnd |].
  rewrite Forall_forall in *. intros b Hb.
  specialize (Ha b Hb). unfold scoreGe, scoreGt in *.
  assert (entry_score b <> entry_score a).
  { intros Heq. apply Hna. rewrite <- Heq.
    apply list_elem_of_In, in_map, list_elem_of_In, Hb. }
  lia.
Qed.

(** C5, refuted as stated: with a name and a positive score, but on a
    storage whose [setItem] throws, [saveScore()] returns false and
    nothing is persisted. *)
Lemma saveScore_write_fails :
  ScoreSystem.playerName (ScoreSystem.mk 50 0 0 100 "ANA") <> EmptyString /\
  (0 < ScoreSystem.score (ScoreSystem.mk 50 0 0 100 "ANA"))%Z /\
  ScoreSystem.saveScore 99 throws (ScoreSystem.mk 50 0 0 100 "ANA") None
  = (false, None).
Proof.
  split; [discriminate |]. split; reflexivity.
Qed.

(** C5, amended.  [saveScore()] returns false and leaves the store alone
    when the name is empty or the score is not positive, and also when
    the write to the storage throws.  Otherwise it returns true and
    persists the first 10 entries of [sorted], the stored list with
    [{name, score, now}] appended and then sorted descending by score,
    ties in their former order.  On a storage that takes every write,
    whatever it held before, 11 games saved one after the other leave
    exactly 10 entries, sorted descending; with scores that differ from
    one another and from those already stored, strictly so. *)
Theorem saveScore_spec :
  (forall (now : Z) (setItem : SetItem) (s : ScoreSystem.t)
          (store : Storage),
      ScoreSystem.playerName s = EmptyString \/
      (ScoreSystem.score s <= 0)%Z ->
      ScoreSystem.saveScore now setItem s store = (false, store)) /\
  (forall (now : Z) (s : ScoreSystem.t) (store : Storage),
      ScoreSystem.playerName s <> EmptyString ->
      (0 < ScoreSystem.score s)%Z ->
      ScoreSystem.saveScore now throws s store = (false, store)) /\
  (forall (now : Z) (s : ScoreSystem.t) (store : Storage),
      ScoreSystem.playerName s <> EmptyString ->
      (0 < ScoreSystem.score s)%Z ->
      exists sorted : list ScoreEntry,
        ScoreSystem.saveScore now stores s store
        = (true, Some (firstn 10 sorted)) /\
        Permutation sorted
          (ScoreSystem.getScoreboard store ++ [entryOf now s]) /\
        StronglySorted scoreGe sorted /\
        (forall v : Z,
            List.filter (fun e => (entry_score e =? v)%Z) sorted =
            List.filter (fun e => (entry_score e =? v)%Z)
              (ScoreSystem.getScoreboard store ++ [entryOf now s]))) /\
  (forall (plays : list Play) (store : Storage),
      Forall savable plays -> length plays = 11%nat ->
      length (ScoreSystem.getScoreboard (saveAll plays store)) = 10%nat /\
      StronglySorted scoreGe
        (ScoreSystem.getScoreboard (saveAll plays store))) /\
  (forall (plays : list Play) (store : Storage),
      Forall savable plays -> length plays = 11%nat ->
      NoDup (map entry_score (ScoreSystem.getScoreboard store)
             ++ map play_score plays) ->
      StronglySorted scoreGt
        (ScoreSystem.getScoreboard (saveAll plays store))).
Proof.
  split; [exact saveScore_rejected |].
  split; [exact saveScore_thrown |].
  split; [| split].
  - intros now s store Hn Hs.
    exists (Array_sort ScoreSystem.byScoreDesc
              (ScoreSystem.getScoreboard store ++ [entryOf now s])).
    split; [apply saveScore_accepted; assumption |].
    split; [apply Array_sort_perm |].
    split; [apply Array_sort_sorted |].
    intros v. apply Array_sort_stable.
  - intros plays store Hall Hlen.
    assert (Hne : plays <> []) by (intros ->; discriminate).
    split.
    + rewrite saveAll_length by assumption. rewrite Hlen. lia.
    + apply saveAll_sorted; assumption.
  - intros plays store Hall Hlen Hnd.
    assert (Hne : plays <> []) by (intros ->; discriminate).
    apply sorted_NoDup_strict.
    + apply saveAll_sorted; assumption.
    + apply saveAll_NoDup; assumption.
Qed.

Lemma saveScore_spec_witness :
  ScoreSystem.saveScore 7 stores (ScoreSystem.mk 50 0 0 100 EmptyString)
                        None
    = (false, None) /\
  length (ScoreSystem.getScoreboard (saveAll elevenPlays None)) = 10%nat /\
  StronglySorted scoreGt
    (ScoreSystem.getScoreboard (saveAll elevenPlays None)).
Proof.
  destruct saveScore_spec as (Hrej & _ & _ & Hlen & Hstrict).
  assert (Hall : Forall savable elevenPlays).
  { unfold elevenPlays. apply Forall_forall. intros p Hp.
    apply list_elem_of_In, in_map_iff in Hp.
    destruct Hp as (k & <- & Hk). apply in_seq in Hk.
    split; simpl; [discriminate | lia]. }
  split; [apply Hrej; left; reflexivity |].
  split.
  - apply (Hlen elevenPlays None Hall). reflexivity.
  - apply (Hstrict elevenPlays None Hall); [reflexivity |].
    apply NoDup_ListNoDup. vm_compute.
    repeat (constructor; [simpl; intuition discriminate |]).
    constructor.
Defined.

(** C9, refuted as stated: the guard passes and the store holds 10
    entries that all score more, yet on a storage whose [setItem] throws
    [saveScore()] returns false. *)
Lemma saveScore_below_board_write_fails :
  ScoreSystem.playerName (ScoreSystem.mk 50 0 0 100 "ANA") <> EmptyString /\
  (0 < ScoreSystem.score (ScoreSystem.mk 50 0 0 100 "ANA"))%Z /\
  length fullBoard = 10%nat /\
  forallb (fun e => (50 <? entry_score e)%Z) fullBoard = true /\
  fst (ScoreSystem.saveScore 99 throws (ScoreSystem.mk 50 0 0 100 "ANA")
                             (Some fullBoard)) = false.
Proof.
  split; [discriminate |]. repeat split; reflexivity.
Qed.

(** C9, amended.  When the guard passes, the write to the storage
    succeeds and the store already holds 10 entries that all score more
    than the player, [saveScore()] returns true, yet the appended entry
    falls to the 11th place and is cut off: what is persisted is the
    sorted old list, the same entries as before and the very same list
    when it was sorted, and the new entry is not in it.  When the write
    throws, it returns false and the store stays as it was. *)
Theorem saveScore_below_board (now : Z) (s : ScoreSystem.t)
    (board : list ScoreEntry) :
  ScoreSystem.playerName s <> EmptyString ->
  (0 < ScoreSystem.score s)%Z ->
  length board = 10%nat ->
  Forall (fun e => (ScoreSystem.score s < entry_score e)%Z) board ->
  fst (ScoreSystem.saveScore now stores s (Some board)) = true /\
  snd (ScoreSystem.saveScore now stores s (Some board)) =
    Some (Array_sort ScoreSystem.byScoreDesc board) /\
  Permutation
    (ScoreSystem.getScoreboard
       (snd (ScoreSystem.saveScore now stores s (Some board))))
    board /\
  ~ In (entryOf now s)
       (ScoreSystem.getScoreboard
          (snd (ScoreSystem.saveScore now stores s (Some board)))) /\
  (StronglySorted scoreGe board ->
   snd (ScoreSystem.saveScore now stores s (Some board)) = Some board) /\
  ScoreSystem.saveScore now throws s (Some board) = (false, Some board).
Proof.
  intros Hn Hs Hlen Hall.
  rewrite saveScore_accepted, saveScore_thrown by assumption.
  cbn [fst snd ScoreSystem.getScoreboard].
  assert (Hcut : firstn 10 (Array_sort ScoreSystem.byScoreDesc
                              (board ++ [entryOf now s]))
                 = Array_sort ScoreSystem.byScoreDesc board).
  { rewrite Array_sort_above.
    - apply take_app_length'.
      rewrite Array_sort_length. symmetry. exact Hlen.
    - eapply Forall_impl; [exact Hall |].
      intros e He. exact He. }
  rewrite Hcut. split; [reflexivity |]. split; [reflexivity |].
  split; [apply Array_sort_perm |]. split; [| split; [| reflexivity]].
  - intros Hin.
    apply (Permutation_in _ (Array_sort_perm ScoreSystem.byScoreDesc board))
      in Hin.
    rewrite Forall_forall in Hall.
    apply list_elem_of_In, Hall in Hin. simpl in Hin. lia.
  - intros Hsorted. rewrite Array_sort_of_sorted by assumption. reflexivity.
Qed.

Lemma saveScore_below_board_witness :
  ScoreSystem.saveScore 99 stores (ScoreSystem.mk 50 0 0 100 "ANA")
                        (Some fullBoard)
  = (true, Some fullBoard).
Proof.
  assert (Hall : Forall (fun e => (50 < entry_score e)%Z) fullBoard).
  { unfold fullBoard. apply Forall_forall. intros e He.
    apply list_elem_of_In, in_map_iff in He.
    destruct He as (k & <- & Hk). apply in_seq in Hk. simpl. lia. }
  assert (Hsorted : StronglySorted scoreGe fullBoard).
  { vm_compute.
    repeat (constructor;
            [| repeat (constructor; [intros Hc; discriminate Hc |]);
               constructor]).
    constructor. }
  destruct (saveScore_below_board 99 (ScoreSystem.mk 50 0 0 100 "ANA")
              fullBoard) as (Hfst & _ & _ & _ & Hsame & _).
  - discriminate.
  - reflexivity.
  - reflexivity.
  - exact Hall.
  - specialize (Hsame Hsorted).
    destruct (ScoreSystem.saveScore 99 stores
                (ScoreSystem.mk 50 0 0 100 "ANA") (Some fullBoard))
      as [r st].
    simpl in Hfst, Hsame. rewrite Hfst, Hsame. reflexivity.
Defined.

(** ** Bullets against enemies *)

Lemma skipped_false (e : Enemy.t) :
  CollisionSystem.skipped e = false <->
  Enemy.alive e = true /\ Enemy.dying e = false.
Proof.
  unfold CollisionSystem.skipped.
  destruct (Enemy.alive e), (Enemy.dying e); simpl; intuition congruence.
Qed.

Lemma hittable_skipped (bounds : Rect) (off : Offset) (e : Enemy.t) :
  hittable bounds off e -> CollisionSystem.skipped e = false.
Proof. intros (Ha & Hd & _). apply skipped_false. auto. Qed.

Lemma kill_alive (e : Enemy.t) :
  Enemy.alive e = true ->
  Enemy.kill e =
    Enemy.mk (Enemy.localX e) (Enemy.localY e) (Enemy.type e)
             (Enemy.width e) (Enemy.height e) true true
             (Enemy.deathDuration e) (Enemy.deathDuration e).
Proof. intros Ha. unfold Enemy.kill. rewrite Ha. reflexivity. Qed.

Lemma kill_skipped (e : Enemy.t) :
  CollisionSystem.skipped (Enemy.kill e) = true.
Proof.
  unfold Enemy.kill, CollisionSystem.skipped.
  destruct (Enemy.alive e) eqn:Ha; simpl.
  - reflexivity.
  - rewrite Ha. reflexivity.
Qed.

Lemma kill_not_hittable (bounds : Rect) (off : Offset) (e : Enemy.t) :
  ~ hittable bounds off (Enemy.kill e).
Proof.
  intros H. apply hittable_skipped in H.
  rewrite kill_skipped in H. discriminate.
Qed.

(** The inner loop finds the first enemy, in list order, that the bullet
    can hit, kills it and stops. *)
Lemma scanEnemies_Some (bounds : Rect) (off : Offset) (j0 : nat)
    (es : list Enemy.t) (k : nat) (es1 : list Enemy.t) :
  CollisionSystem.scanEnemies bounds off j0 es = Some (k, es1) ->
  exists (j : nat) (e : Enemy.t),
    k = (j0 + j)%nat /\ es !! j = Some e /\ hittable bounds off e /\
    (forall (j' : nat) (e' : Enemy.t),
        (j' < j)%nat -> es !! j' = Some e' -> ~ hittable bounds off e') /\
    es1 = <[j := Enemy.kill e]> es.
Proof.
  revert j0 k es1. induction es as [| e es IH]; intros j0 k es1 H.
  - discriminate.
  - cbn [CollisionSystem.scanEnemies] in H.
    assert (Hrec :
      forall k1 rest1,
        CollisionSystem.scanEnemies bounds off (S j0) es = Some (k1, rest1) ->
        ~ hittable bounds off e ->
        k = k1 -> es1 = e :: rest1 ->
        exists (j : nat) (e0 : Enemy.t),
          k = (j0 + j)%nat /\ (e :: es) !! j = Some e0 /\
          hittable bounds off e0 /\
          (forall (j' : nat) (e' : Enemy.t),
              (j' < j)%nat -> (e :: es) !! j' = Some e' ->
              ~ hittable bounds off e') /\
          es1 = <[j := Enemy.kill e0]> (e :: es)).
    { intros k1 rest1 Hs Hne -> ->.
      destruct (IH _ _ _ Hs) as (j & e0 & -> & Hj & Hh & Hfirst & ->).
      exists (S j), e0. split; [lia |]. split; [exact Hj |].
      split; [exact Hh |]. split; [| reflexivity].
      intros [| j'] e' Hlt He'; simpl in He'.
      - injection He' as <-. exact Hne.
      - apply (Hfirst j' e'); [lia | exact He']. }
    destruct (CollisionSystem.skipped e) eqn:Hsk.
    + destruct (CollisionSystem.scanEnemies bounds off (S j0) es)
        as [[k1 rest1] |] eqn:Hs; [| discriminate].
      injection H as <- <-. apply (Hrec k1 rest1); auto.
      intros Hh. apply hittable_skipped in Hh. congruence.
    + destruct (rectIntersect bounds (Enemy.getBounds e off)) eqn:Hri.
      * injection H as <- <-. exists 0%nat, e.
        split; [lia |]. split; [reflexivity |].
        apply skipped_false in Hsk. destruct Hsk as [Ha Hd].
        split; [repeat split; assumption |].
        split; [intros j' e' Hlt; lia | reflexivity].
      * destruct (CollisionSystem.scanEnemies bounds off (S j0) es)
          as [[k1 rest1] |] eqn:Hs; [| discriminate].
        injection H as <- <-. apply (Hrec k1 rest1); auto.
        intros (_ & _ & Hh). congruence.
Qed.

Lemma scanEnemies_None (bounds : Rect) (off : Offset) (j0 : nat)
    (es : list Enemy.t) :
  CollisionSystem.scanEnemies bounds off j0 es = None ->
  forall (j : nat) (e : Enemy.t),
    es !! j = Some e -> ~ hittable bounds off e.
Proof.
  revert j0. induction es as [| e es IH]; intros j0 H j e0 Hj.
  - discriminate.
  - cbn [CollisionSystem.scanEnemies] in H.
    assert (Hrest : CollisionSystem.scanEnemies bounds off (S j0) es = None
                    /\ ~ hittable bounds off e).
    { destruct (CollisionSystem.skipped e) eqn:Hsk.
      - destruct (CollisionSystem.scanEnemies bounds off (S j0) es)
          as [[k1 rest1] |]; [discriminate |].
        split; [reflexivity |].
        intros Hh. apply hittable_skipped in Hh. congruence.
      - destruct (rectIntersect bounds (Enemy.getBounds e off)) eqn:Hri;
          [discriminate |].
        destruct (CollisionSystem.scanEnemies bounds off (S j0) es)
          as [[k1 rest1] |]; [discriminate |].
        split; [reflexivity |].
        intros (_ & _ & Hh). congruence. }
    destruct Hrest as [Hs Hne].
    destruct j as [| j]; simpl in Hj.
    + injection Hj as <-. exact Hne.
    + apply (IH _ Hs j e0 Hj).
Qed.

(** One turn of the outer loop. *)
Lemma bulletLoop_cons (off : Offset) (i : nat) (b : Bullet.t)
    (rest : list Bullet.t) (es : list Enemy.t)
    (cs : list CollisionEvent) (bs1 : list Bullet.t) (es1 : list Enemy.t) :
  CollisionSystem.bulletLoop off i (b :: rest) es = (cs, bs1, es1) ->
  exists (cs0 : list CollisionEvent) (rest1 : list Bullet.t)
         (es0 : list Enemy.t),
    CollisionSystem.bulletLoop off (S i) rest es0 = (cs0, rest1, es1) /\
    ((es0 = es /\ cs = cs0 /\ bs1 = b :: rest1 /\
      (Bullet.active b = false \/
       Bullet.active b = true /\
       forall (j : nat) (e : Enemy.t),
         es !! j = Some e -> ~ hittable (Bullet.getBounds b) off e)) \/
     (exists (j : nat) (e : Enemy.t),
        Bullet.active b = true /\
        es !! j = Some e /\ hittable (Bullet.getBounds b) off e /\
        (forall (j' : nat) (e' : Enemy.t),
            (j' < j)%nat -> es !! j' = Some e' ->
            ~ hittable (Bullet.getBounds b) off e') /\
        es0 = <[j := Enemy.kill e]> es /\
        cs = bullet_enemy i j :: cs0 /\
        bs1 = Bullet.destroy b :: rest1)).
Proof.
  cbn [CollisionSystem.bulletLoop]. intros H.
  destruct (Bullet.active b) eqn:Hact; cbn [negb] in H.
  - destruct (CollisionSystem.scanEnemies (Bullet.getBounds b) off 0 es)
      as [[j es0] |] eqn:Hscan.
    + destruct (CollisionSystem.bulletLoop off (S i) rest es0)
        as [[cs0 rest1] es2] eqn:Hrec.
      injection H as <- <- <-.
      exists cs0, rest1, es0. split; [exact Hrec |]. right.
      destruct (scanEnemies_Some _ _ _ _ _ _ Hscan)
        as (j1 & e & Hj & He & Hh & Hfirst & Hes0).
      simpl in Hj. subst j1.
      exists j, e. repeat split; try assumption; apply Hh.
    + destruct (CollisionSystem.bulletLoop off (S i) rest es)
        as [[cs0 rest1] es2] eqn:Hrec.
      injection H as <- <- <-.
      exists cs0, rest1, es. split; [exact Hrec |]. left.
      repeat split. right. split; [reflexivity |].
      exact (scanEnemies_None _ _ _ _ Hscan).
  - destruct (CollisionSystem.bulletLoop off (S i) rest es)
      as [[cs0 rest1] es2] eqn:Hrec.
    injection H as <- <- <-.
    exists cs0, rest1, es. split; [exact Hrec |]. left.
    repeat split. left. reflexivity.
Qed.

(** Splits on the turn taken for the first bullet of the loop. *)
Ltac loop_turn H :=
  let cs0 := fresh "cs0" in
  let rest1 := fresh "rest1" in
  let es0 := fresh "es0" in
  let Hrec := fresh "Hrec" in
  let j0 := fresh "j0" in
  let e0 := fresh "e0" in
  let Hmiss := fresh "Hmiss" in
  let Hact := fresh "Hact" in
  let Hj0 := fresh "Hj0" in
  let Hhit := fresh "Hhit" in
  let Hfst := fresh "Hfst" in
  apply bulletLoop_cons in H;
  destruct H as
    (cs0 & rest1 & es0 & Hrec &
     [(-> & -> & -> & Hmiss) |
      (j0 & e0 & Hact & Hj0 & Hhit & Hfst & -> & -> & ->)]).

Lemma bulletLoop_length (off : Offset) (bs : list Bullet.t) :
  forall (i : nat) (es : list Enemy.t) cs bs1 es1,
    CollisionSystem.bulletLoop off i bs es = (cs, bs1, es1) ->
    length bs1 = length bs /\ length es1 = length es.
Proof.
  induction bs as [| b rest IH]; intros i es cs bs1 es1 H.
  - injection H as <- <- <-. auto.
  - loop_turn H; destruct (IH _ _ _ _ _ Hrec) as [Hb He]; simpl.
    + auto.
    + rewrite length_insert in He. auto.
Qed.

Lemma bulletLoop_range (off : Offset) (bs : list Bullet.t) :
  forall (i : nat) (es : list Enemy.t) cs bs1 es1,
    CollisionSystem.bulletLoop off i bs es = (cs, bs1, es1) ->
    forall ev : CollisionEvent,
      In ev cs ->
      exists k j : nat,
        ev = bullet_enemy (i + k) j /\ (k < length bs)%nat.
Proof.
  induction bs as [| b rest IH]; intros i es cs bs1 es1 H ev Hev.
  - injection H as <- <- <-. destruct Hev.
  - loop_turn H.
    + destruct (IH _ _ _ _ _ Hrec ev Hev) as (k & j & -> & Hk).
      exists (S k), j. split; [f_equal; lia | simpl; lia].
    + destruct Hev as [<- | Hev].
      * exists 0%nat, j0. split; [f_equal; lia | simpl; lia].
      * destruct (IH _ _ _ _ _ Hrec ev Hev) as (k & j & -> & Hk).
        exists (S k), j. split; [f_equal; lia | simpl; lia].
Qed.

Lemma hitBy_widen (cs cs' : list CollisionEvent) (lo lo' hi hi' j : nat) :
  (forall ev, In ev cs -> In ev cs') ->
  (lo' <= lo)%nat -> (hi <= hi')%nat ->
  hitBy cs lo hi j -> hitBy cs' lo' hi' j.
Proof.
  intros Hsub Hlo Hhi (i & Hi & Hin). exists i. split; [lia | auto].
Qed.

(** An enemy that no event names leaves the pass as it entered it. *)
Lemma bulletLoop_untouched (off : Offset) (bs : list Bullet.t) :
  forall (i : nat) (es : list Enemy.t) cs bs1 es1,
    CollisionSystem.bulletLoop off i bs es = (cs, bs1, es1) ->
    forall (j : nat) (e : Enemy.t),
      es !! j = Some e ->
      (forall k : nat, ~ In (bullet_enemy k j) cs) ->
      es1 !! j = Some e.
Proof.
  induction bs as [| b rest IH]; intros i es cs bs1 es1 H j e Hj Hno.
  - injection H as <- <- <-. exact Hj.
  - loop_turn H.
    + apply (IH _ _ _ _ _ Hrec j e Hj Hno).
    + assert (Hne : j0 <> j).
      { intros ->. apply (Hno i). left. reflexivity. }
      apply (IH _ _ _ _ _ Hrec j e).
      * rewrite list_lookup_insert_ne by exact Hne. exact Hj.
      * intros k Hk. apply (Hno k). right. exact Hk.
Qed.

(** What an event of the pass says about its bullet and its enemy. *)
Lemma bulletLoop_hit (off : Offset) (bs : list Bullet.t) :
  forall (i : nat) (es : list Enemy.t) cs bs1 es1,
    CollisionSystem.bulletLoop off i bs es = (cs, bs1, es1) ->
    forall k j : nat,
      In (bullet_enemy (i + k) j) cs ->
      exists (b : Bullet.t) (e : Enemy.t),
        bs !! k = Some b /\ Bullet.active b = true /\
        es !! j = Some e /\ hittable (Bullet.getBounds b) off e /\
        bs1 !! k = Some (Bullet.destroy b) /\
        es1 !! j = Some (Enemy.kill e) /\
        (forall (j' : nat) (e' : Enemy.t),
            (j' < j)%nat -> es !! j' = Some e' ->
            hittable (Bullet.getBounds b) off e' ->
            hitBy cs i (i + k) j').
Proof.
  induction bs as [| b rest IH]; intros i es cs bs1 es1 H k j Hin.
  - injection H as <- <- <-. destruct Hin.
  - loop_turn H.
    + destruct (bulletLoop_range _ _ _ _ _ _ _ Hrec _ Hin)
        as (k' & j' & Heq & _).
      injection Heq as Hk <-.
      assert (k = S k') by lia. subst k.
      replace (i + S k')%nat with (S i + k')%nat in * by lia.
      destruct (IH _ _ _ _ _ Hrec k' j Hin)
        as (b' & e & Hb & Ha & He & Hh & Hb1 & He1 & Hfirst).
      exists b', e. repeat split; try assumption; try apply Hh.
      intros j' e' Hlt He' Hh'.
      apply (hitBy_widen cs0 cs0 (S i) i (S i + k') (S i + k'));
        [auto | lia | lia |].
      apply (Hfirst j' e'); assumption.
    + destruct Hin as [Heq | Hin].
      * injection Heq as Hk <-. assert (k = 0%nat) by lia. subst k.
        exists b, e0. split; [reflexivity |].
        split; [assumption |]. split; [assumption |].
        split; [assumption |]. split; [reflexivity |].
        split.
        -- apply (bulletLoop_untouched _ _ _ _ _ _ _ Hrec).
           ++ apply list_lookup_insert_eq.
              apply lookup_lt_Some in Hj0. exact Hj0.
           ++ intros k1 Hk1.
              destruct (bulletLoop_range _ _ _ _ _ _ _ Hrec _ Hk1)
                as (k' & j' & Heq & _).
              injection Heq as -> <-.
              destruct (IH _ _ _ _ _ Hrec k' j0 Hk1)
                as (b' & e & _ & _ & He & Hh & _).
              rewrite list_lookup_insert_eq in He
                by (apply lookup_lt_Some in Hj0; exact Hj0).
              injection He as <-.
              exact (kill_not_hittable _ _ _ Hh).
        -- intros j' e' Hlt He' Hh'. exfalso.
           exact (Hfst j' e' Hlt He' Hh').
      * destruct (bulletLoop_range _ _ _ _ _ _ _ Hrec _ Hin)
          as (k' & j' & Heq & _).
        injection Heq as Hk <-.
        assert (k = S k') by lia. subst k.
        replace (i + S k')%nat with (S i + k')%nat in * by lia.
        destruct (IH _ _ _ _ _ Hrec k' j Hin)
          as (b' & e & Hb & Ha & He & Hh & Hb1 & He1 & Hfirst).
        assert (Hne : j0 <> j).
        { intros ->.
          rewrite list_lookup_insert_eq in He
            by (apply lookup_lt_Some in Hj0; exact Hj0).
          injection He as <-.
          exact (kill_not_hittable _ _ _ Hh). }
        rewrite list_lookup_insert_ne in He by exact Hne.
        exists b', e. repeat split; try assumption; try apply Hh.
        intros j' e' Hlt He' Hh'.
        destruct (Nat.eq_dec j0 j') as [<- | Hne'].
        -- exists i. split; [lia | left; reflexivity].
        -- apply (hitBy_widen cs0 _ (S i) i (S i + k') (S i + k'));
             [intros ev Hev; right; exact Hev | lia | lia |].
           apply (Hfirst j' e'); try assumption.
           rewrite list_lookup_insert_ne by exact Hne'. exact He'.
Qed.

(** A bullet that no event names leaves the pass as it entered it; if it
    was active, every enemy it could have hit had been taken by a bullet
    before it. *)
Lemma bulletLoop_miss (off : Offset) (bs : list Bullet.t) :
  forall (i : nat) (es : list Enemy.t) cs bs1 es1,
    CollisionSystem.bulletLoop off i bs es = (cs, bs1, es1) ->
    forall (k : nat) (b : Bullet.t),
      bs !! k = Some b ->
      (forall j : nat, ~ In (bullet_enemy (i + k) j) cs) ->
      bs1 !! k = Some b /\
      (Bullet.active b = true ->
       forall (j : nat) (e : Enemy.t),
         es !! j = Some e -> hittable (Bullet.getBounds b) off e ->
         hitBy cs i (i + k) j).
Proof.
  induction bs as [| b rest IH]; intros i es cs bs1 es1 H k b' Hk Hno.
  - discriminate.
  - loop_turn H.
    + destruct k as [| k]; simpl in Hk.
      * injection Hk as <-. split; [reflexivity |].
        intros Ha j e He Hh. exfalso.
        destruct Hmiss as [Hoff | [_ Hnone]]; [congruence |].
        exact (Hnone j e He Hh).
      * replace (i + S k)%nat with (S i + k)%nat in * by lia.
        destruct (IH _ _ _ _ _ Hrec k b' Hk Hno) as [Hb1 Hall].
        split; [exact Hb1 |].
        intros Ha j e He Hh.
        apply (hitBy_widen cs0 cs0 (S i) i (S i + k) (S i + k));
          [auto | lia | lia |].
        apply (Hall Ha j e He Hh).
    + destruct k as [| k]; simpl in Hk.
      * exfalso. apply (Hno j0). left. f_equal. lia.
      * replace (i + S k)%nat with (S i + k)%nat in * by lia.
        destruct (IH _ _ _ _ _ Hrec k b' Hk) as [Hb1 Hall].
        { intros j Hj. apply (Hno j). right. exact Hj. }
        split; [exact Hb1 |].
        intros Ha j e He Hh.
        destruct (Nat.eq_dec j0 j) as [<- | Hne].
        -- exists i. split; [lia | left; reflexivity].
        -- apply (hitBy_widen cs0 _ (S i) i (S i + k) (S i + k));
             [intros ev Hev; right; exact Hev | lia | lia |].
           apply (Hall Ha j e); [| exact Hh].
           rewrite list_lookup_insert_ne by exact Hne. exact He.
Qed.

Lemma eventsOfBullet_below (i : nat) (cs : list CollisionEvent) :
  (forall ev, In ev cs ->
              exists k j : nat, ev = bullet_enemy (S i + k) j) ->
  eventsOfBullet i cs = [].
Proof.
  induction cs as [| ev cs IH]; intros Hall; [reflexivity |].
  unfold eventsOfBullet in *. cbn [List.filter].
  destruct (Hall ev) as (k & j & ->); [left; reflexivity |].
  cbn [bulletOf].
  replace (Nat.eqb (S i + k) i) with false
    by (symmetry; apply Nat.eqb_neq; lia).
  apply IH. intros ev Hev. apply Hall. right. exact Hev.
Qed.

(** Each bullet produces at most one event. *)
Lemma bulletLoop_once (off : Offset) (bs : list Bullet.t) :
  forall (i : nat) (es : list Enemy.t) cs bs1 es1,
    CollisionSystem.bulletLoop off i bs es = (cs, bs1, es1) ->
    forall k : nat, (length (eventsOfBullet k cs) <= 1)%nat.
Proof.
  induction bs as [| b rest IH]; intros i es cs bs1 es1 H k.
  - injection H as <- <- <-. simpl. lia.
  - loop_turn H.
    + apply (IH _ _ _ _ _ Hrec).
    + unfold eventsOfBullet. cbn [List.filter bulletOf].
      destruct (Nat.eqb_spec i k) as [<- | Hne].
      * fold (eventsOfBullet i cs0).
        rewrite eventsOfBullet_below; [simpl; lia |].
        intros ev Hev.
        destruct (bulletLoop_range _ _ _ _ _ _ _ Hrec ev Hev)
          as (k' & j' & -> & _).
        exists k', j'. reflexivity.
      * apply (IH _ _ _ _ _ Hrec).
Qed.

(** Each enemy is named by at most one event. *)
Lemma bulletLoop_enemy_once (off : Offset) (bs : list Bullet.t) :
  forall (i : nat) (es : list Enemy.t) cs bs1 es1,
    CollisionSystem.bulletLoop off i bs es = (cs, bs1, es1) ->
    forall k1 k2 j : nat,
      In (bullet_enemy k1 j) cs -> In (bullet_enemy k2 j) cs -> k1 = k2.
Proof.
  induction bs as [| b rest IH]; intros i es cs bs1 es1 H k1 k2 j H1 H2.
  - injection H as <- <- <-. destruct H1.
  - loop_turn H.
    + apply (IH _ _ _ _ _ Hrec k1 k2 j H1 H2).
    + assert (Hlater : forall k, ~ In (bullet_enemy k j0) cs0).
      { intros k Hk.
        destruct (bulletLoop_range _ _ _ _ _ _ _ Hrec _ Hk)
          as (k' & j' & Heq & _).
        injection Heq as -> <-.
        destruct (bulletLoop_hit _ _ _ _ _ _ _ Hrec k' j0 Hk)
          as (b' & e & _ & _ & He & Hh & _).
        rewrite list_lookup_insert_eq in He
          by (apply lookup_lt_Some in Hj0; exact Hj0).
        injection He as <-.
        exact (kill_not_hittable _ _ _ Hh). }
      destruct H1 as [Heq1 | H1], H2 as [Heq2 | H2].
      * congruence.
      * injection Heq1 as <- <-. destruct (Hlater _ H2).
      * injection Heq2 as <- <-. destruct (Hlater _ H1).
      * apply (IH _ _ _ _ _ Hrec k1 k2 j H1 H2).
Qed.

(** ** The collision step of the tick *)

Lemma addKills_score (cfg : Config) (hits : list CollisionEvent)
    (s : ScoreSystem.t) :
  ScoreSystem.score (PlayState.addKills cfg hits s) =
    (ScoreSystem.score s
     + (GAMEPLAY_scorePerKill cfg) * Z.of_nat (length hits))%Z /\
  ScoreSystem.lives (PlayState.addKills cfg hits s) = ScoreSystem.lives s.
Proof.
  revert s. induction hits as [| hit rest IH]; intros s.
  - simpl. split; [lia | reflexivity].
  - cbn [PlayState.addKills]. destruct (IH (ScoreSystem.addKillDefault cfg s))
      as [Hs Hl].
    rewrite Hs, Hl. cbn [length]. simpl ScoreSystem.score.
    simpl ScoreSystem.lives. split; [lia | reflexivity].
Qed.

Lemma checkBulletEnemyCollisions_loop (events0 : list CollisionEvent)
    (bullets : list Bullet.t) (enemies : list Enemy.t) (off : Offset) :
  let out :=
    CollisionSystem.checkBulletEnemyCollisions events0 bullets enemies off in
  CollisionSystem.bulletLoop off 0 bullets enemies =
    (CollisionSystem.collisions out, CollisionSystem.firsts out,
     CollisionSystem.seconds out) /\
  CollisionSystem.events out = events0 ++ CollisionSystem.collisions out.
Proof.
  unfold CollisionSystem.checkBulletEnemyCollisions.
  destruct (CollisionSystem.bulletLoop off 0 bullets enemies)
    as [[cs bs1] es1].
  simpl. auto.
Qed.

(** The score after the whole collision step of a tick without boss and
    without power attack. *)
Lemma checkCollisions_plain_score (cfg : Config) (st : PlayState.t) :
  PlayState.boss st = None -> PlayState.powerAttack st = None ->
  ScoreSystem.score (PlayState.score (PlayState.checkCollisions cfg st)) =
  ScoreSystem.score
    (PlayState.score
       (PlayState.bulletsVsEnemies cfg
          (FormationController.getOffset (PlayState.formation st))
          (PlayState.clearEvents st))).
Proof.
  intros Hb Hp. unfold PlayState.checkCollisions.
  set (off := FormationController.getOffset (PlayState.formation st)).
  set (st1 := PlayState.bulletsVsEnemies cfg off (PlayState.clearEvents st)).
  assert (Hb1 : PlayState.boss st1 = None) by exact Hb.
  assert (Hp1 : PlayState.powerAttack st1 = None) by exact Hp.
  unfold PlayState.bulletsVsBoss. rewrite Hb1.
  unfold PlayState.powerAttackVsEnemies. rewrite Hp1.
  unfold PlayState.enemiesReachingBottom.
  destruct (CollisionSystem.checkEnemyReachBottom _ _ _ _) as [[|] ev1];
    [| reflexivity].
  unfold PlayState.handleEnemyReachBottom.
  cbn [PlayState.score ScoreSystem.loseLife].
  destruct (_ <=? 0)%Z; reflexivity.
Qed.

(** C1. One pass of [checkBulletEnemyCollisions].  Every event is a
    [bullet_enemy] event of an active bullet and of an enemy that was
    alive, not dying and overlapping; the bullet leaves the pass
    deactivated and the enemy with its death animation started; the enemy
    is the first one in list order the bullet could hit, any earlier
    candidate having been taken by an earlier bullet.  A bullet without an
    event is unchanged and, if active, had no enemy left to hit; an enemy
    without an event is unchanged, and dying or dead enemies never get
    one.  No bullet has two events, no enemy has two, and the tick adds
    [scorePerKill] to the score once per event. *)
Theorem checkBulletEnemyCollisions_spec (cfg : Config)
    (events0 : list CollisionEvent)
    (bullets : list Bullet.t) (enemies : list Enemy.t) (off : Offset) :
  let out :=
    CollisionSystem.checkBulletEnemyCollisions events0 bullets enemies off in
  let cs := CollisionSystem.collisions out in
  CollisionSystem.events out = events0 ++ cs /\
  length (CollisionSystem.firsts out) = length bullets /\
  length (CollisionSystem.seconds out) = length enemies /\
  (forall ev : CollisionEvent,
      In ev cs -> exists i j : nat, ev = bullet_enemy i j) /\
  (forall i j : nat,
      In (bullet_enemy i j) cs ->
      exists (b : Bullet.t) (e : Enemy.t),
        bullets !! i = Some b /\ Bullet.active b = true /\
        enemies !! j = Some e /\ hittable (Bullet.getBounds b) off e /\
        CollisionSystem.firsts out !! i = Some (Bullet.destroy b) /\
        Bullet.active (Bullet.destroy b) = false /\
        CollisionSystem.seconds out !! j = Some (Enemy.kill e) /\
        Enemy.alive (Enemy.kill e) = true /\
        Enemy.dying (Enemy.kill e) = true /\
        Enemy.deathTimer (Enemy.kill e) = Enemy.deathDuration e /\
        (forall (j' : nat) (e' : Enemy.t),
            (j' < j)%nat -> enemies !! j' = Some e' ->
            hittable (Bullet.getBounds b) off e' -> hitBy cs 0 i j')) /\
  (forall (i : nat) (b : Bullet.t),
      bullets !! i = Some b ->
      (forall j : nat, ~ In (bullet_enemy i j) cs) ->
      CollisionSystem.firsts out !! i = Some b /\
      (Bullet.active b = true ->
       forall (j : nat) (e : Enemy.t),
         enemies !! j = Some e -> hittable (Bullet.getBounds b) off e ->
         hitBy cs 0 i j)) /\
  (forall (j : nat) (e : Enemy.t),
      enemies !! j = Some e ->
      (forall i : nat, ~ In (bullet_enemy i j) cs) ->
      CollisionSystem.seconds out !! j = Some e) /\
  (forall (j : nat) (e : Enemy.t),
      enemies !! j = Some e ->
      Enemy.alive e = false \/ Enemy.dying e = true ->
      (forall i : nat, ~ In (bullet_enemy i j) cs) /\
      CollisionSystem.seconds out !! j = Some e) /\
  (forall i : nat, (length (eventsOfBullet i cs) <= 1)%nat) /\
  (forall i1 i2 j : nat,
      In (bullet_enemy i1 j) cs -> In (bullet_enemy i2 j) cs -> i1 = i2) /\
  (forall st : PlayState.t,
      PlayState.bullets st = bullets ->
      PlayState.enemies st = enemies ->
      FormationController.getOffset (PlayState.formation st) = off ->
      ScoreSystem.score
        (PlayState.score
           (PlayState.bulletsVsEnemies cfg off (PlayState.clearEvents st)))
      = (ScoreSystem.score (PlayState.score st)
         + (GAMEPLAY_scorePerKill cfg) * Z.of_nat (length cs))%Z /\
      (PlayState.boss st = None -> PlayState.powerAttack st = None ->
       ScoreSystem.score (PlayState.score (PlayState.checkCollisions cfg st))
       = (ScoreSystem.score (PlayState.score st)
          + (GAMEPLAY_scorePerKill cfg) * Z.of_nat (length cs))%Z)).
Proof.
  intros out cs.
  destruct (checkBulletEnemyCollisions_loop events0 bullets enemies off)
    as [Hloop Hev].
  fold out in Hloop, Hev. fold cs in Hloop, Hev.
  destruct (bulletLoop_length _ _ _ _ _ _ _ Hloop) as [Hlb Hle].
  assert (Hhit :
    forall i j : nat,
      In (bullet_enemy i j) cs ->
      exists (b : Bullet.t) (e : Enemy.t),
        bullets !! i = Some b /\ Bullet.active b = true /\
        enemies !! j = Some e /\ hittable (Bullet.getBounds b) off e /\
        CollisionSystem.firsts out !! i = Some (Bullet.destroy b) /\
        CollisionSystem.seconds out !! j = Some (Enemy.kill e) /\
        (forall (j' : nat) (e' : Enemy.t),
            (j' < j)%nat -> enemies !! j' = Some e' ->
            hittable (Bullet.getBounds b) off e' -> hitBy cs 0 i j')).
  { intros i j Hin.
    exact (bulletLoop_hit _ _ _ _ _ _ _ Hloop i j Hin). }
  assert (Hscore :
    forall st : PlayState.t,
      PlayState.bullets st = bullets ->
      PlayState.enemies st = enemies ->
      ScoreSystem.score
        (PlayState.score
           (PlayState.bulletsVsEnemies cfg off (PlayState.clearEvents st)))
      = (ScoreSystem.score (PlayState.score st)
         + (GAMEPLAY_scorePerKill cfg) * Z.of_nat (length cs))%Z).
  { intros st Hb He. unfold PlayState.bulletsVsEnemies.
    cbn [PlayState.score PlayState.clearEvents PlayState.collision
         PlayState.bullets PlayState.enemies].
    rewrite Hb, He.
    destruct (addKills_score cfg
                (CollisionSystem.collisions
                   (CollisionSystem.checkBulletEnemyCollisions
                      [] bullets enemies off))
                (PlayState.score st)) as [Hs _].
    rewrite Hs.
    destruct (checkBulletEnemyCollisions_loop [] bullets enemies off)
      as [Hloop0 _].
    rewrite Hloop in Hloop0. injection Hloop0 as <- _ _.
    reflexivity. }
  split; [exact Hev |]. split; [exact Hlb |]. split; [exact Hle |].
  split.
  { intros ev Hin.
    destruct (bulletLoop_range _ _ _ _ _ _ _ Hloop ev Hin)
      as (k & j & -> & _).
    exists k, j. reflexivity. }
  split.
  { intros i j Hin.
    destruct (Hhit i j Hin)
      as (b & e & Hb & Ha & He & Hh & Hb1 & He1 & Hfirst).
    exists b, e.
    assert (Hk := kill_alive e (proj1 Hh)).
    split; [exact Hb |]. split; [exact Ha |]. split; [exact He |].
    split; [exact Hh |]. split; [exact Hb1 |]. split; [reflexivity |].
    split; [exact He1 |]. rewrite Hk. cbn.
    split; [reflexivity |]. split; [reflexivity |].
    split; [reflexivity | exact Hfirst]. }
  split.
  { intros i b Hb Hno.
    exact (bulletLoop_miss _ _ _ _ _ _ _ Hloop i b Hb Hno). }
  assert (Hun :
    forall (j : nat) (e : Enemy.t),
      enemies !! j = Some e ->
      (forall i : nat, ~ In (bullet_enemy i j) cs) ->
      CollisionSystem.seconds out !! j = Some e).
  { exact (bulletLoop_untouched _ _ _ _ _ _ _ Hloop). }
  split; [exact Hun |].
  split.
  { intros j e He Hgone.
    assert (Hno : forall i : nat, ~ In (bullet_enemy i j) cs).
    { intros i Hin.
      destruct (Hhit i j Hin) as (b & e1 & _ & _ & He1 & Hh & _).
      rewrite He in He1. injection He1 as <-.
      destruct Hh as (Ha & Hd & _).
      destruct Hgone; congruence. }
    split; [exact Hno | exact (Hun j e He Hno)]. }
  split; [exact (bulletLoop_once _ _ _ _ _ _ _ Hloop) |].
  split; [exact (bulletLoop_enemy_once _ _ _ _ _ _ _ Hloop) |].
  intros st Hb He Hoff.
  split; [exact (Hscore st Hb He) |].
  intros Hboss Hpower.
  rewrite checkCollisions_plain_score by assumption.
  rewrite Hoff. exact (Hscore st Hb He).
Qed.

Lemma checkBulletEnemyCollisions_spec_witness :
  ScoreSystem.score
    (PlayState.score (PlayState.checkCollisions CONFIG overlapState))
  = 10%Z /\
  exists (b : Bullet.t) (e : Enemy.t),
    oneBullet !! 0%nat = Some b /\ twoEnemies !! 0%nat = Some e /\
    hittable (Bullet.getBounds b) (mkOffset 0 0) e.
Proof.
  pose proof (checkBulletEnemyCollisions_spec CONFIG
                [] oneBullet twoEnemies (mkOffset 0 0)) as H.
  cbv zeta in H.
  destruct H as (_ & _ & _ & _ & Hhit & _ & _ & _ & _ & _ & Horch).
  split.
  - destruct (Horch overlapState eq_refl eq_refl eq_refl) as [_ Hall].
    rewrite (Hall eq_refl eq_refl). reflexivity.
  - destruct (Hhit 0%nat 0%nat) as (b & e & Hb & _ & He & Hh & _).
    + left. reflexivity.
    + exists b, e. auto.
Defined.

(** ** Enemies at the bottom line *)

(** An enemy the inner loops skip goes through the bullet pass untouched
    and unnamed. *)
Lemma bulletLoop_skipped_kept (off : Offset) (i : nat)
    (bs : list Bullet.t) (es : list Enemy.t) cs bs1 es1
    (j : nat) (e : Enemy.t) :
  CollisionSystem.bulletLoop off i bs es = (cs, bs1, es1) ->
  es !! j = Some e -> CollisionSystem.skipped e = true ->
  (forall k : nat, ~ In (bullet_enemy k j) cs) /\ es1 !! j = Some e.
Proof.
  intros Hloop He Hsk.
  assert (Hno : forall k : nat, ~ In (bullet_enemy k j) cs).
  { intros k Hin.
    destruct (bulletLoop_range _ _ _ _ _ _ _ Hloop _ Hin)
      as (k' & j' & Heq & _).
    injection Heq as -> <-.
    destruct (bulletLoop_hit _ _ _ _ _ _ _ Hloop k' j Hin)
      as (b & e1 & _ & _ & He1 & Hh & _).
    rewrite He in He1. injection He1 as <-.
    apply hittable_skipped in Hh. congruence. }
  split; [exact Hno |].
  exact (bulletLoop_untouched _ _ _ _ _ _ _ Hloop j e He Hno).
Qed.

Lemma powerScan_skipped_kept (bounds : Rect) (off : Offset) (p : nat)
    (es : list Enemy.t) :
  forall (j0 : nat) found es1 (j : nat) (e : Enemy.t),
    CollisionSystem.powerScan bounds off p j0 es = (found, es1) ->
    es !! j = Some e -> CollisionSystem.skipped e = true ->
    (forall q k : nat,
        In (power_enemy q k) found -> q = p /\ (j0 <= k)%nat) /\
    ~ In (power_enemy p (j0 + j)) found /\ es1 !! j = Some e.
Proof.
  induction es as [| e0 es IH]; intros j0 found es1 j e H He Hsk.
  - discriminate.
  - cbn [CollisionSystem.powerScan] in H.
    destruct (CollisionSystem.powerScan bounds off p (S j0) es)
      as [found0 rest1] eqn:Hrec.
    assert (Hrange : forall q k : nat,
               In (power_enemy q k) found0 -> q = p /\ (S j0 <= k)%nat).
    { clear -Hrec. revert j0 found0 rest1 Hrec.
      induction es as [| e1 es IH]; intros j0 found0 rest1 Hrec q k Hin.
      - injection Hrec as <- <-. destruct Hin.
      - cbn [CollisionSystem.powerScan] in Hrec.
        destruct (CollisionSystem.powerScan bounds off p (S (S j0)) es)
          as [found1 rest2] eqn:Hrec1.
        specialize (IH _ _ _ Hrec1).
        destruct (CollisionSystem.skipped e1);
          [| destruct (rectIntersect bounds (Enemy.getBounds e1 off))];
          injection Hrec as <- <-.
        + destruct (IH q k Hin). split; [assumption | lia].
        + destruct Hin as [Heq | Hin].
          * injection Heq as <- <-. split; [reflexivity | lia].
          * destruct (IH q k Hin). split; [assumption | lia].
        + destruct (IH q k Hin). split; [assumption | lia]. }
    destruct j as [| j]; simpl in He.
    + injection He as ->. rewrite Hsk in H. injection H as <- <-.
      split; [| split; [| reflexivity]].
      * intros q k Hin. destruct (Hrange q k Hin). split; [assumption | lia].
      * intros Hin. destruct (Hrange _ _ Hin). lia.
    + destruct (IH (S j0) found0 rest1 j e Hrec He Hsk)
        as (_ & Hno & Hkept).
      replace (S j0 + j)%nat with (j0 + S j)%nat in Hno by lia.
      destruct (CollisionSystem.skipped e0);
        [| destruct (rectIntersect bounds (Enemy.getBounds e0 off))];
        injection H as <- <-.
      * split; [| split; [exact Hno | exact Hkept]].
        intros q k Hin. destruct (Hrange q k Hin). split; [assumption | lia].
      * split; [| split; [| exact Hkept]].
        -- intros q k [Heq | Hin].
           ++ injection Heq as <- <-. split; [reflexivity | lia].
           ++ destruct (Hrange q k Hin). split; [assumption | lia].
        -- intros [Heq | Hin]; [injection Heq; lia | exact (Hno Hin)].
      * split; [| split; [exact Hno | exact Hkept]].
        intros q k Hin. destruct (Hrange q k Hin). split; [assumption | lia].
Qed.

Lemma powerLoop_skipped_kept (off : Offset)
    (projectiles : list (nat * PowerProjectile.t)) :
  forall (es : list Enemy.t) found es1 (j : nat) (e : Enemy.t),
    CollisionSystem.powerLoop off projectiles es = (found, es1) ->
    es !! j = Some e -> CollisionSystem.skipped e = true ->
    (forall q : nat, ~ In (power_enemy q j) found) /\ es1 !! j = Some e.
Proof.
  induction projectiles as [| [p projectile] rest IH];
    intros es found es1 j e H He Hsk.
  - injection H as <- <-. split; [intros q [] | exact He].
  - cbn [CollisionSystem.powerLoop] in H.
    destruct (PowerProjectile.active projectile); cbn [negb] in H.
    + destruct (CollisionSystem.powerScan
                  (PowerProjectile.getBounds projectile) off p 0 es)
        as [found0 es0] eqn:Hscan.
      destruct (CollisionSystem.powerLoop off rest es0)
        as [found1 es2] eqn:Hrec.
      injection H as <- <-.
      destruct (powerScan_skipped_kept _ _ _ _ _ _ _ _ _ Hscan He Hsk)
        as (Hrange & Hno & Hkept).
      destruct (IH _ _ _ _ _ Hrec Hkept Hsk) as [Hno1 Hkept1].
      split; [| exact Hkept1].
      intros q Hin. apply in_app_or in Hin. destruct Hin as [Hin | Hin].
      * destruct (Hrange _ _ Hin) as [-> _]. exact (Hno Hin).
      * exact (Hno1 q Hin).
    + exact (IH _ _ _ _ _ H He Hsk).
Qed.

(** [checkEnemyReachBottom] reports the first enemy, in list order, whose
    [alive] flag is set and whose bottom edge is at or below the line;
    the [dying] flag plays no part. *)
Lemma reachBottomLoop_Some (off : Offset) (line : Q) (es : list Enemy.t) :
  forall j0 k : nat,
    CollisionSystem.reachBottomLoop off line j0 es = Some k ->
    exists (j : nat) (e : Enemy.t),
      k = (j0 + j)%nat /\ es !! j = Some e /\ reachedBottom off line e /\
      (forall (j' : nat) (e' : Enemy.t),
          (j' < j)%nat -> es !! j' = Some e' ->
          ~ reachedBottom off line e').
Proof.
  induction es as [| e es IH]; intros j0 k H; [discriminate |].
  cbn [CollisionSystem.reachBottomLoop] in H.
  fold (bottomY off e) in H.
  assert (Hrec :
    CollisionSystem.reachBottomLoop off line (S j0) es = Some k ->
    ~ reachedBottom off line e ->
    exists (j : nat) (e1 : Enemy.t),
      k = (j0 + j)%nat /\ (e :: es) !! j = Some e1 /\
      reachedBottom off line e1 /\
      (forall (j' : nat) (e' : Enemy.t),
          (j' < j)%nat -> (e :: es) !! j' = Some e' ->
          ~ reachedBottom off line e')).
  { intros Hs Hne.
    destruct (IH _ _ Hs) as (j & e1 & -> & Hj & Hr & Hfirst).
    exists (S j), e1. split; [lia |]. split; [exact Hj |].
    split; [exact Hr |].
    intros [| j'] e' Hlt He'; simpl in He'.
    - injection He' as <-. exact Hne.
    - apply (Hfirst j' e'); [lia | exact He']. }
  destruct (Enemy.alive e) eqn:Ha; cbn [negb] in H.
  - destruct (geb (bottomY off e) line) eqn:Hge.
    + injection H as <-. exists 0%nat, e.
      split; [lia |]. split; [reflexivity |].
      split; [split; [exact Ha | apply geb_ge; exact Hge] |].
      intros j' e' Hlt. lia.
    + apply Hrec; [exact H |].
      intros [_ Hle]. apply geb_nge in Hge. contradiction.
  - apply Hrec; [exact H |]. intros [Ha' _]. congruence.
Qed.

Lemma reachBottomLoop_None (off : Offset) (line : Q) (es : list Enemy.t) :
  forall j0 : nat,
    CollisionSystem.reachBottomLoop off line j0 es = None ->
    forall (j : nat) (e : Enemy.t),
      es !! j = Some e -> ~ reachedBottom off line e.
Proof.
  induction es as [| e es IH]; intros j0 H j e1 He1; [discriminate |].
  cbn [CollisionSystem.reachBottomLoop] in H.
  fold (bottomY off e) in H.
  assert (Hboth :
    CollisionSystem.reachBottomLoop off line (S j0) es = None /\
    ~ reachedBottom off line e).
  { destruct (Enemy.alive e) eqn:Ha; cbn [negb] in H.
    - destruct (geb (bottomY off e) line) eqn:Hge; [discriminate |].
      split; [exact H |].
      intros [_ Hle]. apply geb_nge in Hge. contradiction.
    - split; [exact H |]. intros [Ha' _]. congruence. }
  destruct Hboth as [Hs Hne].
  destruct j as [| j]; simpl in He1.
  - injection He1 as <-. exact Hne.
  - exact (IH _ Hs j e1 He1).
Qed.

Lemma applyBossHits_lives (cfg : Config) (hits : list CollisionEvent) :
  forall (b : Boss.t) (s : ScoreSystem.t) (flag : bool),
    ScoreSystem.lives (snd (fst (PlayState.applyBossHits cfg hits b s flag)))
    = ScoreSystem.lives s.
Proof.
  induction hits as [| hit rest IH]; intros b s flag; [reflexivity |].
  cbn [PlayState.applyBossHits].
  destruct (Boss.takeDamage (damageOf hit) b) as [[|] b1].
  - rewrite IH. reflexivity.
  - apply IH.
Qed.

Lemma keeps_refl (j : nat) (e : Enemy.t) (st : PlayState.t) :
  keeps j e st st.
Proof. unfold keeps. auto. Qed.

Lemma keeps_trans (j : nat) (e : Enemy.t) (st st1 st2 : PlayState.t) :
  keeps j e st st1 -> keeps j e st1 st2 -> keeps j e st st2.
Proof.
  intros (Hf1 & Hl1 & He1) (Hf2 & Hl2 & He2). unfold keeps.
  rewrite Hf2, Hl2. auto.
Qed.

Lemma bulletsVsEnemies_keeps (cfg : Config) (off : Offset) (j : nat)
    (e : Enemy.t) (st : PlayState.t) :
  CollisionSystem.skipped e = true ->
  keeps j e st (PlayState.bulletsVsEnemies cfg off st).
Proof.
  intros Hsk. unfold keeps, PlayState.bulletsVsEnemies.
  cbn [PlayState.formation PlayState.score PlayState.enemies].
  split; [reflexivity |]. split; [apply addKills_score |].
  intros He.
  destruct (checkBulletEnemyCollisions_loop
              (PlayState.collision st) (PlayState.bullets st)
              (PlayState.enemies st) off) as [Hloop _].
  exact (proj2 (bulletLoop_skipped_kept _ _ _ _ _ _ _ _ _ Hloop He Hsk)).
Qed.

Lemma bulletsVsBoss_keeps (cfg : Config) (j : nat) (e : Enemy.t)
    (st : PlayState.t) :
  keeps j e st (PlayState.bulletsVsBoss cfg st).
Proof.
  unfold PlayState.bulletsVsBoss.
  destruct (PlayState.boss st) as [b |]; [| apply keeps_refl].
  destruct (Boss.active b); [| apply keeps_refl].
  pose proof (applyBossHits_lives cfg
                (CollisionSystem.collisions
                   (CollisionSystem.checkBulletBossCollisions
                      (PlayState.collision st) (PlayState.bullets st)
                      (Some b)))
                b (PlayState.score st) (PlayState.bossActive st)) as Hl.
  destruct (PlayState.applyBossHits cfg _ b (PlayState.score st)
                                    (PlayState.bossActive st))
    as [[b1 score1] flag1].
  unfold keeps. cbn in *. auto.
Qed.

Lemma powerAttackVsBoss_keeps (cfg : Config) (j : nat) (e : Enemy.t)
    (st : PlayState.t) :
  keeps j e st (PlayState.powerAttackVsBoss cfg st).
Proof.
  unfold PlayState.powerAttackVsBoss.
  destruct (PlayState.powerAttack st) as [attack |]; [| apply keeps_refl].
  destruct (PlayState.boss st) as [b |]; [| apply keeps_refl].
  destruct (Boss.active b); [| apply keeps_refl].
  pose proof (applyBossHits_lives cfg
                (CollisionSystem.collisions
                   (CollisionSystem.checkPowerAttackBossCollisions
                      (PlayState.collision st)
                      (PowerAttack.getProjectiles attack) (Some b)))
                b (PlayState.score st) (PlayState.bossActive st)) as Hl.
  destruct (PlayState.applyBossHits cfg _ b (PlayState.score st)
                                    (PlayState.bossActive st))
    as [[b1 score1] flag1].
  unfold keeps. cbn in *. auto.
Qed.

Lemma checkPowerAttackEnemyCollisions_loop
    (events0 : list CollisionEvent)
    (projectiles : list (nat * PowerProjectile.t))
    (enemies : list Enemy.t) (off : Offset) :
  let out :=
    CollisionSystem.checkPowerAttackEnemyCollisions
      events0 projectiles enemies off in
  CollisionSystem.powerLoop off projectiles enemies =
    (CollisionSystem.collisions out, CollisionSystem.seconds out).
Proof.
  unfold CollisionSystem.checkPowerAttackEnemyCollisions.
  destruct (CollisionSystem.powerLoop off projectiles enemies)
    as [found es1].
  reflexivity.
Qed.

Lemma powerAttackVsEnemies_keeps (cfg : Config) (off : Offset) (j : nat)
    (e : Enemy.t) (st : PlayState.t) :
  CollisionSystem.skipped e = true ->
  keeps j e st (PlayState.powerAttackVsEnemies cfg off st).
Proof.
  intros Hsk. unfold PlayState.powerAttackVsEnemies.
  destruct (PlayState.powerAttack st) as [attack |]; [| apply keeps_refl].
  destruct (PowerAttack.active attack); [| apply keeps_refl].
  eapply keeps_trans; [| apply powerAttackVsBoss_keeps].
  unfold keeps.
  cbn [PlayState.formation PlayState.score PlayState.enemies].
  split; [reflexivity |]. split; [apply addKills_score |].
  intros He.
  pose proof (checkPowerAttackEnemyCollisions_loop
                (PlayState.collision st)
                (PowerAttack.getProjectiles attack)
                (PlayState.enemies st) off) as Hloop.
  cbv zeta in Hloop.
  exact (proj2 (powerLoop_skipped_kept _ _ _ _ _ _ _ Hloop He Hsk)).
Qed.

Lemma dying_skipped (e : Enemy.t) :
  Enemy.dying e = true -> CollisionSystem.skipped e = true.
Proof.
  intros Hd. unfold CollisionSystem.skipped. rewrite Hd.
  apply orb_true_r.
Qed.

Lemma checkEnemyReachBottom_found (events0 : list CollisionEvent)
    (enemies : list Enemy.t) (off : Offset) (line : Q)
    (j : nat) (e : Enemy.t) :
  enemies !! j = Some e -> reachedBottom off line e ->
  exists (k : nat) (e1 : Enemy.t),
    (k <= j)%nat /\ enemies !! k = Some e1 /\ reachedBottom off line e1 /\
    (forall (k' : nat) (e' : Enemy.t),
        (k' < k)%nat -> enemies !! k' = Some e' ->
        ~ reachedBottom off line e') /\
    CollisionSystem.checkEnemyReachBottom events0 enemies off line =
      (true, events0 ++ [enemy_reach_bottom k]).
Proof.
  intros He Hr. unfold CollisionSystem.checkEnemyReachBottom.
  destruct (CollisionSystem.reachBottomLoop off line 0 enemies)
    as [k |] eqn:Hloop.
  - destruct (reachBottomLoop_Some _ _ _ _ _ Hloop)
      as (k1 & e1 & Hk & He1 & Hr1 & Hfirst).
    simpl in Hk. subst k1.
    exists k, e1. split.
    + destruct (Nat.le_gt_cases k j) as [Hle | Hgt]; [exact Hle |].
      destruct (Hfirst j e Hgt He Hr).
    + auto.
  - destruct (reachBottomLoop_None _ _ _ _ Hloop j e He Hr).
Qed.

(** C10. An enemy in the dying state, with [alive] and [dying] both set,
    whose bottom edge is at or below the bottom line: the bullet check
    and the power-attack check neither name it nor change it, yet
    [checkEnemyReachBottom] returns true and pushes [enemy_reach_bottom]
    for the first enemy, this one or an earlier one, whose [alive] flag is
    set and that is at or below the line; and the collision step of the
    tick takes a life. *)
Theorem checkEnemyReachBottom_dying (cfg : Config)
    (enemies : list Enemy.t)
    (off : Offset) (bottomLine : Q) (j : nat) (e : Enemy.t) :
  enemies !! j = Some e ->
  Enemy.alive e = true -> Enemy.dying e = true ->
  bottomLine <= bottomY off e ->
  (forall events0 : list CollisionEvent,
      exists (k : nat) (e1 : Enemy.t),
        (k <= j)%nat /\ enemies !! k = Some e1 /\
        reachedBottom off bottomLine e1 /\
        (forall (k' : nat) (e' : Enemy.t),
            (k' < k)%nat -> enemies !! k' = Some e' ->
            ~ reachedBottom off bottomLine e') /\
        CollisionSystem.checkEnemyReachBottom
          events0 enemies off bottomLine
        = (true, events0 ++ [enemy_reach_bottom k])) /\
  ((forall (k' : nat) (e' : Enemy.t),
       (k' < j)%nat -> enemies !! k' = Some e' ->
       ~ reachedBottom off bottomLine e') ->
   forall events0 : list CollisionEvent,
     CollisionSystem.checkEnemyReachBottom events0 enemies off bottomLine
     = (true, events0 ++ [enemy_reach_bottom j])) /\
  (forall (events0 : list CollisionEvent) (bullets : list Bullet.t),
      let out :=
        CollisionSystem.checkBulletEnemyCollisions
          events0 bullets enemies off in
      (forall i : nat,
          ~ In (bullet_enemy i j) (CollisionSystem.collisions out)) /\
      CollisionSystem.seconds out !! j = Some e) /\
  (forall (events0 : list CollisionEvent)
          (projectiles : list (nat * PowerProjectile.t)),
      let out :=
        CollisionSystem.checkPowerAttackEnemyCollisions
          events0 projectiles enemies off in
      (forall p : nat,
          ~ In (power_enemy p j) (CollisionSystem.collisions out)) /\
      CollisionSystem.seconds out !! j = Some e) /\
  (forall st : PlayState.t,
      PlayState.enemies st = enemies ->
      FormationController.getOffset (PlayState.formation st) = off ->
      bottomLine = (GAMEPLAY_bottomLine cfg) ->
      ScoreSystem.lives (PlayState.score (PlayState.checkCollisions cfg st))
      = Z.max 0 (ScoreSystem.lives (PlayState.score st) - 1) /\
      exists (evs : list CollisionEvent) (k : nat),
        PlayState.collision (PlayState.checkCollisions cfg st)
        = evs ++ [enemy_reach_bottom k]).
Proof.
  intros He Ha Hd Hline.
  assert (Hr : reachedBottom off bottomLine e) by (split; assumption).
  assert (Hsk := dying_skipped e Hd).
  split.
  { intros events0.
    exact (checkEnemyReachBottom_found events0 _ _ _ _ _ He Hr). }
  split.
  { intros Hfirst events0.
    destruct (checkEnemyReachBottom_found events0 _ _ _ _ _ He Hr)
      as (k & e1 & Hle & He1 & Hr1 & _ & Heq).
    destruct (Nat.eq_dec k j) as [-> | Hne]; [exact Heq |].
    destruct (Hfirst k e1); [lia | exact He1 | exact Hr1]. }
  split.
  { intros events0 bullets out.
    destruct (checkBulletEnemyCollisions_loop events0 bullets enemies off)
      as [Hloop _].
    exact (bulletLoop_skipped_kept _ _ _ _ _ _ _ _ _ Hloop He Hsk). }
  split.
  { intros events0 projectiles out.
    pose proof (checkPowerAttackEnemyCollisions_loop
                  events0 projectiles enemies off) as Hloop.
    cbv zeta in Hloop.
    exact (powerLoop_skipped_kept _ _ _ _ _ _ _ Hloop He Hsk). }
  intros st Hen Hoff Hbl. subst bottomLine.
  unfold PlayState.checkCollisions. rewrite Hoff.
  set (st3 :=
         PlayState.powerAttackVsEnemies cfg off
           (PlayState.bulletsVsBoss cfg
              (PlayState.bulletsVsEnemies cfg off (PlayState.clearEvents st)))).
  assert (Hk : keeps j e st st3).
  { apply (keeps_trans j e st (PlayState.clearEvents st)).
    { unfold keeps. cbn. auto. }
    eapply keeps_trans; [apply bulletsVsEnemies_keeps; exact Hsk |].
    eapply keeps_trans; [apply bulletsVsBoss_keeps |].
    apply powerAttackVsEnemies_keeps; exact Hsk. }
  destruct Hk as (_ & Hlives & Hkept).
  rewrite Hen in Hkept. specialize (Hkept He).
  unfold PlayState.enemiesReachingBottom.
  destruct (checkEnemyReachBottom_found
              (PlayState.collision st3) _ off (GAMEPLAY_bottomLine cfg)
              _ _ Hkept Hr)
    as (k & e1 & _ & _ & _ & _ & Heq).
  rewrite Heq. unfold PlayState.handleEnemyReachBottom.
  cbn [ScoreSystem.loseLife PlayState.score].
  rewrite Hlives.
  destruct (Z.max 0 (ScoreSystem.lives (PlayState.score st) - 1) <=? 0)%Z;
    cbn [PlayState.score PlayState.collision ScoreSystem.lives];
    (split; [reflexivity |]);
    exists (PlayState.collision st3), k; reflexivity.
Qed.

Lemma checkEnemyReachBottom_dying_witness :
  ScoreSystem.lives
    (PlayState.score (PlayState.checkCollisions CONFIG dyingState))
  = 2%Z /\
  PlayState.collision (PlayState.checkCollisions CONFIG dyingState)
    = [enemy_reach_bottom 0].
Proof.
  destruct (checkEnemyReachBottom_dying CONFIG
              (PlayState.enemies dyingState)
              (FormationController.getOffset
                 (PlayState.formation dyingState))
              (GAMEPLAY_bottomLine CONFIG) 0
              (Enemy.mk 100 200 TYPE1 48 48 true true 150 200))
    as (_ & _ & _ & _ & Htick).
  - reflexivity.
  - reflexivity.
  - reflexivity.
  - vm_compute. discriminate.
  - destruct (Htick dyingState eq_refl eq_refl eq_refl) as [Hlives _].
    split; [exact Hlives | reflexivity].
Defined.

(** * Further properties *)

(** ** utils.js *)

Lemma clamp_lower (val lo hi : Q) : lo <= clamp val lo hi.
Proof. unfold clamp. apply Q.le_max_l. Qed.

Lemma clamp_upper (val lo hi : Q) : lo <= hi -> clamp val lo hi <= hi.
Proof.
  intros Hlh. unfold clamp.
  apply Q.max_lub; [exact Hlh | apply Q.le_min_l].
Qed.

Lemma clamp_inside (val lo hi : Q) :
  lo <= val -> val <= hi -> clamp val lo hi == val.
Proof.
  intros Hl Hh. unfold clamp.
  rewrite (Q.min_r hi val Hh). apply Q.max_r. exact Hl.
Qed.

(** X1. [clamp(val, min, max)] is never below [min] and, when
    [min <= max], never above [max]; it returns [val] inside the range,
    [min] below it and [max] above it, and clamping twice is clamping
    once. *)
Theorem clamp_spec (val lo hi : Q) :
  lo <= clamp val lo hi /\
  (lo <= hi -> clamp val lo hi <= hi) /\
  (lo <= val -> val <= hi -> clamp val lo hi == val) /\
  (val <= lo -> clamp val lo hi == lo) /\
  (lo <= hi -> hi <= val -> clamp val lo hi == hi) /\
  clamp (clamp val lo hi) lo hi == clamp val lo hi.
Proof.
  split; [apply clamp_lower |].
  split; [apply clamp_upper |].
  split; [apply clamp_inside |].
  split; [| split].
  - intros Hv. unfold clamp. apply Q.max_l.
    apply Qle_trans with val; [apply Q.le_min_r | exact Hv].
  - intros Hlh Hv. unfold clamp.
    rewrite (Q.min_l hi val Hv). apply Q.max_r. exact Hlh.
  - destruct (Qlt_le_dec hi lo) as [Hlt | Hle].
    + assert (H1 : forall v, clamp v lo hi == lo).
      { intros v. unfold clamp. apply Q.max_l.
        apply Qle_trans with hi; [apply Q.le_min_l | lra]. }
      rewrite !H1. reflexivity.
    + apply clamp_inside; [apply clamp_lower | apply clamp_upper, Hle].
Qed.

Lemma clamp_spec_witness :
  clamp 5 0 10 == 5 /\ clamp (-3) 0 10 == 0 /\ clamp 42 0 10 == 10.
Proof.
  destruct (clamp_spec 5 0 10) as (_ & _ & Hin & _).
  destruct (clamp_spec (-3) 0 10) as (_ & _ & _ & Hlo & _).
  destruct (clamp_spec 42 0 10) as (_ & _ & _ & _ & Hhi & _).
  split; [apply Hin; lra |]. split; [apply Hlo; lra | apply Hhi; lra].
Defined.

(** ** systems/InputSystem.js *)

Lemma inherited_proto (code : string) :
  String.eqb code "__proto__" = true -> inherited code = true.
Proof. intros H. apply String.eqb_eq in H. subst code. reflexivity. Qed.

Lemma truthy_empty (code : string) : truthy ∅ code = inherited code.
Proof.
  unfold truthy. rewrite lookup_empty.
  destruct (String.eqb code "__proto__") eqn:E; [| reflexivity].
  symmetry. apply inherited_proto, E.
Qed.

Lemma truthy_assign (obj : gmap string bool) (code code' : string)
    (v : bool) :
  truthy (assign code v obj) code' =
  if String.eqb code' "__proto__" then true
  else if String.eqb code code' then v else truthy obj code'.
Proof.
  unfold truthy, assign.
  destruct (String.eqb_spec code' "__proto__") as [-> | Hp]; [reflexivity |].
  destruct (String.eqb_spec code "__proto__") as [-> | Hc].
  - destruct (String.eqb_spec "__proto__" code') as [<- | Hne];
      [congruence | reflexivity].
  - destruct (String.eqb_spec code code') as [-> | Hne].
    + rewrite lookup_insert_eq. reflexivity.
    + rewrite lookup_insert_ne by exact Hne. reflexivity.
Qed.

Lemma truthy_assign_same (obj : gmap string bool) (code : string) :
  truthy (assign code true obj) code = true.
Proof.
  rewrite truthy_assign, String.eqb_refl.
  destruct (String.eqb code "__proto__"); reflexivity.
Qed.

(** No key code of [CONFIG.KEYS] is a name of [Object.prototype]. *)
Lemma KEYS_plain (action : string) (codes : list string) :
  KEYS !! action = Some codes ->
  forall code : string, In code codes -> inherited code = false.
Proof.
  intros H. unfold KEYS in H.
  assert (Hall : forallb (fun c => negb (inherited c)) codes = true).
  { repeat (apply lookup_insert_Some in H;
            destruct H as [[_ <-] | [_ H]]; [reflexivity |]).
    apply lookup_singleton_Some in H. destruct H as [_ <-]. reflexivity. }
  intros code Hin. rewrite forallb_forall in Hall.
  apply negb_true_iff, Hall, Hin.
Qed.

Lemma KEYS_not_proto (action : string) (codes : list string)
    (code : string) :
  KEYS !! action = Some codes -> In code codes ->
  String.eqb code "__proto__" = false.
Proof.
  intros Hk Hin. apply not_true_iff_false. intros H.
  apply inherited_proto in H.
  rewrite (KEYS_plain action codes Hk code Hin) in H. discriminate.
Qed.

Lemma someKey_empty (action : string) :
  InputSystem.someKey ∅ action <> Returns true.
Proof.
  unfold InputSystem.someKey.
  destruct (KEYS !! action) as [codes |] eqn:Hk.
  - assert (E : existsb (truthy ∅) codes = false).
    { apply not_true_iff_false. intros H.
      apply existsb_exists in H. destruct H as (c & Hin & Hc).
      rewrite truthy_empty, (KEYS_plain action codes Hk c Hin) in Hc.
      discriminate. }
    rewrite E. discriminate.
  - destruct (inherited action); discriminate.
Qed.

Lemma someKey_true (obj : gmap string bool) (action : string)
    (codes : list string) :
  KEYS !! action = Some codes ->
  (InputSystem.someKey obj action = Returns true <->
   exists code : string, In code codes /\ truthy obj code = true).
Proof.
  intros Hk. unfold InputSystem.someKey. rewrite Hk.
  rewrite <- existsb_exists. split.
  - intros [= H]. exact H.
  - intros ->. reflexivity.
Qed.

(** X3. A key that goes down is pressed: every action it belongs to is
    pressed, and just pressed if the key was not held before.  A keydown
    of a key that is already held, as the keyboard's auto-repeat sends
    them, changes nothing; so once [update()] has closed the frame, the
    repeats of a held key never raise [justPressed] again, for any
    action name. *)
Theorem handleKeyDown_spec (code action : string) (codes : list string)
    (i : InputSystem.t) :
  KEYS !! action = Some codes -> In code codes ->
  InputSystem.isKeyPressed code (InputSystem.handleKeyDown code i) = true /\
  InputSystem.isPressed action (InputSystem.handleKeyDown code i)
  = Returns true /\
  (InputSystem.isKeyPressed code i = false ->
   InputSystem.justPressed action (InputSystem.handleKeyDown code i)
   = Returns true) /\
  (InputSystem.isKeyPressed code i = true ->
   InputSystem.justPressedKeys (InputSystem.handleKeyDown code i)
   = InputSystem.justPressedKeys i) /\
  (forall action' : string,
      InputSystem.justPressed action'
        (InputSystem.handleKeyDown code
           (InputSystem.update (InputSystem.handleKeyDown code i)))
      <> Returns true).
Proof.
  intros Hk Hin.
  unfold InputSystem.isKeyPressed, InputSystem.isPressed,
    InputSystem.justPressed, InputSystem.handleKeyDown, InputSystem.update.
  cbn [InputSystem.keys InputSystem.justPressedKeys].
  split; [apply truthy_assign_same |].
  split.
  { apply (someKey_true _ action codes Hk). exists code.
    split; [exact Hin | apply truthy_assign_same]. }
  split.
  { intros Hfree. rewrite Hfree. cbn [negb].
    apply (someKey_true _ action codes Hk). exists code.
    split; [exact Hin | apply truthy_assign_same]. }
  split.
  { intros Hheld. rewrite Hheld. reflexivity. }
  intros action'. rewrite truthy_assign_same. cbn [negb].
  apply someKey_empty.
Qed.

Lemma handleKeyDown_spec_witness :
  InputSystem.isPressed "shoot"
    (InputSystem.handleKeyDown "Space" InputSystem.new) = Returns true /\
  InputSystem.justPressed "shoot"
    (InputSystem.handleKeyDown "Space" InputSystem.new) = Returns true.
Proof.
  destruct (handleKeyDown_spec "Space" "shoot" ["Space"] InputSystem.new)
    as (_ & Hp & Hj & _).
  - reflexivity.
  - left. reflexivity.
  - split; [exact Hp | apply Hj; reflexivity].
Defined.

(** X4. A key of [CONFIG.KEYS] that goes up is no longer pressed and
    raises [justReleased] for its actions; an action stays pressed
    exactly when another of its keys is still held.  [update()] leaves
    the held keys alone, and after it no action is just pressed or just
    released.  For a name that [CONFIG.KEYS] does not have, [isPressed]
    returns false, unless it is a name of [Object.prototype]: then the
    call raises a [TypeError]. *)
Theorem handleKeyUp_spec (code : string) (i : InputSystem.t) :
  (forall (action : string) (codes : list string),
      KEYS !! action = Some codes -> In code codes ->
      InputSystem.isKeyPressed code (InputSystem.handleKeyUp code i)
      = false /\
      InputSystem.justReleased action (InputSystem.handleKeyUp code i)
      = Returns true) /\
  (forall (action : string) (codes : list string),
      KEYS !! action = Some codes ->
      (InputSystem.isPressed action (InputSystem.handleKeyUp code i)
       = Returns true <->
       exists other : string,
         In other codes /\ other <> code /\
         InputSystem.isKeyPressed other i = true)) /\
  (forall action : string,
      InputSystem.isPressed action (InputSystem.update i)
      = InputSystem.isPressed action i /\
      InputSystem.justPressed action (InputSystem.update i)
      <> Returns true /\
      InputSystem.justReleased action (InputSystem.update i)
      <> Returns true) /\
  (forall action : string,
      KEYS !! action = None ->
      InputSystem.isPressed action i
      = if inherited action then TypeError else Returns false).
Proof.
  unfold InputSystem.isKeyPressed, InputSystem.isPressed,
    InputSystem.justPressed, InputSystem.justReleased,
    InputSystem.handleKeyUp, InputSystem.update.
  cbn [InputSystem.keys InputSystem.justPressedKeys
       InputSystem.justReleasedKeys].
  split.
  { intros action codes Hk Hin. split.
    - rewrite truthy_assign, String.eqb_refl,
        (KEYS_not_proto action codes code Hk Hin). reflexivity.
    - apply (someKey_true _ action codes Hk). exists code.
      split; [exact Hin | apply truthy_assign_same]. }
  split.
  { intros action codes Hk. rewrite (someKey_true _ action codes Hk).
    split.
    - intros (other & Hin & Ht). rewrite truthy_assign in Ht.
      rewrite (KEYS_not_proto action codes other Hk Hin) in Ht.
      destruct (String.eqb_spec code other) as [-> | Hne];
        [discriminate |].
      exists other. auto.
    - intros (other & Hin & Hne & Ht). exists other.
      split; [exact Hin |]. rewrite truthy_assign.
      rewrite (KEYS_not_proto action codes other Hk Hin).
      destruct (String.eqb_spec code other); [congruence | exact Ht]. }
  split.
  { intros action. split; [reflexivity |].
    split; apply someKey_empty. }
  intros action Hk. unfold InputSystem.someKey. rewrite Hk. reflexivity.
Qed.

Lemma handleKeyUp_spec_witness :
  InputSystem.isPressed "left"
    (InputSystem.handleKeyUp "KeyA"
       (InputSystem.handleKeyDown "ArrowLeft"
          (InputSystem.handleKeyDown "KeyA" InputSystem.new)))
  = Returns true.
Proof.
  destruct (handleKeyUp_spec "KeyA"
              (InputSystem.handleKeyDown "ArrowLeft"
                 (InputSystem.handleKeyDown "KeyA" InputSystem.new)))
    as (_ & Hstill & _).
  apply (Hstill "left" ["ArrowLeft"; "KeyA"]); [reflexivity |].
  exists "ArrowLeft". split; [left; reflexivity |].
  split; [discriminate | reflexivity].
Defined.

(** ** entities/Player.js *)

Lemma isPressed_known (action : string) (codes : list string)
    (input : InputSystem.t) :
  KEYS !! action = Some codes ->
  InputSystem.isPressed action input
  = Returns (existsb (truthy (InputSystem.keys input)) codes).
Proof.
  intros Hk. unfold InputSystem.isPressed, InputSystem.someKey.
  rewrite Hk. reflexivity.
Qed.

(** X5. Whatever the input and the frame time, [update] returns, and
    leaves the player's centre between [width/2] and
    [canvasWidth - width/2] (where the first is at most the second) and
    touches neither its height, size nor speed; with neither left nor
    right pressed, a player inside the range does not move. *)
Theorem Player_update_bounds (dt : Q) (input : InputSystem.t)
    (canvasWidth : Q) (p : Player.t) :
  Player.width p / 2 <= canvasWidth - Player.width p / 2 ->
  exists p1 : Player.t,
    Player.update dt input canvasWidth p = Returns p1 /\
    Player.width p / 2 <= Player.x p1 /\
    Player.x p1 <= canvasWidth - Player.width p / 2 /\
    Player.y p1 = Player.y p /\ Player.width p1 = Player.width p /\
    Player.height p1 = Player.height p /\
    Player.speed p1 = Player.speed p /\
    Player.fireCooldownMax p1 = Player.fireCooldownMax p /\
    (InputSystem.isPressed "left" input = Returns false ->
     InputSystem.isPressed "right" input = Returns false ->
     Player.width p / 2 <= Player.x p ->
     Player.x p <= canvasWidth - Player.width p / 2 ->
     Player.x p1 == Player.x p).
Proof.
  intros Hw. unfold Player.update.
  rewrite (isPressed_known "left" ["ArrowLeft"; "KeyA"] input eq_refl).
  rewrite (isPressed_known "right" ["ArrowRight"; "KeyD"] input eq_refl).
  set (left := existsb _ ["ArrowLeft"; "KeyA"]).
  set (right := existsb _ ["ArrowRight"; "KeyD"]).
  clearbody left right.
  cbn [bind]. eexists. split; [reflexivity |].
  cbn [Player.x Player.y Player.width Player.height Player.speed
       Player.fireCooldownMax].
  split; [apply clamp_lower |].
  split; [apply clamp_upper; exact Hw |].
  do 5 (split; [reflexivity |]).
  intros [= ->] [= ->] Hlo Hhi.
  apply clamp_inside; assumption.
Qed.

Lemma Player_update_bounds_witness :
  exists p1 : Player.t,
    Player.update (1 # 60) InputSystem.new 800 (Player.new CONFIG 400 500)
    = Returns p1 /\
    Player.x p1 == 400.
Proof.
  destruct (Player_update_bounds (1 # 60) InputSystem.new 800
              (Player.new CONFIG 400 500))
    as (p1 & Hp1 & _ & _ & _ & _ & _ & _ & _ & Hstay).
  - vm_compute. discriminate.
  - exists p1. split; [exact Hp1 |].
    apply Hstay; [reflexivity | reflexivity | |]; vm_compute; discriminate.
Defined.

(** ** entities/Bullet.js and the bullet list of the play state *)

(** X7. After [updateBullets] every bullet left is active and on screen;
    the bullets left are the moved ones that were active and are still on
    screen, in their former order, and nothing else of the play state
    changes. *)
Theorem updateBullets_spec (cfg : Config) (dt : Q) (st : PlayState.t) :
  let st1 := PlayState.updateBullets cfg dt st in
  Forall (fun b => Bullet.active b = true /\
                   Bullet.isOffScreen (CANVAS_height cfg) b = false)
         (PlayState.bullets st1) /\
  sublist (PlayState.bullets st1)
          (map (Bullet.update dt) (PlayState.bullets st)) /\
  (forall b : Bullet.t,
      In b (PlayState.bullets st1) <->
      exists b0 : Bullet.t,
        In b0 (PlayState.bullets st) /\ b = Bullet.update dt b0 /\
        Bullet.active b0 = true /\
        Bullet.isOffScreen (CANVAS_height cfg) b = false) /\
  PlayState.enemies st1 = PlayState.enemies st /\
  PlayState.score st1 = PlayState.score st /\
  PlayState.formation st1 = PlayState.formation st.
Proof.
  intros st1. subst st1. unfold PlayState.updateBullets.
  cbn [PlayState.bullets PlayState.enemies PlayState.score
       PlayState.formation].
  split.
  { apply Forall_forall. intros b Hb.
    apply list_elem_of_In, filter_In in Hb. destruct Hb as [_ Hb].
    apply andb_true_iff in Hb. destruct Hb as [Ha Ho].
    apply negb_true_iff in Ho. auto. }
  split.
  { generalize (map (Bullet.update dt) (PlayState.bullets st)).
    intros l. induction l as [| b l IH]; simpl; [constructor |].
    destruct (Bullet.active b && _); constructor; exact IH. }
  split; [| auto].
  intros b. rewrite filter_In, in_map_iff, andb_true_iff, negb_true_iff.
  split.
  - intros ((b0 & <- & Hin) & Ha & Ho). exists b0. auto.
  - intros (b0 & Hin & -> & Ha & Ho).
    split; [exists b0; auto | auto].
Qed.

Lemma Bullet_update_iter (dt : Q) (k : nat) (b : Bullet.t) :
  Bullet.velocityY (Nat.iter k (Bullet.update dt) b) = Bullet.velocityY b /\
  Bullet.height (Nat.iter k (Bullet.update dt) b) = Bullet.height b /\
  Bullet.y (Nat.iter k (Bullet.update dt) b)
  == Bullet.y b + inject_Z (Z.of_nat k) * (Bullet.velocityY b * dt).
Proof.
  induction k as [| k (Hv & Hh & Hy)].
  - simpl. split; [reflexivity |]. split; [reflexivity | ring].
  - rewrite !Nat.iter_succ. unfold Bullet.update at 1 3 5.
    cbn [Bullet.velocityY Bullet.height Bullet.y].
    split; [exact Hv |]. split; [exact Hh |].
    rewrite Hv, Nat2Z.inj_succ. unfold Z.succ. rewrite inject_Z_plus.
    change (inject_Z 1) with 1.
    set (Y := Bullet.y (Nat.iter k (Bullet.update dt) b)) in *.
    clearbody Y. lra.
Qed.

Lemma updateBullets_iter_In (cfg : Config) (dt : Q) (k : nat)
    (st : PlayState.t) (b : Bullet.t) :
  In b (PlayState.bullets
          (Nat.iter (S k) (PlayState.updateBullets cfg dt) st)) ->
  Bullet.isOffScreen (CANVAS_height cfg) b = false /\
  exists b0 : Bullet.t,
    In b0 (PlayState.bullets st) /\
    b = Nat.iter (S k) (Bullet.update dt) b0.
Proof.
  revert b. induction k as [| k IH]; intros b Hin.
  - cbn [Nat.iter nat_rect] in Hin |- *.
    unfold PlayState.updateBullets in Hin. cbn [PlayState.bullets] in Hin.
    apply filter_In in Hin. destruct Hin as [Hin Hok].
    apply andb_true_iff in Hok. destruct Hok as [_ Ho].
    apply negb_true_iff in Ho. split; [exact Ho |].
    apply in_map_iff in Hin. destruct Hin as (b0 & <- & Hin).
    exists b0. auto.
  - change (Nat.iter (S (S k)) (PlayState.updateBullets cfg dt) st)
      with (PlayState.updateBullets cfg dt
              (Nat.iter (S k) (PlayState.updateBullets cfg dt) st)) in Hin.
    unfold PlayState.updateBullets at 1 in Hin.
    cbn [PlayState.bullets] in Hin.
    apply filter_In in Hin. destruct Hin as [Hin Hok].
    apply andb_true_iff in Hok. destruct Hok as [_ Ho].
    apply negb_true_iff in Ho. split; [exact Ho |].
    apply in_map_iff in Hin. destruct Hin as (b1 & <- & Hin).
    destruct (IH b1 Hin) as (_ & b0 & Hin0 & ->).
    exists b0. split; [exact Hin0 | reflexivity].
Qed.

(** For a positive step [d], the multiples [k * d] pass any bound. *)
Lemma multiples_pass (a d : Q) :
  0 < d ->
  exists N : nat,
    forall k : nat, (N <= k)%nat -> a < inject_Z (Z.of_nat k) * d.
Proof.
  intros Hd. exists (Z.to_nat (Qceiling (a / d)) + 1)%nat. intros k Hk.
  assert (Hc : a / d < inject_Z (Z.of_nat k)).
  { apply Qle_lt_trans with (inject_Z (Qceiling (a / d)));
      [apply Qle_ceiling |].
    rewrite <- Zlt_Qlt. lia. }
  apply (Qmult_lt_compat_r _ _ d Hd) in Hc.
  assert (E : a / d * d == a) by (field; lra).
  rewrite E in Hc. exact Hc.
Qed.

Lemma Bullet_leaves (canvasHeight dt : Q) (b : Bullet.t) :
  0 < dt -> ~ Bullet.velocityY b == 0 ->
  exists N : nat,
    forall k : nat, (N <= k)%nat ->
      Bullet.isOffScreen canvasHeight (Nat.iter k (Bullet.update dt) b)
      = true.
Proof.
  intros Hdt Hv.
  destruct (Qlt_le_dec (Bullet.velocityY b) 0) as [Hneg | Hpos].
  - assert (Hd : 0 < - (Bullet.velocityY b * dt)) by nra.
    destruct (multiples_pass (Bullet.y b + Bullet.height b) _ Hd)
      as [N HN].
    exists N. intros k Hk. specialize (HN k Hk).
    destruct (Bullet_update_iter dt k b) as (_ & Hh & Hy).
    unfold Bullet.isOffScreen. apply orb_true_iff. left.
    apply ltb_lt. rewrite Hh.
    set (Y := Bullet.y (Nat.iter k (Bullet.update dt) b)) in *.
    clearbody Y. lra.
  - assert (Hd : 0 < Bullet.velocityY b * dt) by nra.
    destruct (multiples_pass
                (canvasHeight + Bullet.height b - Bullet.y b) _ Hd)
      as [N HN].
    exists N. intros k Hk. specialize (HN k Hk).
    destruct (Bullet_update_iter dt k b) as (_ & Hh & Hy).
    unfold Bullet.isOffScreen. apply orb_true_iff. right.
    apply gtb_gt. rewrite Hh.
    set (Y := Bullet.y (Nat.iter k (Bullet.update dt) b)) in *.
    clearbody Y. lra.
Qed.

(** X8. Bullets do not pile up: when every bullet moves (its vertical
    velocity is not zero) and the ticks have a fixed positive length, the
    bullet list is empty after finitely many [updateBullets] and stays
    empty. *)
Theorem bullets_leave (cfg : Config) (dt : Q) (st : PlayState.t) :
  0 < dt ->
  Forall (fun b => ~ Bullet.velocityY b == 0) (PlayState.bullets st) ->
  exists N : nat,
    forall k : nat, (N <= k)%nat ->
      PlayState.bullets (Nat.iter k (PlayState.updateBullets cfg dt) st)
      = [].
Proof.
  intros Hdt Hall.
  assert (Huni : exists N : nat,
             forall b : Bullet.t, In b (PlayState.bullets st) ->
             forall k : nat, (N <= k)%nat ->
               Bullet.isOffScreen (CANVAS_height cfg)
                 (Nat.iter k (Bullet.update dt) b) = true).
  { induction Hall as [| b l Hb _ (N & HN)].
    - exists 0%nat. intros b [].
    - destruct (Bullet_leaves (CANVAS_height cfg) dt b Hdt Hb) as [M HM].
      exists (Nat.max M N). intros b' [<- | Hin] k Hk.
      + apply HM. lia.
      + apply HN; [exact Hin | lia]. }
  destruct Huni as [N HN]. exists (S N). intros k Hk.
  destruct k as [| k]; [lia |].
  destruct (PlayState.bullets
              (Nat.iter (S k) (PlayState.updateBullets cfg dt) st))
    as [| b l] eqn:E; [reflexivity | exfalso].
  assert (Hin : In b (PlayState.bullets
              (Nat.iter (S k) (PlayState.updateBullets cfg dt) st)))
    by (rewrite E; left; reflexivity).
  apply updateBullets_iter_In in Hin.
  destruct Hin as (Hon & b0 & Hin0 & ->).
  rewrite (HN b0 Hin0 (S k)) in Hon; [discriminate | lia].
Qed.

Lemma bullets_leave_witness :
  exists N : nat,
    forall k : nat, (N <= k)%nat ->
      PlayState.bullets
        (Nat.iter k (PlayState.updateBullets CONFIG (1 # 10)) overlapState)
      = [].
Proof.
  apply (bullets_leave CONFIG (1 # 10) overlapState).
  - reflexivity.
  - repeat constructor. vm_compute. discriminate.
Defined.

(** ** entities/Player.js: the gun *)

Lemma playerFrames_cooldown (inputs : list InputSystem.t)
    (dt canvasWidth : Q) :
  0 <= dt ->
  forall p : Player.t,
  exists p1 : Player.t,
    playerFrames inputs dt canvasWidth p = Returns p1 /\
    (Player.fireCooldown p1 <= 0 \/
     Player.fireCooldown p1
     == Player.fireCooldown p
        - inject_Z (Z.of_nat (length inputs)) * (dt * 1000)).
Proof.
  intros Hdt. induction inputs as [| input rest IH]; intros p.
  - exists p. split; [reflexivity |]. right.
    cbn [length]. change (inject_Z (Z.of_nat 0)) with 0. lra.
  - cbn [playerFrames]. unfold Player.update at 1.
    rewrite (isPressed_known "left" ["ArrowLeft"; "KeyA"] input eq_refl).
    rewrite (isPressed_known "right" ["ArrowRight"; "KeyD"] input eq_refl).
    cbn [bind].
    set (p0 := Player.mk _ _ _ _ _ _ _).
    assert (Hc : Player.fireCooldown p0
                 = if gtb (Player.fireCooldown p) 0
                   then Player.fireCooldown p - dt * 1000
                   else Player.fireCooldown p) by reflexivity.
    destruct (IH p0) as (p1 & Hrun & Hcool). clearbody p0.
    exists p1. split; [exact Hrun |].
    cbn [length]. rewrite Nat2Z.inj_succ. unfold Z.succ.
    rewrite inject_Z_plus. change (inject_Z 1) with 1.
    assert (Hn : 0 <= inject_Z (Z.of_nat (length rest)) * (dt * 1000)).
    { apply Qmult_le_0_compat; [| lra].
      change 0 with (inject_Z 0). rewrite <- Zle_Qle. lia. }
    set (n := inject_Z (Z.of_nat (length rest))) in *. clearbody n.
    destruct Hcool as [Hle | Heq]; [left; exact Hle |].
    rewrite Hc in Heq.
    destruct (gtb (Player.fireCooldown p) 0) eqn:Hpos.
    + right. lra.
    + apply gtb_ngt in Hpos. left. lra.
Qed.

(** X6. The gun comes back: after [shoot()], with frames of a fixed
    positive length and whatever the inputs, from some number of frames
    on [update] has run the cooldown down, [canShoot()] is true and the
    next [shoot()] fires a bullet. *)
Theorem gun_ready_again (cfg : Config) (dt canvasWidth : Q)
    (p : Player.t) :
  0 < dt ->
  exists N : nat,
    forall inputs : list InputSystem.t,
      (N <= length inputs)%nat ->
      exists p2 : Player.t,
        playerFrames inputs dt canvasWidth (snd (Player.shoot cfg p))
        = Returns p2 /\
        Player.canShoot p2 = true /\
        fst (Player.shoot cfg p2) <> None.
Proof.
  intros Hdt.
  assert (Hstep : 0 < dt * 1000) by lra.
  destruct (multiples_pass
              (Player.fireCooldown (snd (Player.shoot cfg p))) _ Hstep)
    as [N HN].
  exists N. intros inputs Hlen. specialize (HN (length inputs) Hlen).
  destruct (playerFrames_cooldown inputs dt canvasWidth
              ltac:(lra) (snd (Player.shoot cfg p)))
    as (p2 & Hrun & Hcool).
  exists p2. split; [exact Hrun |].
  assert (Hready : Player.fireCooldown p2 <= 0).
  { destruct Hcool as [Hle | Heq]; [exact Hle |].
    set (c := Player.fireCooldown (snd (Player.shoot cfg p))) in *.
    set (c2 := Player.fireCooldown p2) in *. clearbody c c2. lra. }
  apply leb_le in Hready.
  split; [exact Hready |].
  unfold Player.shoot. unfold Player.canShoot in Hready.
  rewrite Hready. discriminate.
Qed.

Lemma gun_ready_again_witness :
  exists N : nat,
    forall inputs : list InputSystem.t,
      (N <= length inputs)%nat ->
      exists p2 : Player.t,
        playerFrames inputs (1 # 60) 800
          (snd (Player.shoot CONFIG (Player.new CONFIG 400 500)))
        = Returns p2 /\
        Player.canShoot p2 = true /\
        fst (Player.shoot CONFIG p2) <> None.
Proof.
  apply (gun_ready_again CONFIG (1 # 60) 800 (Player.new CONFIG 400 500)).
  reflexivity.
Defined.

(** ** entities/Enemy.js: the death animation *)

Lemma enemyTicks_gone (dts : list Q) (e : Enemy.t) :
  Enemy.dying e = false -> enemyTicks dts e = e.
Proof.
  intros Hd. induction dts as [| dt rest IH]; [reflexivity |].
  cbn [enemyTicks]. unfold Enemy.update. rewrite Hd. exact IH.
Qed.

Lemma enemyTicks_body (dts : list Q) :
  forall e : Enemy.t,
    Enemy.dying e = Enemy.alive e ->
    sameBody (enemyTicks dts e) e /\
    Enemy.dying (enemyTicks dts e) = Enemy.alive (enemyTicks dts e).
Proof.
  induction dts as [| dt rest IH]; intros e He.
  - cbn [enemyTicks]. split; [repeat split | exact He].
  - cbn [enemyTicks].
    assert (Hstep : sameBody (Enemy.update dt e) e /\
                    Enemy.dying (Enemy.update dt e)
                    = Enemy.alive (Enemy.update dt e)).
    { unfold Enemy.update. destruct (Enemy.dying e) eqn:Hd.
      - destruct (leb _ 0); cbn; split; try (repeat split); congruence.
      - split; [repeat split | congruence]. }
    destruct Hstep as [Hb0 He0].
    destruct (IH (Enemy.update dt e) He0) as [Hb1 He1].
    split; [| exact He1].
    unfold sameBody in *.
    destruct Hb0 as (B1 & B2 & B3 & B4 & B5 & B6).
    destruct Hb1 as (C1 & C2 & C3 & C4 & C5 & C6).
    repeat split; congruence.
Qed.

(** X9. The death animation: a living enemy that is killed stays in its
    place over any run of frames, whatever their lengths; at the end of
    the run it is either alive and dying or neither, never one without
    the other; and once it is neither, no further frame changes it. *)
Theorem death_animation (e : Enemy.t) (dts more : list Q) :
  Enemy.alive e = true ->
  let e1 := enemyTicks dts (Enemy.kill e) in
  sameBody e1 e /\
  Enemy.dying e1 = Enemy.alive e1 /\
  (FormationController.aliveOrDying e1 = false -> enemyTicks more e1 = e1).
Proof.
  intros Ha e1.
  assert (Hk : Enemy.dying (Enemy.kill e) = Enemy.alive (Enemy.kill e)).
  { unfold Enemy.kill. rewrite Ha. reflexivity. }
  assert (Hbk : sameBody (Enemy.kill e) e).
  { unfold Enemy.kill. rewrite Ha. repeat split. }
  destruct (enemyTicks_body dts (Enemy.kill e) Hk) as [Hb He].
  fold e1 in Hb, He.
  split.
  { unfold sameBody in *.
    destruct Hb as (B1 & B2 & B3 & B4 & B5 & B6).
    destruct Hbk as (C1 & C2 & C3 & C4 & C5 & C6).
    repeat split; congruence. }
  split; [exact He |].
  intros Hgone. apply enemyTicks_gone.
  unfold FormationController.aliveOrDying in Hgone.
  apply orb_false_iff in Hgone. apply Hgone.
Qed.

Lemma death_animation_witness :
  let e := Enemy.new CONFIG 50 60 TYPE1 in
  let e1 := enemyTicks [1 # 10; 1 # 10] (Enemy.kill e) in
  sameBody e1 e /\
  Enemy.dying e1 = Enemy.alive e1 /\
  (FormationController.aliveOrDying e1 = false ->
   enemyTicks [1 # 10] e1 = e1).
Proof.
  apply (death_animation (Enemy.new CONFIG 50 60 TYPE1) [1 # 10; 1 # 10]
                         [1 # 10]).
  reflexivity.
Defined.

(** X10. An enemy is dying only while alive: the constructor gives such an
    enemy, [kill] and [update] keep it so, and for such an enemy the
    filters on [alive || dying] are filters on [alive]; [kill] twice is
    [kill] once. *)
Theorem dyingAlive_kept (cfg : Config) (x0 y0 dt : Q) (ty : EnemyType)
    (e : Enemy.t) :
  dyingAlive (Enemy.new cfg x0 y0 ty) /\
  (dyingAlive e ->
   dyingAlive (Enemy.kill e) /\ dyingAlive (Enemy.update dt e) /\
   FormationController.aliveOrDying e = Enemy.alive e) /\
  Enemy.kill (Enemy.kill e) = Enemy.kill e.
Proof.
  unfold dyingAlive. split; [cbn; discriminate |]. split.
  - intros H. split; [| split].
    + unfold Enemy.kill. destruct (Enemy.alive e) eqn:Ha; cbn.
      * reflexivity.
      * intros Hd. specialize (H Hd). congruence.
    + unfold Enemy.update. destruct (Enemy.dying e) eqn:Hd; [| congruence].
      destruct (leb _ 0); cbn; [discriminate | auto].
    + unfold FormationController.aliveOrDying.
      destruct (Enemy.alive e), (Enemy.dying e); auto.
      discriminate H; reflexivity.
  - unfold Enemy.kill. destruct (Enemy.alive e) eqn:Ha; cbn.
    + reflexivity.
    + rewrite Ha. reflexivity.
Qed.

Lemma dyingAlive_kept_witness :
  let e := Enemy.kill (Enemy.new CONFIG 50 60 TYPE2) in
  dyingAlive (Enemy.kill e) /\ dyingAlive (Enemy.update (1 # 2) e) /\
  FormationController.aliveOrDying e = Enemy.alive e.
Proof.
  destruct (dyingAlive_kept CONFIG 50 60 (1 # 2) TYPE2
              (Enemy.kill (Enemy.new CONFIG 50 60 TYPE2)))
    as (_ & H & _).
  apply H. intros _. reflexivity.
Defined.

(** ** PlayState.updateEnemies and the formation over a run of frames *)

(** X11. [updateEnemies] drops an enemy exactly when its death animation
    ends in this frame or it was gone already; every enemy that is not
    dying is left as it is; the enemies left keep their order, and when
    all obey [dyingAlive] beforehand, all left afterwards are alive. *)
Theorem updateEnemies_spec (cfg : Config) (dt : Q) (st : PlayState.t) :
  let st1 := PlayState.updateEnemies cfg dt st in
  sublist (PlayState.enemies st1)
          (map (Enemy.update dt) (PlayState.enemies st)) /\
  (forall e : Enemy.t,
      In e (PlayState.enemies st) ->
      (In (Enemy.update dt e) (PlayState.enemies st1) <->
       ~ ((Enemy.dying e = true /\ Enemy.deathTimer e <= dt * 1000) \/
          (Enemy.alive e = false /\ Enemy.dying e = false))) /\
      (Enemy.dying e = false -> Enemy.update dt e = e)) /\
  (Forall dyingAlive (PlayState.enemies st) ->
   Forall (fun e => Enemy.alive e = true) (PlayState.enemies st1)) /\
  PlayState.bullets st1 = PlayState.bullets st /\
  PlayState.score st1 = PlayState.score st.
Proof.
  intros st1. subst st1. unfold PlayState.updateEnemies.
  cbn [PlayState.bullets PlayState.enemies PlayState.score].
  split.
  { generalize (map (Enemy.update dt) (PlayState.enemies st)).
    intros l. induction l as [| e l IH]; simpl; [constructor |].
    destruct (FormationController.aliveOrDying e); constructor; exact IH. }
  split.
  { intros e Hin. split.
    - rewrite filter_In.
      assert (Hkeep : FormationController.aliveOrDying (Enemy.update dt e)
                      = true <->
                      ~ ((Enemy.dying e = true /\
                          Enemy.deathTimer e <= dt * 1000) \/
                         (Enemy.alive e = false /\ Enemy.dying e = false))).
      { unfold FormationController.aliveOrDying, Enemy.update.
        destruct (Enemy.dying e) eqn:Hd.
        - destruct (leb (Enemy.deathTimer e - dt * 1000) 0) eqn:Hend;
            cbn [Enemy.alive Enemy.dying].
          + apply leb_le in Hend. split; [discriminate |].
            intros H. exfalso. apply H. left. split; [reflexivity | lra].
          + apply leb_nle in Hend. rewrite orb_true_r.
            split; [| reflexivity]. intros _ [[_ H] | [_ H]];
              [lra | discriminate].
        - rewrite Hd, orb_false_r. destruct (Enemy.alive e).
          + split; [| reflexivity]. intros _ [[H _] | [H _]]; discriminate.
          + split; [discriminate |]. intros H. exfalso. apply H. right.
            auto. }
      rewrite <- Hkeep. split; [intros [_ H]; exact H |].
      intros H. split; [apply in_map; exact Hin | exact H].
    - intros Hd. unfold Enemy.update. rewrite Hd. reflexivity. }
  split; [| auto].
  intros Hall. apply Forall_forall. intros e1 Hin.
  apply list_elem_of_In, filter_In in Hin. destruct Hin as [Hin Hk].
  apply in_map_iff in Hin. destruct Hin as (e & <- & Hin).
  rewrite Forall_forall in Hall.
  assert (He : dyingAlive e) by (apply Hall, list_elem_of_In; exact Hin).
  revert Hk. unfold FormationController.aliveOrDying, Enemy.update.
  destruct (Enemy.dying e) eqn:Hd.
  - destruct (leb _ 0); cbn [Enemy.alive Enemy.dying];
      [discriminate | intros _; apply He; exact Hd].
  - rewrite Hd, orb_false_r. auto.
Qed.

Lemma updateEnemies_spec_witness :
  let e := Enemy.mk 100 200 TYPE1 48 48 true true 150 200 in
  In (Enemy.update (1 # 10) e)
     (PlayState.enemies (PlayState.updateEnemies CONFIG (1 # 10) dyingState))
  <-> ~ ((Enemy.dying e = true /\ Enemy.deathTimer e <= (1 # 10) * 1000) \/
         (Enemy.alive e = false /\ Enemy.dying e = false)).
Proof.
  destruct (updateEnemies_spec CONFIG (1 # 10) dyingState) as (_ & H & _).
  apply (H (Enemy.mk 100 200 TYPE1 48 48 true true 150 200)).
  left. reflexivity.
Defined.

Lemma formation_update_step (cfg : Config) (dt : Q)
    (enemies : list Enemy.t) (f : FormationController.t) :
  let f1 := FormationController.update cfg dt enemies f in
  FormationController.offsetX f1
  = FormationController.offsetX f
    + FormationController.speed f * FormationController.direction f * dt /\
  FormationController.speed f1 = FormationController.speed f /\
  FormationController.stepDownAmount f1
  = FormationController.stepDownAmount f /\
  FormationController.minX f1 = FormationController.minX f /\
  FormationController.maxX f1 = CANVAS_width cfg - GAMEPLAY_enemyStartX cfg /\
  ((FormationController.direction f1 = FormationController.direction f /\
    FormationController.offsetY f1 = FormationController.offsetY f) \/
   ((FormationController.direction f1 = 1 \/
     FormationController.direction f1 = -1) /\
    FormationController.offsetY f1
    = FormationController.offsetY f
      + FormationController.stepDownAmount f)).
Proof.
  unfold FormationController.update.
  destruct (Nat.eqb _ 0).
  { cbn. repeat split. left. split; reflexivity. }
  destruct (FormationController.enemyBounds _ _ _ _) as [mn mx].
  cbn [FormationController.direction FormationController.offsetY
       FormationController.stepDownAmount FormationController.minX
       FormationController.speed].
  destruct (ext_geb mx _ && gtb (FormationController.direction f) 0).
  { cbn. repeat split. right. split; [right |]; reflexivity. }
  destruct (ext_leb mn _ && ltb (FormationController.direction f) 0).
  { cbn. repeat split. right. split; [left |]; reflexivity. }
  cbn. repeat split. left. split; reflexivity.
Qed.

(** X12. Over any run of frames a formation of direction 1 or -1 keeps
    its speed, its step and its left bound, its direction stays 1 or -1,
    and it steps down at most once per frame: its vertical offset is the
    old one with [stepDownAmount] added [n] times, for some [n] that is
    at most the number of frames. *)
Theorem formation_run (cfg : Config) (ticks : list (Q * list Enemy.t))
    (f : FormationController.t) :
  FormationController.direction f = 1 \/
  FormationController.direction f = -1 ->
  let f1 := formationTicks cfg ticks f in
  (FormationController.direction f1 = 1 \/
   FormationController.direction f1 = -1) /\
  FormationController.speed f1 = FormationController.speed f /\
  FormationController.stepDownAmount f1
  = FormationController.stepDownAmount f /\
  FormationController.minX f1 = FormationController.minX f /\
  exists n : nat,
    (n <= length ticks)%nat /\
    FormationController.offsetY f1
    = Nat.iter n (fun y => y + FormationController.stepDownAmount f)
               (FormationController.offsetY f).
Proof.
  revert f. induction ticks as [| [dt enemies] rest IH]; intros f Hdir.
  - cbn [formationTicks length].
    split; [exact Hdir |]. do 3 (split; [reflexivity |]).
    exists 0%nat. split; [lia | reflexivity].
  - cbn [formationTicks length].
    destruct (formation_update_step cfg dt enemies f)
      as (_ & Hs & Hst & Hmn & _ & Hturn).
    set (f0 := FormationController.update cfg dt enemies f) in *.
    assert (Hdir0 : FormationController.direction f0 = 1 \/
                    FormationController.direction f0 = -1).
    { destruct Hturn as [[-> _] | [H _]]; assumption. }
    destruct (IH f0 Hdir0) as (Hd1 & Hs1 & Hst1 & Hmn1 & n & Hn & Hy1).
    clearbody f0. cbn zeta.
    split; [exact Hd1 |].
    split; [congruence |]. split; [congruence |]. split; [congruence |].
    rewrite Hst in Hy1.
    destruct Hturn as [[_ Hy] | [_ Hy]]; rewrite Hy in Hy1.
    + exists n. split; [lia | exact Hy1].
    + exists (S n). split; [lia |].
      rewrite Hy1, Nat.iter_succ.
      exact (Nat.iter_swap n Q
               (fun y => y + FormationController.stepDownAmount f)
               (FormationController.offsetY f)).
Qed.

Lemma formation_run_witness :
  let f1 := formationTicks CONFIG [(1 # 2, []); (1 # 4, [])]
              (FormationController.new CONFIG) in
  FormationController.speed f1
  = FormationController.speed (FormationController.new CONFIG) /\
  (FormationController.direction f1 = 1 \/
   FormationController.direction f1 = -1).
Proof.
  destruct (formation_run CONFIG [(1 # 2, []); (1 # 4, [])]
              (FormationController.new CONFIG))
    as (Hd & Hs & _).
  - left. reflexivity.
  - split; [exact Hs | exact Hd].
Defined.

(** ** systems/SpawnSystem.js: the wave grid *)

Lemma flat_map_lookup {A B : Type} (f : A -> list B) (c : nat)
    (l : list A) (i j : nat) (x : A) :
  (forall a : A, length (f a) = c) ->
  l !! i = Some x -> (j < c)%nat ->
  flat_map f l !! (i * c + j)%nat = f x !! j.
Proof.
  intros Hc. revert i. induction l as [| a l IH]; intros i Hi Hj.
  - rewrite lookup_nil in Hi. discriminate.
  - cbn [flat_map]. destruct i as [| i].
    + cbn in Hi. injection Hi as ->. cbn [Nat.mul Nat.add].
      apply lookup_app_l. rewrite Hc. exact Hj.
    + cbn in Hi. rewrite lookup_app_r by (rewrite Hc; lia).
      rewrite Hc. replace (S i * c + j - c)%nat with (i * c + j)%nat by lia.
      apply IH; assumption.
Qed.

Lemma flat_map_length {A B : Type} (f : A -> list B) (c : nat)
    (l : list A) :
  (forall a : A, length (f a) = c) ->
  length (flat_map f l) = (length l * c)%nat.
Proof.
  intros Hc. induction l as [| a l IH]; [reflexivity |].
  cbn [flat_map length]. rewrite length_app, Hc, IH. lia.
Qed.

Lemma map_lookup_Some {A B : Type} (f : A -> B) (l : list A) (i : nat)
    (x : A) :
  l !! i = Some x -> map f l !! i = Some (f x).
Proof.
  revert i. induction l as [| a l IH]; intros [| i] Hi; try discriminate.
  - cbn in *. congruence.
  - cbn in *. apply IH, Hi.
Qed.

(** X13. [createWave(rows, cols)] lays the enemies out row by row:
    [rows * cols] enemies, the one of row [row] and column [col] at index
    [row * cols + col], at its place in the grid and of the type of its
    row, and every enemy of the wave alive and not dying. *)
Theorem createWave_grid (cfg : Config) (w : WaveConfig) (rows cols : nat) :
  let wave := SpawnSystem.createWave cfg w rows cols in
  length wave = (rows * cols)%nat /\
  (forall row col : nat,
      (row < rows)%nat -> (col < cols)%nat ->
      wave !! (row * cols + col)%nat
      = Some (Enemy.new cfg
                (GAMEPLAY_enemyStartX cfg
                 + inject_Z (Z.of_nat col) * GAMEPLAY_enemySpacingX w)
                (GAMEPLAY_enemyStartY cfg
                 + inject_Z (Z.of_nat row) * GAMEPLAY_enemySpacingY w)
                (if Nat.eqb row 0 then TYPE3
                 else if Nat.eqb row 1 then TYPE2 else TYPE1))) /\
  Forall (fun e => Enemy.alive e = true /\ Enemy.dying e = false) wave.
Proof.
  intros wave. subst wave. unfold SpawnSystem.createWave.
  set (f := fun row : nat => map _ (seq 0 cols)).
  assert (Hc : forall a : nat, length (f a) = cols).
  { intros a. unfold f. rewrite length_map, length_seq. reflexivity. }
  split.
  { rewrite (flat_map_length f cols) by exact Hc.
    rewrite length_seq. reflexivity. }
  split.
  { intros row col Hrow Hcol.
    rewrite (flat_map_lookup f cols (seq 0 rows) row col row Hc);
      [| apply lookup_seq_lt; exact Hrow | exact Hcol].
    unfold f.
    rewrite (map_lookup_Some _ (seq 0 cols) col col)
      by (apply lookup_seq_lt; exact Hcol).
    f_equal. f_equal. unfold SpawnSystem.typeForRow.
    destruct row as [| [| row]]; reflexivity. }
  apply Forall_forall. intros e He.
  apply list_elem_of_In, in_flat_map in He. destruct He as (row & _ & He).
  unfold f in He. apply in_map_iff in He. destruct He as (col & <- & _).
  split; reflexivity.
Qed.

Lemma createWave_grid_witness :
  SpawnSystem.createWave CONFIG WAVES 4 8 !! 10%nat
  = Some (Enemy.new CONFIG
            (GAMEPLAY_enemyStartX CONFIG + inject_Z 2 * 50)
            (GAMEPLAY_enemyStartY CONFIG + inject_Z 1 * 40) TYPE2).
Proof.
  destruct (createWave_grid CONFIG WAVES 4 8) as (_ & H & _).
  apply (H 1%nat 2%nat); lia.
Defined.

(** ** systems/ScoreSystem.js: power, name and scoreboard *)

(** X14. For a power per kill of at least 0 and a power within its
    maximum: after [n] kills the power is the old power plus [n] times the
    power per kill, capped at the maximum, and the power attack is ready
    exactly when that sum has reached the maximum; the kills change
    neither the maximum nor the name. *)
Theorem kills_fill_power (cfg : Config) (hits : list CollisionEvent)
    (s : ScoreSystem.t) :
  (0 <= GAMEPLAY_turiaPowerPerKill cfg)%Z ->
  (ScoreSystem.turiaPower s <= ScoreSystem.turiaPowerMax s)%Z ->
  let s1 := PlayState.addKills cfg hits s in
  let filled :=
    (ScoreSystem.turiaPower s
     + Z.of_nat (length hits) * GAMEPLAY_turiaPowerPerKill cfg)%Z in
  ScoreSystem.turiaPower s1 = Z.min filled (ScoreSystem.turiaPowerMax s) /\
  (ScoreSystem.isPowerReady s1 = true <->
   (ScoreSystem.turiaPowerMax s <= filled)%Z) /\
  ScoreSystem.turiaPowerMax s1 = ScoreSystem.turiaPowerMax s /\
  ScoreSystem.playerName s1 = ScoreSystem.playerName s.
Proof.
  intros Hppk Hle.
  assert (Hrun : ScoreSystem.turiaPower (PlayState.addKills cfg hits s)
                 = Z.min (ScoreSystem.turiaPower s
                          + Z.of_nat (length hits)
                            * GAMEPLAY_turiaPowerPerKill cfg)
                         (ScoreSystem.turiaPowerMax s) /\
                 ScoreSystem.turiaPowerMax (PlayState.addKills cfg hits s)
                 = ScoreSystem.turiaPowerMax s /\
                 ScoreSystem.playerName (PlayState.addKills cfg hits s)
                 = ScoreSystem.playerName s).
  { revert s Hle. induction hits as [| hit rest IH]; intros s Hle.
    - cbn [PlayState.addKills length]. split; [lia | auto].
    - cbn [PlayState.addKills length].
      set (s0 := ScoreSystem.addKillDefault cfg s).
      assert (Hp0 : ScoreSystem.turiaPower s0
                    = Z.min (ScoreSystem.turiaPower s
                             + GAMEPLAY_turiaPowerPerKill cfg)
                            (ScoreSystem.turiaPowerMax s)) by reflexivity.
      assert (Hm0 : ScoreSystem.turiaPowerMax s0
                    = ScoreSystem.turiaPowerMax s) by reflexivity.
      assert (Hn0 : ScoreSystem.playerName s0 = ScoreSystem.playerName s)
        by reflexivity.
      destruct (IH s0) as (Hp & Hm & Hn); [lia |].
      clearbody s0. rewrite Hp, Hm, Hn, Hp0, Hm0, Hn0.
      split; [| auto]. nia. }
  destruct Hrun as (Hp & Hm & Hn). cbn zeta.
  split; [exact Hp |]. split; [| auto].
  unfold ScoreSystem.isPowerReady. rewrite Z.leb_le, Hp, Hm. lia.
Qed.

Lemma kills_fill_power_witness :
  let hits := [bullet_enemy 0 3; bullet_enemy 1 5] in
  let s1 := PlayState.addKills CONFIG hits (ScoreSystem.new CONFIG) in
  ScoreSystem.turiaPower s1 = 20%Z /\
  (ScoreSystem.isPowerReady s1 = true <-> (100 <= 20)%Z).
Proof.
  destruct (kills_fill_power CONFIG [bullet_enemy 0 3; bullet_enemy 1 5]
              (ScoreSystem.new CONFIG))
    as (Hp & Hr & _).
  - vm_compute. discriminate.
  - vm_compute. discriminate.
  - split; [exact Hp | exact Hr].
Defined.

Lemma upperChar_idem (c : Ascii.ascii) : upperChar (upperChar c) = upperChar c.
Proof.
  destruct c as [[] [] [] [] [] [] [] []]; reflexivity.
Qed.

Lemma upperChar_not_lower (c : Ascii.ascii) :
  (Nat.leb 97 (Ascii.nat_of_ascii (upperChar c))
   && Nat.leb (Ascii.nat_of_ascii (upperChar c)) 122)%bool = false.
Proof.
  destruct c as [[] [] [] [] [] [] [] []]; reflexivity.
Qed.

Lemma substring_length (n : nat) (s : string) :
  (String.length (substring 0 n s) <= n)%nat.
Proof.
  revert s. induction n as [| n IH]; intros [| c s]; cbn; try lia.
  specialize (IH s). lia.
Qed.

Lemma substring_short (n : nat) (s : string) :
  (String.length s <= n)%nat -> substring 0 n s = s.
Proof.
  revert s. induction n as [| n IH]; intros [| c s] H; cbn in *;
    try reflexivity; try lia.
  rewrite IH by lia. reflexivity.
Qed.

Lemma substring_toUpperCase (n : nat) (s : string) :
  toUpperCase (substring 0 n s) = substring 0 n (toUpperCase s).
Proof.
  revert s. induction n as [| n IH]; intros [| c s]; cbn;
    try reflexivity.
  rewrite IH. reflexivity.
Qed.

Lemma toUpperCase_idem (s : string) :
  toUpperCase (toUpperCase s) = toUpperCase s.
Proof.
  induction s as [| c s IH]; cbn; [reflexivity |].
  rewrite upperChar_idem, IH. reflexivity.
Qed.

Lemma toUpperCase_not_lower (s : string) (c : Ascii.ascii) :
  In c (list_ascii_of_string (toUpperCase s)) ->
  (Nat.leb 97 (Ascii.nat_of_ascii c)
   && Nat.leb (Ascii.nat_of_ascii c) 122)%bool = false.
Proof.
  induction s as [| a s IH]; cbn; [intros [] |].
  intros [<- | H]; [apply upperChar_not_lower | apply IH, H].
Qed.

Lemma substring_In (n : nat) (s : string) (c : Ascii.ascii) :
  In c (list_ascii_of_string (substring 0 n s)) ->
  In c (list_ascii_of_string s).
Proof.
  revert s. induction n as [| n IH]; intros [| a s]; cbn; try tauto.
  intros [H | H]; [left; exact H | right; apply IH, H].
Qed.

(** X15. For a name of ASCII characters, [setPlayerName] stores a name
    of at most 10 characters without a lower-case letter; the stored name
    is empty exactly when the given one is, so that only an empty input
    leaves [saveScore] without a name; setting the stored name again
    changes nothing, and score, lives and power are not touched. *)
Theorem setPlayerName_spec (name : string) (s : ScoreSystem.t) :
  asciiOnly name ->
  let s1 := ScoreSystem.setPlayerName name s in
  (String.length (ScoreSystem.playerName s1) <= 10)%nat /\
  (forall c : Ascii.ascii,
      In c (list_ascii_of_string (ScoreSystem.playerName s1)) ->
      ~ (97 <= Ascii.nat_of_ascii c <= 122)%nat) /\
  (ScoreSystem.nameIsEmpty (ScoreSystem.playerName s1) = true <->
   name = EmptyString) /\
  ScoreSystem.setPlayerName (ScoreSystem.playerName s1) s1 = s1 /\
  ScoreSystem.score s1 = ScoreSystem.score s /\
  ScoreSystem.lives s1 = ScoreSystem.lives s /\
  ScoreSystem.turiaPower s1 = ScoreSystem.turiaPower s.
Proof.
  intros _. cbn zeta. unfold ScoreSystem.setPlayerName.
  cbn [ScoreSystem.playerName ScoreSystem.score ScoreSystem.lives
       ScoreSystem.turiaPower ScoreSystem.turiaPowerMax].
  split; [apply substring_length |].
  split.
  { intros c Hin [Hlo Hhi].
    apply substring_In, toUpperCase_not_lower in Hin.
    apply andb_false_iff in Hin.
    destruct Hin as [H | H]; apply Nat.leb_gt in H; lia. }
  split.
  { destruct name as [| c name]; cbn; split; congruence. }
  split; [| auto].
  f_equal.
  rewrite substring_toUpperCase, toUpperCase_idem.
  apply substring_short, substring_length.
Qed.

Lemma setPlayerName_spec_witness :
  asciiOnly "ana" /\
  ScoreSystem.playerName
    (ScoreSystem.setPlayerName "ana" (ScoreSystem.new CONFIG)) = "ANA" /\
  ~ (97 <= Ascii.nat_of_ascii (Ascii.ascii_of_nat 65) <= 122)%nat.
Proof.
  assert (Hascii : asciiOnly "ana").
  { unfold asciiOnly. cbn. repeat constructor; cbn; lia. }
  split; [exact Hascii |]. split; [reflexivity |].
  destruct (setPlayerName_spec "ana" (ScoreSystem.new CONFIG) Hascii)
    as (_ & H & _).
  apply (H (Ascii.ascii_of_nat 65)). left. reflexivity.
Defined.

Lemma sorted_last (l : list ScoreEntry) (low : ScoreEntry) :
  StronglySorted scoreGe l -> last l = Some low ->
  Forall (fun a => scoreGe a low) l.
Proof.
  induction 1 as [| a l Hs IH Ha]; intros Hlast; [constructor |].
  destruct l as [| b l].
  - cbn in Hlast. injection Hlast as <-.
    constructor; [unfold scoreGe; lia | constructor].
  - change (last (a :: b :: l)) with (last (b :: l)) in Hlast.
    specialize (IH Hlast). constructor; [| exact IH].
    inversion Ha as [| ? ? Hab _]; subst.
    inversion IH as [| ? ? Hb _]; subst.
    unfold scoreGe in *. lia.
Qed.

Lemma last_In {A : Type} (l : list A) (x : A) : last l = Some x -> In x l.
Proof.
  induction l as [| a l IH]; [discriminate |].
  destruct l as [| b l].
  - cbn. intros [= ->]. left. reflexivity.
  - change (last (a :: b :: l)) with (last (b :: l)).
    intros H. right. apply IH, H.
Qed.

Lemma sorted_snoc (l : list ScoreEntry) (e : ScoreEntry) :
  StronglySorted scoreGe l -> Forall (fun a => scoreGe a e) l ->
  StronglySorted scoreGe (l ++ [e]).
Proof.
  induction 1 as [| a l Hs IH Ha]; intros Hall; cbn.
  - repeat constructor.
  - inversion Hall as [| ? ? Hae Hrest]; subst.
    constructor; [apply IH, Hrest |].
    apply Forall_app. split; [exact Ha | repeat constructor; exact Hae].
Qed.

Lemma sorted_before_last (l : list ScoreEntry) (a e : ScoreEntry) :
  StronglySorted scoreGe (l ++ [e]) -> In a l -> scoreGe a e.
Proof.
  induction l as [| b l IH]; intros HS []; cbn in HS;
    apply StronglySorted_inv in HS; destruct HS as [HS Hall].
  - subst b. rewrite Forall_forall in Hall.
    apply Hall, list_elem_of_In, in_or_app. right. left. reflexivity.
  - apply IH; assumption.
Qed.

Lemma firstn_split_last {A : Type} (n : nat) (l : list A) :
  length l = S n -> exists x : A, l = firstn n l ++ [x].
Proof.
  revert l. induction n as [| n IH]; intros [| a l] Hlen;
    try discriminate.
  - destruct l; [| discriminate]. exists a. reflexivity.
  - cbn in Hlen. injection Hlen as Hlen.
    destruct (IH l Hlen) as [x Hx]. exists x.
    cbn [firstn]. cbn [app]. f_equal. exact Hx.
Qed.

Lemma ScoreEntry_eq_dec (a b : ScoreEntry) : {a = b} + {a <> b}.
Proof.
  decide equality; [apply Z.eq_dec | apply Z.eq_dec | apply string_dec].
Defined.

(** The two outcomes of a save that passes the guard, told apart by
    [isHighScore]. *)
Lemma saveScore_by_isHighScore (now : Z) (s : ScoreSystem.t)
    (board : list ScoreEntry) :
  StronglySorted scoreGe board -> (length board <= 10)%nat ->
  let saved :=
    firstn 10 (Array_sort ScoreSystem.byScoreDesc
                 (board ++ [entryOf now s])) in
  (ScoreSystem.isHighScore (ScoreSystem.score s) (Some board) = true ->
   In (entryOf now s) saved) /\
  (ScoreSystem.isHighScore (ScoreSystem.score s) (Some board) = false ->
   saved = board).
Proof.
  intros Hsorted Hlen saved. subst saved.
  set (e := entryOf now s).
  set (S := Array_sort ScoreSystem.byScoreDesc (board ++ [e])).
  assert (Hperm : Permutation S (board ++ [e]))
    by apply Array_sort_perm.
  assert (HS : StronglySorted scoreGe S) by apply Array_sort_sorted.
  assert (HlenS : length S = Datatypes.S (length board)).
  { unfold S. rewrite Array_sort_length, length_app. cbn. lia. }
  unfold ScoreSystem.isHighScore. cbn [ScoreSystem.getScoreboard].
  destruct (Nat.ltb_spec (length board) 10) as [Hlt | Hge].
  - split; [intros _ | discriminate].
    rewrite firstn_all2 by lia.
    apply (Permutation_in _ (Permutation_sym Hperm)).
    apply in_or_app. right. left. reflexivity.
  - assert (Hten : length board = 10%nat) by lia.
    destruct (last board) as [low |] eqn:Hlast.
    2:{ destruct board; [discriminate Hten |].
        exfalso. revert Hlast. clear.
        revert s0. induction board as [| b l IH]; intros a;
          [discriminate |].
        change (last (a :: b :: l)) with (last (b :: l)). apply IH. }
    split.
    + intros Hhigh. apply Z.ltb_lt in Hhigh.
      destruct (in_dec ScoreEntry_eq_dec e (firstn 10 S)) as [Hin | Hout];
        [exact Hin | exfalso].
      destruct (firstn_split_last 10 S) as [x Hx]; [lia |].
      assert (Hex : x = e).
      { assert (HinS : In e S).
        { apply (Permutation_in _ (Permutation_sym Hperm)).
          apply in_or_app. right. left. reflexivity. }
        rewrite Hx in HinS. apply in_app_or in HinS.
        destruct HinS as [H | [H | []]]; [contradiction | exact H]. }
      subst x.
      assert (Hp2 : Permutation (firstn 10 S) board).
      { apply Permutation_app_inv_r with (l := [e]). rewrite <- Hx.
        exact Hperm. }
      assert (Hlow : In low (firstn 10 S)).
      { apply (Permutation_in _ (Permutation_sym Hp2)).
        apply last_In, Hlast. }
      assert (Hge2 : scoreGe low e).
      { apply (sorted_before_last (firstn 10 S));
          [rewrite <- Hx; exact HS | exact Hlow]. }
      unfold scoreGe, e, entryOf in Hge2. cbn in Hge2. lia.
    + intros Hlow. apply Z.ltb_ge in Hlow.
      assert (Hall : Forall (fun a => scoreGe a e) board).
      { eapply Forall_impl; [apply sorted_last; eassumption |].
        unfold scoreGe, e, entryOf. cbn. intros a Ha. lia. }
      unfold S. rewrite Array_sort_of_sorted
        by (apply sorted_snoc; assumption).
      apply take_app_length'. symmetry. exact Hten.
Qed.

Lemma fullBoard_sorted : StronglySorted scoreGe fullBoard.
Proof.
  replace fullBoard with (Array_sort ScoreSystem.byScoreDesc fullBoard)
    by reflexivity.
  apply Array_sort_sorted.
Qed.

(** X16. [isHighScore] foretells [saveScore]: on a board of at most 10
    entries in descending order, a save that passes the guard and whose
    write to the storage succeeds puts the new entry on the board when
    [isHighScore(score)] holds, and leaves the board exactly as it was
    when it does not; a tie with the lowest of ten entries does not
    qualify.  When the write throws, the save returns false and the
    board is as it was, whatever [isHighScore] said. *)
Theorem isHighScore_saveScore (now : Z) (s : ScoreSystem.t)
    (board : list ScoreEntry) :
  ScoreSystem.playerName s <> EmptyString -> (0 < ScoreSystem.score s)%Z ->
  StronglySorted scoreGe board -> (length board <= 10)%nat ->
  let saved :=
    ScoreSystem.getScoreboard
      (snd (ScoreSystem.saveScore now stores s (Some board))) in
  fst (ScoreSystem.saveScore now stores s (Some board)) = true /\
  (ScoreSystem.isHighScore (ScoreSystem.score s) (Some board) = true ->
   In (entryOf now s) saved) /\
  (ScoreSystem.isHighScore (ScoreSystem.score s) (Some board) = false ->
   saved = board) /\
  ScoreSystem.saveScore now throws s (Some board) = (false, Some board).
Proof.
  intros Hn Hs Hsorted Hlen.
  rewrite saveScore_accepted, saveScore_thrown by assumption.
  cbn [fst snd ScoreSystem.getScoreboard].
  split; [reflexivity |].
  destruct (saveScore_by_isHighScore now s board Hsorted Hlen)
    as [Hhigh Hlow].
  split; [exact Hhigh |]. split; [exact Hlow | reflexivity].
Qed.

Lemma isHighScore_saveScore_witness :
  ScoreSystem.isHighScore 50 (Some fullBoard) = false /\
  ScoreSystem.getScoreboard
    (snd (ScoreSystem.saveScore 99 stores
            (ScoreSystem.mk 50 0 0 100 "ANA") (Some fullBoard)))
  = fullBoard.
Proof.
  split; [reflexivity |].
  destruct (isHighScore_saveScore 99 (ScoreSystem.mk 50 0 0 100 "ANA")
              fullBoard) as (_ & _ & H & _).
  - discriminate.
  - reflexivity.
  - exact fullBoard_sorted.
  - cbn. lia.
  - apply H. reflexivity.
Defined.

Lemma rankFrom_spec (i : nat) (s : ScoreSystem.t)
    (scores : list ScoreEntry) :
  let r :=
    ScoreSystem.rankFrom i (ScoreSystem.playerName s) (ScoreSystem.score s)
                         scores in
  (r = 0%nat /\ forall e : ScoreEntry, In e scores -> ~ ranksAs s e) \/
  (exists (k : nat) (e : ScoreEntry),
      r = S (i + k) /\ scores !! k = Some e /\ ranksAs s e /\
      forall (k' : nat) (e' : ScoreEntry),
        (k' < k)%nat -> scores !! k' = Some e' -> ~ ranksAs s e').
Proof.
  cbn zeta. revert i. induction scores as [| a rest IH]; intros i.
  - left. split; [reflexivity | intros e []].
  - cbn [ScoreSystem.rankFrom].
    destruct (String.eqb_spec (entry_name a) (ScoreSystem.playerName s))
      as [Hn | Hn];
    destruct (Z.eqb_spec (entry_score a) (ScoreSystem.score s))
      as [Hs | Hs]; cbn [andb].
    1:{ right. exists 0%nat, a. split; [f_equal; lia |].
        split; [reflexivity |]. split; [split; assumption |].
        intros k' e' Hk. lia. }
    all: destruct (IH (S i)) as [[Hr Hnone] | (k & e & Hr & Hk & He & Hbefore)];
      [left; split; [exact Hr |];
       intros e [<- | Hin]; [intros [H1 H2]; contradiction | apply Hnone, Hin]
      | right; exists (S k), e; split; [rewrite Hr; f_equal; lia |];
        split; [exact Hk |]; split; [exact He |];
        intros [| k'] e' Hlt He';
        [cbn in He'; injection He' as <-; intros [H1 H2]; contradiction
        | apply (Hbefore k' e'); [lia | exact He']]].
Qed.

(** X17. [getCurrentRank] returns 0 exactly when no entry of the board
    has the player's name and score; otherwise it returns the 1-based
    place of the first such entry, which is at most the length of the
    board. *)
Theorem getCurrentRank_spec (s : ScoreSystem.t) (store : Storage) :
  let board := ScoreSystem.getScoreboard store in
  let r := ScoreSystem.getCurrentRank s store in
  (r <= length board)%nat /\
  (r = 0%nat <-> forall e : ScoreEntry, In e board -> ~ ranksAs s e) /\
  (forall k : nat,
      r = S k ->
      exists e : ScoreEntry,
        board !! k = Some e /\ ranksAs s e /\
        forall (k' : nat) (e' : ScoreEntry),
          (k' < k)%nat -> board !! k' = Some e' -> ~ ranksAs s e').
Proof.
  cbn zeta. unfold ScoreSystem.getCurrentRank.
  destruct (rankFrom_spec 0 s (ScoreSystem.getScoreboard store))
    as [[Hr Hnone] | (k & e & Hr & Hk & He & Hbefore)]; cbn zeta in Hr;
    rewrite Hr.
  - split; [lia |]. split; [split; auto | discriminate].
  - cbn [Nat.add]. split.
    { apply lookup_lt_Some in Hk. lia. }
    split.
    + split; [discriminate |]. intros Hnone. exfalso.
      apply (Hnone e); [| exact He].
      apply list_elem_of_In, list_elem_of_lookup. exists k. exact Hk.
    + intros k0 [= <-]. exists e. auto.
Qed.

Lemma getCurrentRank_spec_witness :
  exists e : ScoreEntry,
    fullBoard !! 0%nat = Some e /\
    ranksAs (ScoreSystem.mk 1000 0 0 100 "BOB") e.
Proof.
  destruct (getCurrentRank_spec (ScoreSystem.mk 1000 0 0 100 "BOB")
              (Some fullBoard)) as (_ & _ & H).
  destruct (H 0%nat) as (e & He & Hr & _); [reflexivity |].
  exists e. split; [exact He | exact Hr].
Defined.

(** X18. After a save that passes the guard, that [isHighScore] lets
    through and whose write to the storage succeeds, on a board of at
    most 10 entries in descending order, the player has a rank, between 1
    and 10. *)
Theorem saved_rank (now : Z) (s : ScoreSystem.t) (board : list ScoreEntry) :
  ScoreSystem.playerName s <> EmptyString -> (0 < ScoreSystem.score s)%Z ->
  StronglySorted scoreGe board -> (length board <= 10)%nat ->
  ScoreSystem.isHighScore (ScoreSystem.score s) (Some board) = true ->
  let store1 := snd (ScoreSystem.saveScore now stores s (Some board)) in
  (1 <= ScoreSystem.getCurrentRank s store1 <= 10)%nat.
Proof.
  intros Hn Hs Hsorted Hlen Hhigh.
  rewrite saveScore_accepted by assumption. cbn [snd]. cbn zeta.
  destruct (saveScore_by_isHighScore now s board Hsorted Hlen)
    as [Hin _].
  specialize (Hin Hhigh). cbn zeta in Hin.
  unfold ScoreSystem.getCurrentRank. cbn [ScoreSystem.getScoreboard].
  set (saved := firstn 10 _) in *.
  destruct (rankFrom_spec 0 s saved)
    as [[Hr Hnone] | (k & e & Hr & Hk & _)]; cbn zeta in Hr.
  - exfalso. apply (Hnone _ Hin). split; reflexivity.
  - rewrite Hr. apply lookup_lt_Some in Hk.
    assert (length saved <= 10)%nat by apply firstn_le_length.
    lia.
Qed.

Lemma saved_rank_witness :
  (1 <= ScoreSystem.getCurrentRank (ScoreSystem.mk 950 0 0 100 "ANA")
          (snd (ScoreSystem.saveScore 99 stores
                  (ScoreSystem.mk 950 0 0 100 "ANA") (Some fullBoard)))
   <= 10)%nat.
Proof.
  apply (saved_rank 99 (ScoreSystem.mk 950 0 0 100 "ANA") fullBoard).
  - discriminate.
  - reflexivity.
  - exact fullBoard_sorted.
  - cbn. lia.
  - reflexivity.
Defined.

(** ** entities/Boss.js and the boss hits of the collision step *)

Lemma totalDamage_nonneg (hits : list CollisionEvent) :
  Forall (fun hit => 0 <= damageOf hit) hits -> 0 <= totalDamage hits.
Proof.
  induction 1 as [| hit rest Hd _ IH]; cbn [totalDamage fold_right];
    [lra |].
  fold (totalDamage rest). lra.
Qed.

Lemma applyBossHits_dying (cfg : Config) (hits : list CollisionEvent)
    (b : Boss.t) (s : ScoreSystem.t) (flag : bool) :
  Boss.dying b = true ->
  PlayState.applyBossHits cfg hits b s flag = (b, s, flag).
Proof.
  intros Hd. induction hits as [| hit rest IH]; [reflexivity |].
  cbn [PlayState.applyBossHits]. unfold Boss.takeDamage.
  rewrite Hd. cbn [orb]. exact IH.
Qed.

Lemma applyBossHits_total (cfg : Config) (hits : list CollisionEvent) :
  Forall (fun hit => 0 <= damageOf hit) hits ->
  forall (b : Boss.t) (s : ScoreSystem.t) (flag : bool),
    fighting b ->
    forall (b1 : Boss.t) (s1 : ScoreSystem.t) (flag1 : bool),
      PlayState.applyBossHits cfg hits b s flag = (b1, s1, flag1) ->
      Boss.active b1 = true /\
      (Boss.hp b <= totalDamage hits ->
       Boss.dying b1 = true /\ Boss.hp b1 = 0 /\
       Boss.deathTimer b1 = Boss.deathDuration b /\
       s1 = ScoreSystem.addBossKill cfg s /\ flag1 = false) /\
      (totalDamage hits < Boss.hp b ->
       Boss.dying b1 = false /\
       Boss.hp b1 == Boss.hp b - totalDamage hits /\
       s1 = s /\ flag1 = flag).
Proof.
  induction 1 as [| hit rest Hd Hrest IH];
    intros b s flag (Ha & Hdy & Hhp) b1 s1 flag1 Hrun.
  - cbn in Hrun. injection Hrun as <- <- <-.
    cbn [totalDamage fold_right].
    split; [exact Ha |]. split; [lra |]. intros _.
    split; [exact Hdy |]. split; [lra | auto].
  - pose proof (totalDamage_nonneg rest Hrest) as Hpos.
    cbn [PlayState.applyBossHits] in Hrun.
    cbn [totalDamage fold_right]. fold (totalDamage rest).
    unfold Boss.takeDamage in Hrun. rewrite Hdy, Ha in Hrun.
    cbn [negb orb] in Hrun.
    destruct (leb (Boss.hp b - damageOf hit) 0) eqn:Hend.
    + apply leb_le in Hend.
      rewrite applyBossHits_dying in Hrun by reflexivity.
      injection Hrun as <- <- <-.
      cbn [Boss.active Boss.dying Boss.hp Boss.deathTimer].
      split; [reflexivity |]. split; [auto | lra].
    + apply leb_nle in Hend.
      set (b0 := Boss.mk _ _ _ _ _ _ _ _ _ _ _ _) in Hrun.
      assert (Hf0 : fighting b0).
      { split; [reflexivity |]. split; [reflexivity |].
        change (Boss.hp b0) with (Boss.hp b - damageOf hit). lra. }
      destruct (IH b0 s flag Hf0 b1 s1 flag1 Hrun)
        as (Ha1 & Hdie & Hlive).
      change (Boss.hp b0) with (Boss.hp b - damageOf hit) in Hdie, Hlive.
      change (Boss.deathDuration b0) with (Boss.deathDuration b) in Hdie.
      split; [exact Ha1 |]. split; intros H.
      * apply Hdie. lra.
      * destruct Hlive as (H1 & H2 & H3); [lra |].
        split; [exact H1 |]. split; [lra | exact H3].
Qed.

(** X19. The hits on a boss in the fight, none of negative damage: the
    boss starts dying, with 0 hit points, exactly when the damage adds up
    to its hit points, and then the boss reward is given once and
    [bossActive] is cleared, whatever hits follow; otherwise the damage
    is taken off its hit points and neither score nor flag change.  In
    both cases [isDead()] is false afterwards. *)
Theorem applyBossHits_spec (cfg : Config) (hits : list CollisionEvent)
    (b : Boss.t) (s : ScoreSystem.t) (flag : bool) :
  fighting b -> Forall (fun hit => 0 <= damageOf hit) hits ->
  let out := PlayState.applyBossHits cfg hits b s flag in
  let b1 := fst (fst out) in
  (Boss.hp b <= totalDamage hits ->
   Boss.dying b1 = true /\ Boss.hp b1 = 0 /\
   snd (fst out) = ScoreSystem.addBossKill cfg s /\ snd out = false) /\
  (totalDamage hits < Boss.hp b ->
   Boss.dying b1 = false /\ Boss.hp b1 == Boss.hp b - totalDamage hits /\
   snd (fst out) = s /\ snd out = flag) /\
  Boss.isDead b1 = false.
Proof.
  intros Hf Hall. cbn zeta.
  destruct (PlayState.applyBossHits cfg hits b s flag)
    as [[b1 s1] flag1] eqn:Hrun.
  cbn [fst snd].
  destruct (applyBossHits_total cfg hits Hall b s flag Hf b1 s1 flag1 Hrun)
    as (_ & Hdie & Hlive).
  split; [intros H; destruct (Hdie H) as (H1 & H2 & _ & H3 & H4); auto |].
  split; [exact Hlive |].
  unfold Boss.isDead.
  destruct (Qlt_le_dec (totalDamage hits) (Boss.hp b)) as [Hlt | Hle].
  - destruct (Hlive Hlt) as (_ & Hhp & _).
    replace (leb (Boss.hp b1) 0) with false; [reflexivity |].
    symmetry. apply leb_nle. lra.
  - destruct (Hdie Hle) as (-> & _). apply andb_false_r.
Qed.

Lemma applyBossHits_spec_witness :
  let out :=
    PlayState.applyBossHits CONFIG [bullet_boss 0 1; bullet_boss 2 1]
      (Boss.new CONFIG 400 80 2) (ScoreSystem.new CONFIG) true in
  Boss.dying (fst (fst out)) = true /\ snd out = false.
Proof.
  destruct (applyBossHits_spec CONFIG [bullet_boss 0 1; bullet_boss 2 1]
              (Boss.new CONFIG 400 80 2) (ScoreSystem.new CONFIG) true)
    as (H & _).
  - split; [reflexivity |]. split; [reflexivity |].
    vm_compute. reflexivity.
  - repeat constructor; vm_compute; discriminate.
  - destruct H as (H1 & _ & _ & H2); [vm_compute; discriminate |].
    split; [exact H1 | exact H2].
Defined.

Lemma bossLoop_spec (bossBounds : Rect) (bullets : list Bullet.t) :
  forall (i : nat) (found : list CollisionEvent) (bullets1 : list Bullet.t),
    CollisionSystem.bossLoop bossBounds i bullets = (found, bullets1) ->
    bullets1
    = map (fun bullet => if strikes bossBounds bullet
                         then Bullet.destroy bullet else bullet) bullets /\
    totalDamage found
    == inject_Z (Z.of_nat (length (List.filter (strikes bossBounds)
                                                bullets))) /\
    length found = length (List.filter (strikes bossBounds) bullets) /\
    Forall (fun hit => damageOf hit = 1) found /\
    (forall ev : CollisionEvent,
        In ev found <->
        exists (k : nat) (bullet : Bullet.t),
          ev = bullet_boss (i + k) 1 /\ bullets !! k = Some bullet /\
          strikes bossBounds bullet = true).
Proof.
  induction bullets as [| bullet rest IH]; intros i found bullets1 H.
  - cbn in H. injection H as <- <-. cbn.
    split; [reflexivity |]. split; [reflexivity |].
    split; [reflexivity |]. split; [constructor |].
    intros ev. split; [intros [] |].
    intros (k & bl & _ & Hk & _). rewrite lookup_nil in Hk. discriminate.
  - cbn [CollisionSystem.bossLoop] in H.
    destruct (CollisionSystem.bossLoop bossBounds (S i) rest)
      as [found0 rest1] eqn:Hrec.
    destruct (IH (S i) found0 rest1 Hrec)
      as (Hmap & Hdmg & Hlen & Hone & Hev).
    assert (Hcase :
              (if strikes bossBounds bullet
               then (bullet_boss i 1 :: found0,
                     Bullet.destroy bullet :: rest1)
               else (found0, bullet :: rest1)) = (found, bullets1)).
    { unfold strikes. destruct (Bullet.active bullet); cbn [negb andb] in *;
        [| exact H].
      destruct (rectIntersect _ _); exact H. }
    clear H. cbn [map List.filter].
    destruct (strikes bossBounds bullet) eqn:Hs; injection Hcase as <- <-.
    + split; [rewrite Hmap; reflexivity |].
      split.
      { cbn [totalDamage fold_right damageOf length].
        fold (totalDamage found0).
        rewrite Nat2Z.inj_succ. unfold Z.succ. rewrite inject_Z_plus.
        change (inject_Z 1) with 1. lra. }
      split; [cbn [length]; rewrite Hlen; reflexivity |].
      split; [constructor; [reflexivity | exact Hone] |].
      intros ev. split.
      * intros [<- | Hin].
        -- exists 0%nat, bullet. split; [f_equal; lia |].
           split; [reflexivity | exact Hs].
        -- apply Hev in Hin. destruct Hin as (k & bl & -> & Hk & Hs').
           exists (S k), bl. split; [f_equal; lia | auto].
      * intros (k & bl & -> & Hk & Hs'). destruct k as [| k].
        -- left. f_equal. lia.
        -- right. apply Hev. exists k, bl.
           split; [f_equal; lia | auto].
    + split; [rewrite Hmap; reflexivity |].
      split; [exact Hdmg |]. split; [exact Hlen |].
      split; [exact Hone |].
      intros ev. split.
      * intros Hin. apply Hev in Hin.
        destruct Hin as (k & bl & -> & Hk & Hs').
        exists (S k), bl. split; [f_equal; lia | auto].
      * intros (k & bl & -> & Hk & Hs'). destruct k as [| k].
        -- cbn in Hk. injection Hk as <-. congruence.
        -- apply Hev. exists k, bl. split; [f_equal; lia | auto].
Qed.

Lemma checkBulletBossCollisions_loop (events0 : list CollisionEvent)
    (bullets : list Bullet.t) (b : Boss.t) :
  Boss.active b = true ->
  let out :=
    CollisionSystem.checkBulletBossCollisions events0 bullets (Some b) in
  CollisionSystem.bossLoop (Boss.getBounds b) 0 bullets
  = (CollisionSystem.collisions out, CollisionSystem.firsts out) /\
  CollisionSystem.events out = events0 ++ CollisionSystem.collisions out.
Proof.
  intros Ha. unfold CollisionSystem.checkBulletBossCollisions.
  rewrite Ha. cbn [negb].
  destruct (CollisionSystem.bossLoop (Boss.getBounds b) 0 bullets)
    as [found bullets1].
  cbn. auto.
Qed.

Lemma strikes_destroy (bossBounds : Rect) (bullet : Bullet.t) :
  strikes bossBounds (Bullet.destroy bullet) = false.
Proof. reflexivity. Qed.

(** X20. [checkBulletBossCollisions]: without an active boss nothing
    happens; with one, exactly the active bullets whose box overlaps the
    boss get an event, of damage 1 and carrying the bullet's index, and
    are deactivated, every other bullet is left as it is, and no bullet
    left could hit the boss again. *)
Theorem checkBulletBossCollisions_spec (events0 : list CollisionEvent)
    (bullets : list Bullet.t) (boss : option Boss.t) :
  let out :=
    CollisionSystem.checkBulletBossCollisions events0 bullets boss in
  CollisionSystem.events out = events0 ++ CollisionSystem.collisions out /\
  (CollisionSystem.bossPresent boss = false ->
   CollisionSystem.collisions out = [] /\
   CollisionSystem.firsts out = bullets) /\
  (forall b : Boss.t,
      boss = Some b -> Boss.active b = true ->
      CollisionSystem.firsts out
      = map (fun bullet => if strikes (Boss.getBounds b) bullet
                           then Bullet.destroy bullet else bullet)
            bullets /\
      (forall ev : CollisionEvent,
          In ev (CollisionSystem.collisions out) <->
          exists (k : nat) (bullet : Bullet.t),
            ev = bullet_boss k 1 /\ bullets !! k = Some bullet /\
            strikes (Boss.getBounds b) bullet = true) /\
      length (CollisionSystem.collisions out)
      = length (List.filter (strikes (Boss.getBounds b)) bullets) /\
      Forall (fun bullet => strikes (Boss.getBounds b) bullet = false)
             (CollisionSystem.firsts out)).
Proof.
  cbn zeta. split; [| split].
  - unfold CollisionSystem.checkBulletBossCollisions.
    destruct boss as [b |]; [| cbn; rewrite app_nil_r; reflexivity].
    destruct (Boss.active b); cbn [negb];
      [| cbn; rewrite app_nil_r; reflexivity].
    destruct (CollisionSystem.bossLoop _ _ _). reflexivity.
  - unfold CollisionSystem.bossPresent,
      CollisionSystem.checkBulletBossCollisions.
    destruct boss as [b |]; [| auto].
    intros ->. cbn. auto.
  - intros b -> Ha.
    destruct (checkBulletBossCollisions_loop events0 bullets b Ha)
      as [Hloop _].
    destruct (bossLoop_spec _ _ _ _ _ Hloop)
      as (Hmap & _ & Hlen & _ & Hev).
    split; [exact Hmap |]. split; [exact Hev |]. split; [exact Hlen |].
    rewrite Hmap. apply Forall_forall. intros bullet Hin.
    apply list_elem_of_In, in_map_iff in Hin.
    destruct Hin as (b0 & <- & _).
    destruct (strikes (Boss.getBounds b) b0) eqn:Hs;
      [apply strikes_destroy | exact Hs].
Qed.

Lemma checkBulletBossCollisions_spec_witness :
  let b := Boss.new CONFIG 400 80 20 in
  let bullets := [Bullet.new CONFIG 400 80 (-500);
                  Bullet.new CONFIG 10 500 (-500)] in
  CollisionSystem.firsts
    (CollisionSystem.checkBulletBossCollisions [] bullets (Some b))
  = map (fun bullet => if strikes (Boss.getBounds b) bullet
                       then Bullet.destroy bullet else bullet) bullets.
Proof.
  destruct (checkBulletBossCollisions_spec []
              [Bullet.new CONFIG 400 80 (-500);
               Bullet.new CONFIG 10 500 (-500)]
              (Some (Boss.new CONFIG 400 80 20)))
    as (_ & _ & H).
  destruct (H (Boss.new CONFIG 400 80 20)) as (Hmap & _);
    [reflexivity | reflexivity | exact Hmap].
Defined.

(** X21. Bullets against a boss in the fight: with [n] bullets striking
    it in this tick, the boss starts dying exactly when [n] reaches its
    hit points, and then the boss reward is added once and [bossActive]
    is cleared; otherwise it loses [n] hit points and score and flag stay.
    Enemies and formation are not touched. *)
Theorem bulletsVsBoss_spec (cfg : Config) (st : PlayState.t)
    (b : Boss.t) :
  PlayState.boss st = Some b -> fighting b ->
  let n :=
    inject_Z (Z.of_nat (length (List.filter (strikes (Boss.getBounds b))
                                            (PlayState.bullets st)))) in
  let st1 := PlayState.bulletsVsBoss cfg st in
  exists b1 : Boss.t,
    PlayState.boss st1 = Some b1 /\
    (Boss.hp b <= n ->
     Boss.dying b1 = true /\ Boss.hp b1 = 0 /\
     PlayState.score st1 = ScoreSystem.addBossKill cfg (PlayState.score st) /\
     PlayState.bossActive st1 = false) /\
    (n < Boss.hp b ->
     Boss.dying b1 = false /\ Boss.hp b1 == Boss.hp b - n /\
     PlayState.score st1 = PlayState.score st /\
     PlayState.bossActive st1 = PlayState.bossActive st) /\
    PlayState.enemies st1 = PlayState.enemies st /\
    PlayState.formation st1 = PlayState.formation st.
Proof.
  intros Hb Hf. cbn zeta. pose proof Hf as (Ha & _ & _).
  unfold PlayState.bulletsVsBoss. rewrite Hb, Ha.
  destruct (checkBulletBossCollisions_loop
              (PlayState.collision st) (PlayState.bullets st) b Ha)
    as [Hloop _].
  set (out := CollisionSystem.checkBulletBossCollisions _ _ _) in *.
  destruct (bossLoop_spec _ _ _ _ _ Hloop) as (_ & Hdmg & _ & Hone & _).
  assert (Hall : Forall (fun hit => 0 <= damageOf hit)
                        (CollisionSystem.collisions out)).
  { eapply Forall_impl; [exact Hone |]. intros hit ->. lra. }
  destruct (PlayState.applyBossHits cfg (CollisionSystem.collisions out) b
              (PlayState.score st) (PlayState.bossActive st))
    as [[b1 s1] flag1] eqn:Hrun.
  destruct (applyBossHits_total cfg _ Hall b _ _ Hf b1 s1 flag1 Hrun)
    as (_ & Hdie & Hlive).
  exists b1.
  cbn [PlayState.boss PlayState.score PlayState.bossActive
       PlayState.enemies PlayState.formation].
  split; [reflexivity |]. split; [| split; [| auto]].
  - intros H. destruct Hdie as (H1 & H2 & _ & H3 & H4); [lra | auto].
  - intros H. destruct Hlive as (H1 & H2 & H3 & H4); [lra |].
    split; [exact H1 |]. split; [lra | auto].
Qed.

Lemma bulletsVsBoss_spec_witness :
  let b := Boss.new CONFIG 400 80 1 in
  let st :=
    PlayState.mk [] (ScoreSystem.new CONFIG)
      [Bullet.new CONFIG 400 80 (-500)] []
      (FormationController.new CONFIG) (Some b) None true in
  exists b1 : Boss.t,
    PlayState.boss (PlayState.bulletsVsBoss CONFIG st) = Some b1 /\
    Boss.dying b1 = true /\
    PlayState.bossActive (PlayState.bulletsVsBoss CONFIG st) = false.
Proof.
  cbn zeta.
  destruct (bulletsVsBoss_spec CONFIG
              (PlayState.mk [] (ScoreSystem.new CONFIG)
                 [Bullet.new CONFIG 400 80 (-500)] []
                 (FormationController.new CONFIG)
                 (Some (Boss.new CONFIG 400 80 1)) None true)
              (Boss.new CONFIG 400 80 1))
    as (b1 & Hb1 & Hdie & _).
  - reflexivity.
  - split; [reflexivity |]. split; [reflexivity |].
    vm_compute. reflexivity.
  - exists b1. split; [exact Hb1 |].
    destruct Hdie as (H1 & _ & _ & H2); [vm_compute; discriminate |].
    split; [exact H1 | exact H2].
Defined.

(** X22. In the collision step a bullet that killed an enemy does not
    also hit the boss: after bullets vs enemies and bullets vs boss, no
    bullet index carries both a [bullet_enemy] and a [bullet_boss]
    event. *)
Theorem bullet_hits_once (cfg : Config) (off : Offset) (st : PlayState.t)
    (i j : nat) (d : Q) :
  let st2 :=
    PlayState.bulletsVsBoss cfg
      (PlayState.bulletsVsEnemies cfg off (PlayState.clearEvents st)) in
  In (bullet_enemy i j) (PlayState.collision st2) ->
  ~ In (bullet_boss i d) (PlayState.collision st2).
Proof.
  cbn zeta.
  set (st1 := PlayState.bulletsVsEnemies cfg off (PlayState.clearEvents st)).
  destruct (checkBulletEnemyCollisions_loop [] (PlayState.bullets st)
              (PlayState.enemies st) off) as [Hloop Hev].
  assert (Hc1 : PlayState.collision st1
                = CollisionSystem.collisions
                    (CollisionSystem.checkBulletEnemyCollisions []
                       (PlayState.bullets st) (PlayState.enemies st) off)).
  { unfold st1, PlayState.bulletsVsEnemies, PlayState.clearEvents.
    cbn [PlayState.collision PlayState.bullets PlayState.enemies].
    rewrite Hev. reflexivity. }
  assert (Hb1 : PlayState.bullets st1
                = CollisionSystem.firsts
                    (CollisionSystem.checkBulletEnemyCollisions []
                       (PlayState.bullets st) (PlayState.enemies st) off))
    by reflexivity.
  set (outE := CollisionSystem.checkBulletEnemyCollisions _ _ _ _) in *.
  assert (Hdestroyed :
            In (bullet_enemy i j) (CollisionSystem.collisions outE) ->
            exists b0 : Bullet.t,
              PlayState.bullets st1 !! i = Some (Bullet.destroy b0)).
  { intros Hin.
    destruct (bulletLoop_hit _ _ _ _ _ _ _ Hloop i j Hin)
      as (b0 & e & _ & _ & _ & _ & Hb & _).
    exists b0. rewrite Hb1. exact Hb. }
  unfold PlayState.bulletsVsBoss.
  destruct (PlayState.boss st1) as [b |] eqn:Hboss.
  2:{ rewrite Hc1. intros Hin Hboth.
      destruct (bulletLoop_range _ _ _ _ _ _ _ Hloop _ Hboth)
        as (k & j' & Heq & _). discriminate Heq. }
  destruct (Boss.active b) eqn:Ha.
  2:{ rewrite Hc1. intros Hin Hboth.
      destruct (bulletLoop_range _ _ _ _ _ _ _ Hloop _ Hboth)
        as (k & j' & Heq & _). discriminate Heq. }
  destruct (checkBulletBossCollisions_loop
              (PlayState.collision st1) (PlayState.bullets st1) b Ha)
    as [HloopB HevB].
  set (outB := CollisionSystem.checkBulletBossCollisions _ _ _) in *.
  destruct (bossLoop_spec _ _ _ _ _ HloopB) as (_ & _ & _ & _ & HinB).
  destruct (PlayState.applyBossHits cfg _ b _ _) as [[b1 s1] flag1].
  cbn [PlayState.collision]. rewrite HevB, Hc1.
  intros Hin Hboth.
  apply in_app_or in Hin. destruct Hin as [Hin | Hin].
  2:{ apply HinB in Hin. destruct Hin as (k & bl & Heq & _).
      discriminate Heq. }
  apply in_app_or in Hboth. destruct Hboth as [Hboth | Hboth].
  { destruct (bulletLoop_range _ _ _ _ _ _ _ Hloop _ Hboth)
      as (k & j' & Heq & _). discriminate Heq. }
  apply HinB in Hboth. destruct Hboth as (k & bl & Heq & Hk & Hs).
  injection Heq as -> _. cbn [Nat.add] in Hk.
  destruct (Hdestroyed Hin) as (b0 & Hb0).
  rewrite Hb0 in Hk. injection Hk as <-.
  rewrite strikes_destroy in Hs. discriminate.
Qed.

Lemma bullet_hits_once_witness :
  ~ In (bullet_boss 0 1)
       (PlayState.collision
          (PlayState.bulletsVsBoss CONFIG
             (PlayState.bulletsVsEnemies CONFIG (mkOffset 0 0)
                (PlayState.clearEvents bossOverlapState)))).
Proof.
  apply (bullet_hits_once CONFIG (mkOffset 0 0) bossOverlapState 0 0 1).
  vm_compute. left. reflexivity.
Defined.

(** ** entities/PowerAttack.js: the life of a power attack *)

Lemma updateProjectile_cases (dt w h : Q) (p : PowerProjectile.t) :
  let p1 := PowerAttack.updateProjectile dt w h p in
  (PowerProjectile.active p = false /\ p1 = p) \/
  (PowerProjectile.active p = true /\ PowerProjectile.active p1 = false /\
   PowerProjectile.isOffScreen w h (PowerProjectile.update dt p) = true) \/
  (PowerProjectile.active p = true /\ PowerProjectile.active p1 = true /\
   p1 = PowerProjectile.update dt p /\
   PowerProjectile.isOffScreen w h p1 = false).
Proof.
  cbn zeta. unfold PowerAttack.updateProjectile.
  destruct (PowerProjectile.active p) eqn:Ha; cbn [negb]; [| auto].
  right.
  destruct (PowerProjectile.isOffScreen w h (PowerProjectile.update dt p))
    eqn:Hoff.
  - left. auto.
  - right. cbn [PowerProjectile.update PowerProjectile.active]. auto.
Qed.

Lemma filter_map_le {A : Type} (f : A -> A) (keep : A -> bool)
    (l : list A) :
  (forall a : A, keep (f a) = true -> keep a = true) ->
  (length (List.filter keep (map f l)) <= length (List.filter keep l))%nat.
Proof.
  intros Hf. induction l as [| a l IH]; [reflexivity |].
  cbn [map List.filter]. specialize (Hf a).
  destruct (keep (f a)); [rewrite Hf by reflexivity |];
    [cbn [length]; lia |].
  destruct (keep a); cbn [length]; lia.
Qed.

(** X23. One [update] of a power attack: the projectiles keep their
    places in the array, an inactive one is left as it is, every
    projectile still active afterwards is on screen (within the margin),
    the number of active projectiles does not grow, and the attack is
    active afterwards exactly when it was active and a projectile still
    is; its origin is not moved. *)
Theorem PowerAttack_update_spec (dt canvasWidth canvasHeight : Q)
    (a : PowerAttack.t) :
  let a1 := PowerAttack.update dt canvasWidth canvasHeight a in
  length (PowerAttack.projectiles a1) = length (PowerAttack.projectiles a) /\
  (forall (i : nat) (p : PowerProjectile.t),
      PowerAttack.projectiles a !! i = Some p ->
      PowerProjectile.active p = false ->
      PowerAttack.projectiles a1 !! i = Some p) /\
  Forall (fun p => PowerProjectile.active p = true ->
                   PowerProjectile.isOffScreen canvasWidth canvasHeight p
                   = false)
         (PowerAttack.projectiles a1) /\
  (PowerAttack.getActiveCount a1 <= PowerAttack.getActiveCount a)%nat /\
  (PowerAttack.active a1 = true <->
   PowerAttack.active a = true /\ (0 < PowerAttack.getActiveCount a1)%nat) /\
  PowerAttack.x a1 = PowerAttack.x a /\ PowerAttack.y a1 = PowerAttack.y a.
Proof.
  cbn zeta. unfold PowerAttack.getActiveCount, PowerAttack.update.
  cbn [PowerAttack.projectiles PowerAttack.active PowerAttack.x
       PowerAttack.y].
  split; [apply length_map |].
  split.
  { intros i p Hi Hp. rewrite (map_lookup_Some _ _ i p Hi). f_equal.
    unfold PowerAttack.updateProjectile. rewrite Hp. reflexivity. }
  split.
  { apply Forall_forall. intros p1 Hin.
    apply list_elem_of_In, in_map_iff in Hin.
    destruct Hin as (p & <- & _). intros Hact.
    destruct (updateProjectile_cases dt canvasWidth canvasHeight p)
      as [[Hp Heq] | [(_ & Hp1 & _) | (_ & _ & _ & Hon)]].
    - rewrite Heq in Hact. congruence.
    - congruence.
    - exact Hon. }
  split.
  { apply filter_map_le. intros p Hp.
    destruct (updateProjectile_cases dt canvasWidth canvasHeight p)
      as [[Hp0 Heq] | [(_ & Hp1 & _) | (Hp0 & _)]].
    - rewrite Heq in Hp. exact Hp.
    - congruence.
    - exact Hp0. }
  split; [| auto].
  destruct (Nat.eqb_spec
              (length (List.filter PowerProjectile.active
                         (map (PowerAttack.updateProjectile
                                 dt canvasWidth canvasHeight)
                              (PowerAttack.projectiles a)))) 0)
    as [-> | Hne].
  - split; [discriminate | intros [_ H]; lia].
  - split; [intros H; split; [exact H | lia] | intros [H _]; exact H].
Qed.

Lemma PowerAttack_update_spec_witness :
  PowerAttack.projectiles (PowerAttack.update (1 # 10) 800 600 spentAttack)
  !! 0%nat
  = Some (PowerProjectile.mk 400 300 0 (-1) 400 8 8 false).
Proof.
  destruct (PowerAttack_update_spec (1 # 10) 800 600 spentAttack)
    as (_ & H & _).
  apply (H 0%nat); reflexivity.
Defined.

Lemma PowerProjectile_update_iter (dt : Q) (k : nat)
    (p : PowerProjectile.t) :
  let q := Nat.iter k (PowerProjectile.update dt) p in
  PowerProjectile.x q
  == PowerProjectile.x p
     + inject_Z (Z.of_nat k)
       * (PowerProjectile.dirX p * PowerProjectile.speed p * dt) /\
  PowerProjectile.y q
  == PowerProjectile.y p
     + inject_Z (Z.of_nat k)
       * (PowerProjectile.dirY p * PowerProjectile.speed p * dt) /\
  PowerProjectile.dirX q = PowerProjectile.dirX p /\
  PowerProjectile.dirY q = PowerProjectile.dirY p /\
  PowerProjectile.speed q = PowerProjectile.speed p.
Proof.
  cbn zeta. induction k as [| k (Hx & Hy & Hdx & Hdy & Hs)].
  - cbn [Nat.iter nat_rect]. change (inject_Z (Z.of_nat 0)) with 0.
    split; [lra |]. split; [lra | auto].
  - rewrite !Nat.iter_succ.
    set (q := Nat.iter k (PowerProjectile.update dt) p) in *.
    unfold PowerProjectile.update.
    cbn [PowerProjectile.x PowerProjectile.y PowerProjectile.dirX
         PowerProjectile.dirY PowerProjectile.speed].
    rewrite Hdx, Hdy, Hs, Nat2Z.inj_succ. unfold Z.succ.
    rewrite inject_Z_plus. change (inject_Z 1) with 1.
    set (X := PowerProjectile.x q) in *.
    set (Y := PowerProjectile.y q) in *.
    clearbody X Y. split; [lra |]. split; [lra | auto].
Qed.

Lemma PowerProjectile_isOffScreen_iff (w h : Q) (p : PowerProjectile.t) :
  PowerProjectile.isOffScreen w h p = true <->
  PowerProjectile.x p < - (50) \/ w + 50 < PowerProjectile.x p \/
  PowerProjectile.y p < - (50) \/ h + 50 < PowerProjectile.y p.
Proof.
  unfold PowerProjectile.isOffScreen. cbn zeta.
  rewrite !orb_true_iff, !ltb_lt, !gtb_gt. tauto.
Qed.

Lemma projectile_leaves (dt w h : Q) (p : PowerProjectile.t) :
  0 < dt -> moving p ->
  exists N : nat,
    forall k : nat, (N <= k)%nat ->
      PowerProjectile.isOffScreen w h
        (Nat.iter k (PowerProjectile.update dt) p) = true.
Proof.
  intros Hdt (Hsp & Hdir).
  assert (Hsd : 0 < PowerProjectile.speed p * dt) by nra.
  assert (Hside :
            forall d : Q, ~ d == 0 ->
              forall lo hi c : Q,
              exists N : nat,
                forall k : nat, (N <= k)%nat ->
                  let v := c + inject_Z (Z.of_nat k)
                               * (d * PowerProjectile.speed p * dt) in
                  v < lo \/ hi < v).
  { intros d Hd lo hi c.
    destruct (Qlt_le_dec d 0) as [Hneg | Hpos].
    - assert (Hstep : 0 < - (d * PowerProjectile.speed p * dt)) by nra.
      destruct (multiples_pass (c - lo) _ Hstep) as [N HN].
      exists N. intros k Hk. specialize (HN k Hk). cbn zeta. left. lra.
    - assert (Hstep : 0 < d * PowerProjectile.speed p * dt) by nra.
      destruct (multiples_pass (hi - c) _ Hstep) as [N HN].
      exists N. intros k Hk. specialize (HN k Hk). cbn zeta. right. lra. }
  destruct Hdir as [Hd | Hd].
  - destruct (Hside _ Hd (- (50)) (w + 50) (PowerProjectile.x p))
      as [N HN].
    exists N. intros k Hk. specialize (HN k Hk). cbn zeta in HN.
    destruct (PowerProjectile_update_iter dt k p) as (Hx & _).
    apply PowerProjectile_isOffScreen_iff.
    set (q := Nat.iter k (PowerProjectile.update dt) p) in *.
    destruct HN as [H | H]; [left | right; left]; lra.
  - destruct (Hside _ Hd (- (50)) (h + 50) (PowerProjectile.y p))
      as [N HN].
    exists N. intros k Hk. specialize (HN k Hk). cbn zeta in HN.
    destruct (PowerProjectile_update_iter dt k p) as (_ & Hy & _).
    apply PowerProjectile_isOffScreen_iff.
    set (q := Nat.iter k (PowerProjectile.update dt) p) in *.
    destruct HN as [H | H]; [right; right; left | right; right; right]; lra.
Qed.

Lemma updateProjectile_iter (dt w h : Q) (k : nat)
    (p : PowerProjectile.t) :
  let q := Nat.iter k (PowerAttack.updateProjectile dt w h) p in
  PowerProjectile.active q = false \/
  (q = Nat.iter k (PowerProjectile.update dt) p /\
   ((0 < k)%nat -> PowerProjectile.isOffScreen w h q = false)).
Proof.
  cbn zeta. induction k as [| k IH].
  - right. split; [reflexivity | lia].
  - rewrite !Nat.iter_succ.
    set (q := Nat.iter k (PowerAttack.updateProjectile dt w h) p) in *.
    destruct (updateProjectile_cases dt w h q)
      as [[Hq Heq] | [(_ & Hq1 & _) | (Hq & _ & Heq & Hon)]].
    + left. rewrite Heq. exact Hq.
    + left. exact Hq1.
    + right. destruct IH as [Hoff | [Hpure _]]; [congruence |].
      split; [rewrite Heq, Hpure; reflexivity | intros _; exact Hon].
Qed.

Lemma projectile_ends (dt w h : Q) (p : PowerProjectile.t) :
  0 < dt -> (PowerProjectile.active p = true -> moving p) ->
  exists N : nat,
    forall k : nat, (N <= k)%nat ->
      PowerProjectile.active
        (Nat.iter k (PowerAttack.updateProjectile dt w h) p) = false.
Proof.
  intros Hdt Hmv. destruct (PowerProjectile.active p) eqn:Ha.
  - destruct (projectile_leaves dt w h p Hdt (Hmv eq_refl)) as [N HN].
    exists (S N). intros k Hk.
    destruct (updateProjectile_iter dt w h k p) as [Hoff | [Hpure Hon]];
      [exact Hoff | exfalso].
    rewrite Hpure in Hon. rewrite HN in Hon by lia.
    discriminate Hon. lia.
  - exists 0%nat. intros k _. induction k as [| k IH]; [exact Ha |].
    rewrite Nat.iter_succ.
    destruct (updateProjectile_cases dt w h
                (Nat.iter k (PowerAttack.updateProjectile dt w h) p))
      as [[_ ->] | [(H & _) | (H & _)]]; [exact IH | congruence ..].
Qed.

Lemma PowerAttack_update_iter (dt w h : Q) (k : nat) (a : PowerAttack.t) :
  PowerAttack.projectiles (Nat.iter k (PowerAttack.update dt w h) a)
  = map (Nat.iter k (PowerAttack.updateProjectile dt w h))
        (PowerAttack.projectiles a).
Proof.
  induction k as [| k IH].
  - cbn [Nat.iter nat_rect]. symmetry. apply map_id.
  - rewrite Nat.iter_succ. unfold PowerAttack.update at 1.
    cbn [PowerAttack.projectiles]. rewrite IH, map_map.
    apply map_ext. intros p. rewrite Nat.iter_succ. reflexivity.
Qed.

Lemma updatePowerAttack_iter (cfg : Config) (dt : Q) (k : nat)
    (st : PlayState.t) (a : PowerAttack.t) :
  PlayState.powerAttack st = Some a -> PowerAttack.active a = true ->
  let stk := Nat.iter k (PlayState.updatePowerAttack cfg dt) st in
  let ak :=
    Nat.iter k (PowerAttack.update dt (CANVAS_width cfg)
                                   (CANVAS_height cfg)) a in
  PlayState.powerAttack stk = None \/
  (PlayState.powerAttack stk = Some ak /\ PowerAttack.active ak = true).
Proof.
  intros Hp Ha. cbn zeta. induction k as [| k IH].
  - right. split; [exact Hp | exact Ha].
  - rewrite !Nat.iter_succ.
    set (stk := Nat.iter k (PlayState.updatePowerAttack cfg dt) st) in *.
    set (ak := Nat.iter k _ a) in *.
    unfold PlayState.updatePowerAttack.
    destruct IH as [Hnone | [Hsome Hact]].
    + rewrite Hnone. left. exact Hnone.
    + rewrite Hsome, Hact. cbn [PlayState.powerAttack].
      destruct (PowerAttack.active
                  (PowerAttack.update dt (CANVAS_width cfg)
                     (CANVAS_height cfg) ak)) eqn:H1.
      * right. split; reflexivity.
      * left. reflexivity.
Qed.

(** X24. Every power attack ends: for an active attack whose active
    projectiles all move, and frames of a fixed positive length, after
    finitely many [updatePowerAttack] the play state holds no power
    attack, and it stays so. *)
Theorem power_attack_ends (cfg : Config) (dt : Q) (st : PlayState.t)
    (a : PowerAttack.t) :
  0 < dt ->
  PlayState.powerAttack st = Some a -> PowerAttack.active a = true ->
  Forall (fun p => PowerProjectile.active p = true -> moving p)
         (PowerAttack.projectiles a) ->
  exists N : nat,
    forall k : nat, (N <= k)%nat ->
      PlayState.powerAttack
        (Nat.iter k (PlayState.updatePowerAttack cfg dt) st) = None.
Proof.
  intros Hdt Hp Ha Hall.
  set (w := CANVAS_width cfg). set (h := CANVAS_height cfg).
  assert (Huni : exists N : nat,
             forall p : PowerProjectile.t,
               In p (PowerAttack.projectiles a) ->
               forall k : nat, (N <= k)%nat ->
                 PowerProjectile.active
                   (Nat.iter k (PowerAttack.updateProjectile dt w h) p)
                 = false).
  { induction Hall as [| p l Hmv _ (N & HN)].
    - exists 0%nat. intros p [].
    - destruct (projectile_ends dt w h p Hdt Hmv) as [M HM].
      exists (Nat.max M N). intros p' [<- | Hin] k Hk.
      + apply HM. lia.
      + apply HN; [exact Hin | lia]. }
  destruct Huni as [N HN]. exists (S N). intros k Hk.
  destruct (updatePowerAttack_iter cfg dt k st a Hp Ha)
    as [Hnone | [_ Hact]]; [exact Hnone | exfalso].
  fold w h in Hact. destruct k as [| k]; [lia |].
  rewrite Nat.iter_succ in Hact.
  pose proof (PowerAttack_update_iter dt w h (S k) a) as Hps.
  rewrite Nat.iter_succ in Hps.
  unfold PowerAttack.update at 1 in Hact.
  unfold PowerAttack.update at 1 in Hps.
  cbn [PowerAttack.active] in Hact. cbn [PowerAttack.projectiles] in Hps.
  rewrite Hps in Hact.
  replace (List.filter PowerProjectile.active
             (map (Nat.iter (S k) (PowerAttack.updateProjectile dt w h))
                  (PowerAttack.projectiles a)))
    with (@nil PowerProjectile.t) in Hact; [discriminate Hact |].
  symmetry. clear Hps Hact.
  assert (Hgone : forall p : PowerProjectile.t,
             In p (PowerAttack.projectiles a) ->
             PowerProjectile.active
               (Nat.iter (S k) (PowerAttack.updateProjectile dt w h) p)
             = false)
    by (intros p Hin; apply HN; [exact Hin | lia]).
  revert Hgone. generalize (PowerAttack.projectiles a). intros l.
  induction l as [| p l IH]; intros Hgone; [reflexivity |].
  cbn [map List.filter].
  rewrite (Hgone p (or_introl eq_refl)).
  apply IH. intros p' Hin. apply Hgone. right. exact Hin.
Qed.

Lemma power_attack_ends_witness :
  exists N : nat,
    forall k : nat, (N <= k)%nat ->
      PlayState.powerAttack
        (Nat.iter k (PlayState.updatePowerAttack CONFIG (1 # 10))
           (PlayState.mk [] (ScoreSystem.new CONFIG) [] []
              (FormationController.new CONFIG) None (Some oneProjectile)
              false))
      = None.
Proof.
  apply (power_attack_ends CONFIG (1 # 10)
           (PlayState.mk [] (ScoreSystem.new CONFIG) [] []
              (FormationController.new CONFIG) None (Some oneProjectile)
              false)
           oneProjectile).
  - reflexivity.
  - reflexivity.
  - reflexivity.
  - constructor; [| constructor]. intros _.
    split; [reflexivity | right; vm_compute; discriminate].
Defined.

(** ** The power attack in the collision step *)

Lemma powerScan_map (bounds : Rect) (off : Offset) (p : nat)
    (es : list Enemy.t) :
  forall (j : nat) (found : list CollisionEvent) (es1 : list Enemy.t),
    CollisionSystem.powerScan bounds off p j es = (found, es1) ->
    es1 = map (fun e => if hitsEnemy bounds off e then Enemy.kill e else e)
              es /\
    length found = length (List.filter (hitsEnemy bounds off) es).
Proof.
  induction es as [| e es IH]; intros j found es1 H.
  - cbn in H. injection H as <- <-. auto.
  - cbn [CollisionSystem.powerScan] in H.
    destruct (CollisionSystem.powerScan bounds off p (S j) es)
      as [found0 rest1] eqn:Hrec.
    destruct (IH _ _ _ Hrec) as [Hmap Hlen].
    cbn [map List.filter]. unfold hitsEnemy at 1 3.
    destruct (CollisionSystem.skipped e); cbn [negb andb].
    + injection H as <- <-. rewrite Hmap. auto.
    + destruct (rectIntersect bounds (Enemy.getBounds e off));
        injection H as <- <-; rewrite Hmap; cbn [length]; auto.
Qed.

Lemma kill_getBounds (e : Enemy.t) (off : Offset) :
  Enemy.getBounds (Enemy.kill e) off = Enemy.getBounds e off.
Proof. unfold Enemy.kill. destruct (Enemy.alive e); reflexivity. Qed.

Lemma struck_kill (off : Offset)
    (projectiles : list (nat * PowerProjectile.t)) (e : Enemy.t) :
  struck off projectiles (Enemy.kill e) = false.
Proof.
  induction projectiles as [| ip rest IH]; [reflexivity |].
  cbn [struck existsb]. fold (struck off rest (Enemy.kill e)).
  rewrite IH. unfold hitsEnemy. rewrite kill_skipped.
  cbn [negb andb]. rewrite andb_false_r. reflexivity.
Qed.

Lemma powerLoop_map (off : Offset)
    (projectiles : list (nat * PowerProjectile.t)) :
  forall (es : list Enemy.t) (found : list CollisionEvent)
         (es1 : list Enemy.t),
    CollisionSystem.powerLoop off projectiles es = (found, es1) ->
    es1 = map (fun e => if struck off projectiles e
                        then Enemy.kill e else e) es /\
    length found = length (List.filter (struck off projectiles) es).
Proof.
  induction projectiles as [| [p projectile] rest IH];
    intros es found es1 H.
  - cbn in H. injection H as <- <-. cbn [struck existsb].
    split; [symmetry; apply map_id |].
    induction es as [| e es IHes]; [reflexivity | exact IHes].
  - cbn [CollisionSystem.powerLoop] in H.
    destruct (PowerProjectile.active projectile) eqn:Hact;
      cbn [negb] in H.
    + destruct (CollisionSystem.powerScan
                  (PowerProjectile.getBounds projectile) off p 0 es)
        as [found0 es0] eqn:Hscan.
      destruct (CollisionSystem.powerLoop off rest es0)
        as [found1 es2] eqn:Hrec.
      injection H as <- <-.
      destruct (powerScan_map _ _ _ _ _ _ _ Hscan) as [Hmap0 Hlen0].
      destruct (IH _ _ _ Hrec) as [Hmap1 Hlen1].
      rewrite length_app, Hlen0, Hlen1, Hmap1, Hmap0. clear -Hact.
      set (bounds := PowerProjectile.getBounds projectile).
      assert (Hone : forall e : Enemy.t,
                 struck off ((p, projectile) :: rest) e
                 = hitsEnemy bounds off e || struck off rest e).
      { intros e. cbn [struck existsb snd]. rewrite Hact. reflexivity. }
      split.
      * rewrite map_map. apply map_ext. intros e. rewrite Hone.
        destruct (hitsEnemy bounds off e); cbn [orb].
        -- rewrite struck_kill. reflexivity.
        -- reflexivity.
      * induction es as [| e es IHes]; [reflexivity |].
        cbn [map List.filter]. rewrite Hone.
        destruct (hitsEnemy bounds off e); cbn [orb].
        -- rewrite struck_kill. cbn [length]. lia.
        -- destruct (struck off rest e); cbn [length]; lia.
    + destruct (IH _ _ _ H) as [Hmap Hlen].
      assert (Hone : forall e : Enemy.t,
                 struck off ((p, projectile) :: rest) e
                 = struck off rest e).
      { intros e. cbn [struck existsb snd]. rewrite Hact. reflexivity. }
      split.
      * rewrite Hmap. apply map_ext. intros e. rewrite Hone. reflexivity.
      * rewrite Hlen. clear -Hone.
        induction es as [| e es IHes]; [reflexivity |].
        cbn [List.filter]. rewrite Hone.
        destruct (struck off rest e); cbn [length]; lia.
Qed.

Lemma hitsEnemy_kill (bounds : Rect) (off : Offset) (e : Enemy.t) :
  hitsEnemy bounds off (Enemy.kill e) = false.
Proof. unfold hitsEnemy. rewrite kill_skipped. reflexivity. Qed.

Lemma powerScan_events (bounds : Rect) (off : Offset) (p : nat)
    (es : list Enemy.t) :
  forall (j0 : nat) (found : list CollisionEvent) (es1 : list Enemy.t),
    CollisionSystem.powerScan bounds off p j0 es = (found, es1) ->
    (forall ev : CollisionEvent,
        In ev found ->
        exists (j : nat) (e : Enemy.t),
          ev = power_enemy p (j0 + j) /\ es !! j = Some e /\
          hitsEnemy bounds off e = true) /\
    (forall (j : nat) (e : Enemy.t),
        es !! j = Some e ->
        length (eventsOfEnemy (j0 + j) found)
        = if hitsEnemy bounds off e then 1%nat else 0%nat).
Proof.
  induction es as [| e0 es IH]; intros j0 found es1 H.
  - cbn in H. injection H as <- <-.
    split; [intros ev [] | intros j e Hj; discriminate].
  - cbn [CollisionSystem.powerScan] in H.
    destruct (CollisionSystem.powerScan bounds off p (S j0) es)
      as [found0 rest1] eqn:Hrec.
    destruct (IH _ _ _ Hrec) as [Hsound Hcount].
    assert (Hlater : length (eventsOfEnemy j0 found0) = 0%nat).
    { clear -Hsound. induction found0 as [| ev l IHl]; [reflexivity |].
      destruct (Hsound ev (or_introl eq_refl)) as (j & e & -> & _).
      unfold eventsOfEnemy in *. cbn [List.filter].
      replace (Nat.eqb (S j0 + j) j0) with false
        by (symmetry; apply Nat.eqb_neq; lia).
      apply IHl. intros ev' Hin. apply Hsound. right. exact Hin. }
    assert (Hcase :
              (if hitsEnemy bounds off e0
               then (power_enemy p j0 :: found0, Enemy.kill e0 :: rest1)
               else (found0, e0 :: rest1)) = (found, es1)).
    { unfold hitsEnemy. destruct (CollisionSystem.skipped e0);
        cbn [negb andb]; [exact H |].
      destruct (rectIntersect _ _); exact H. }
    clear H.
    destruct (hitsEnemy bounds off e0) eqn:Hhit; injection Hcase as <- <-.
    + split.
      * intros ev [<- | Hin].
        -- exists 0%nat, e0. split; [f_equal; lia |]. auto.
        -- destruct (Hsound ev Hin) as (j & e & -> & Hj & Hh).
           exists (S j), e. split; [f_equal; lia | auto].
      * intros [| j] e Hj; cbn in Hj.
        -- injection Hj as <-. rewrite Hhit, Nat.add_0_r.
           unfold eventsOfEnemy in *. cbn [List.filter].
           rewrite Nat.eqb_refl. cbn [length].
           rewrite Hlater. reflexivity.
        -- unfold eventsOfEnemy in *. cbn [List.filter].
           replace (Nat.eqb j0 (j0 + S j)) with false
             by (symmetry; apply Nat.eqb_neq; lia).
           replace (j0 + S j)%nat with (S j0 + j)%nat by lia.
           apply Hcount, Hj.
    + split.
      * intros ev Hin.
        destruct (Hsound ev Hin) as (j & e & -> & Hj & Hh).
        exists (S j), e. split; [f_equal; lia | auto].
      * intros [| j] e Hj; cbn in Hj.
        -- injection Hj as <-. rewrite Hhit, Nat.add_0_r. exact Hlater.
        -- replace (j0 + S j)%nat with (S j0 + j)%nat by lia.
           apply Hcount, Hj.
Qed.

Lemma powerLoop_events (off : Offset)
    (projectiles : list (nat * PowerProjectile.t)) :
  forall (es : list Enemy.t) (found : list CollisionEvent)
         (es1 : list Enemy.t),
    CollisionSystem.powerLoop off projectiles es = (found, es1) ->
    (forall ev : CollisionEvent,
        In ev found ->
        exists (p : nat) (projectile : PowerProjectile.t) (j : nat)
               (e : Enemy.t),
          ev = power_enemy p j /\ In (p, projectile) projectiles /\
          PowerProjectile.active projectile = true /\
          es !! j = Some e /\
          hitsEnemy (PowerProjectile.getBounds projectile) off e = true) /\
    (forall (j : nat) (e : Enemy.t),
        es !! j = Some e ->
        length (eventsOfEnemy j found)
        = if struck off projectiles e then 1%nat else 0%nat).
Proof.
  induction projectiles as [| [p projectile] rest IH];
    intros es found es1 H.
  - cbn in H. injection H as <- <-.
    split; [intros ev [] | intros j e _; reflexivity].
  - cbn [CollisionSystem.powerLoop] in H.
    destruct (PowerProjectile.active projectile) eqn:Hact;
      cbn [negb] in H.
    + destruct (CollisionSystem.powerScan
                  (PowerProjectile.getBounds projectile) off p 0 es)
        as [found0 es0] eqn:Hscan.
      destruct (CollisionSystem.powerLoop off rest es0)
        as [found1 es2] eqn:Hrec.
      injection H as <- <-.
      destruct (powerScan_map _ _ _ _ _ _ _ Hscan) as [Hmap0 _].
      destruct (powerScan_events _ _ _ _ _ _ _ Hscan) as [Hs0 Hc0].
      destruct (IH _ _ _ Hrec) as [Hs1 Hc1].
      set (bounds := PowerProjectile.getBounds projectile) in *.
      assert (Hone : forall e : Enemy.t,
                 struck off ((p, projectile) :: rest) e
                 = hitsEnemy bounds off e || struck off rest e).
      { intros e. cbn [struck existsb snd]. rewrite Hact. reflexivity. }
      assert (Hat : forall (j : nat) (e : Enemy.t),
                 es !! j = Some e ->
                 es0 !! j
                 = Some (if hitsEnemy bounds off e
                         then Enemy.kill e else e)).
      { intros j e Hj. rewrite Hmap0.
        apply (map_lookup_Some
                 (fun e => if hitsEnemy bounds off e
                           then Enemy.kill e else e) es j e Hj). }
      split.
      * intros ev Hin. apply in_app_or in Hin.
        destruct Hin as [Hin | Hin].
        -- destruct (Hs0 ev Hin) as (j & e & -> & Hj & Hh).
           exists p, projectile, j, e. cbn [Nat.add].
           split; [reflexivity |]. split; [left; reflexivity |]. auto.
        -- destruct (Hs1 ev Hin) as (q & pr & j & e' & -> & Hq & Ha & Hj & Hh).
           assert (Hlt : (j < length es)%nat).
           { apply lookup_lt_Some in Hj.
             rewrite Hmap0, length_map in Hj. exact Hj. }
           destruct (lookup_lt_is_Some_2 es j Hlt) as [e He].
           rewrite (Hat j e He) in Hj. injection Hj as <-.
           exists q, pr, j, e. split; [reflexivity |].
           split; [right; exact Hq |]. split; [exact Ha |].
           split; [exact He |].
           destruct (hitsEnemy bounds off e); [| exact Hh].
           rewrite hitsEnemy_kill in Hh. discriminate.
      * intros j e Hj. unfold eventsOfEnemy.
        rewrite List.filter_app, length_app.
        pose proof (Hc0 j e Hj) as E0.
        pose proof (Hc1 j _ (Hat j e Hj)) as E1.
        unfold eventsOfEnemy in E0, E1. cbn [Nat.add] in E0.
        rewrite E0, E1, Hone.
        destruct (hitsEnemy bounds off e); cbn [orb].
        -- rewrite struck_kill. reflexivity.
        -- reflexivity.
    + destruct (IH _ _ _ H) as [Hs1 Hc1].
      assert (Hone : forall e : Enemy.t,
                 struck off ((p, projectile) :: rest) e
                 = struck off rest e).
      { intros e. cbn [struck existsb snd]. rewrite Hact. reflexivity. }
      split.
      * intros ev Hin.
        destruct (Hs1 ev Hin) as (q & pr & j & e & -> & Hq & Hrest).
        exists q, pr, j, e. split; [reflexivity |].
        split; [right; exact Hq | exact Hrest].
      * intros j e Hj. rewrite Hone. apply Hc1, Hj.
Qed.

(** X25. [checkPowerAttackEnemyCollisions]: the enemies killed are
    exactly those that are alive, not dying and overlapped by some active
    projectile.  Each of them is named by exactly one event, however many
    projectiles overlap it, no other enemy by any, and every event names
    an active projectile that overlaps its enemy.  A projectile goes on
    through the enemies it hits (none is deactivated), and afterwards no
    enemy could be hit again. *)
Theorem checkPowerAttackEnemyCollisions_spec
    (events0 : list CollisionEvent)
    (projectiles : list (nat * PowerProjectile.t))
    (enemies : list Enemy.t) (off : Offset) :
  let out :=
    CollisionSystem.checkPowerAttackEnemyCollisions
      events0 projectiles enemies off in
  CollisionSystem.seconds out
  = map (fun e => if struck off projectiles e then Enemy.kill e else e)
        enemies /\
  (forall (j : nat) (e : Enemy.t),
      enemies !! j = Some e ->
      length (eventsOfEnemy j (CollisionSystem.collisions out))
      = if struck off projectiles e then 1%nat else 0%nat) /\
  (forall ev : CollisionEvent,
      In ev (CollisionSystem.collisions out) ->
      exists (p : nat) (projectile : PowerProjectile.t) (j : nat)
             (e : Enemy.t),
        ev = power_enemy p j /\ In (p, projectile) projectiles /\
        PowerProjectile.active projectile = true /\
        enemies !! j = Some e /\
        hitsEnemy (PowerProjectile.getBounds projectile) off e = true) /\
  length (CollisionSystem.collisions out)
  = length (List.filter (struck off projectiles) enemies) /\
  CollisionSystem.firsts out = projectiles /\
  CollisionSystem.events out = events0 ++ CollisionSystem.collisions out /\
  Forall (fun e => struck off projectiles e = false)
         (CollisionSystem.seconds out).
Proof.
  cbn zeta.
  pose proof (checkPowerAttackEnemyCollisions_loop
                events0 projectiles enemies off) as Hloop.
  cbn zeta in Hloop.
  destruct (powerLoop_map _ _ _ _ _ Hloop) as [Hmap Hlen].
  destruct (powerLoop_events _ _ _ _ _ Hloop) as [Hsound Hcount].
  split; [exact Hmap |]. split; [exact Hcount |].
  split; [exact Hsound |]. split; [exact Hlen |].
  split.
  { unfold CollisionSystem.checkPowerAttackEnemyCollisions.
    destruct (CollisionSystem.powerLoop off projectiles enemies).
    reflexivity. }
  split.
  { unfold CollisionSystem.checkPowerAttackEnemyCollisions.
    destruct (CollisionSystem.powerLoop off projectiles enemies).
    reflexivity. }
  rewrite Hmap. apply Forall_forall. intros e1 Hin.
  apply list_elem_of_In, in_map_iff in Hin. destruct Hin as (e & <- & _).
  destruct (struck off projectiles e) eqn:Hs;
    [apply struck_kill | exact Hs].
Qed.

Lemma checkPowerAttackEnemyCollisions_spec_witness :
  length
    (eventsOfEnemy 1
       (CollisionSystem.collisions
          (CollisionSystem.checkPowerAttackEnemyCollisions
             [] piercing twoEnemies (mkOffset 0 0))))
  = 1%nat.
Proof.
  destruct (checkPowerAttackEnemyCollisions_spec
              [] piercing twoEnemies (mkOffset 0 0)) as (_ & H & _).
  apply (H 1%nat (Enemy.new CONFIG 110 80 TYPE3)). reflexivity.
Defined.

Lemma powerBossLoop_writeBack (bossBounds : Rect)
    (ps : list PowerProjectile.t) :
  forall (pre : list PowerProjectile.t) (found : list CollisionEvent)
         (updated : list (nat * PowerProjectile.t)),
    CollisionSystem.powerBossLoop bossBounds
      (PowerAttack.activeFrom (length pre) ps) = (found, updated) ->
    PowerAttack.writeBack updated (pre ++ ps)
    = pre ++ map (fun p => if strikesBoss bossBounds p
                           then PowerProjectile.deactivate p else p) ps /\
    totalDamage found
    == inject_Z (Z.of_nat (length (List.filter (strikesBoss bossBounds)
                                                ps))) /\
    Forall (fun hit => damageOf hit = 1) found.
Proof.
  induction ps as [| p rest IH]; intros pre found updated H.
  - cbn in H. injection H as <- <-. cbn. split; [reflexivity |].
    split; [reflexivity | constructor].
  - cbn [PowerAttack.activeFrom] in H.
    assert (Hpre : pre ++ p :: rest = (pre ++ [p]) ++ rest)
      by (rewrite <- app_assoc; reflexivity).
    assert (Hlen : S (length pre) = length (pre ++ [p]))
      by (rewrite length_app; cbn; lia).
    cbn [map List.filter]. unfold strikesBoss at 1 3.
    destruct (PowerProjectile.active p) eqn:Hact; cbn [andb].
    + cbn [CollisionSystem.powerBossLoop] in H. rewrite Hact in H.
      cbn [negb] in H. rewrite Hlen in H.
      destruct (CollisionSystem.powerBossLoop bossBounds
                  (PowerAttack.activeFrom (length (pre ++ [p])) rest))
        as [found0 rest1] eqn:Hrec.
      assert (Hput : forall p' : PowerProjectile.t,
                 <[length pre := p']> (pre ++ p :: rest)
                 = (pre ++ [p']) ++ rest).
      { intros p'. rewrite insert_app_r_alt by lia.
        rewrite Nat.sub_diag, <- app_assoc. reflexivity. }
      destruct (rectIntersect (PowerProjectile.getBounds p) bossBounds);
        injection H as <- <-; cbn [PowerAttack.writeBack];
        rewrite Hput.
      * assert (Hrec' : CollisionSystem.powerBossLoop bossBounds
                          (PowerAttack.activeFrom
                             (length (pre ++ [PowerProjectile.deactivate p]))
                             rest) = (found0, rest1)).
        { rewrite <- Hrec. f_equal. f_equal. rewrite !length_app.
          reflexivity. }
        destruct (IH _ _ _ Hrec') as (Hwb & Hdmg & Hone).
        rewrite Hwb, <- app_assoc. split; [reflexivity |].
        split; [| constructor; [reflexivity | exact Hone]].
        cbn [totalDamage fold_right damageOf length].
        fold (totalDamage found0).
        rewrite Nat2Z.inj_succ. unfold Z.succ. rewrite inject_Z_plus.
        change (inject_Z 1) with 1. lra.
      * destruct (IH _ _ _ Hrec) as (Hwb & Hdmg & Hone).
        rewrite Hwb, <- app_assoc. auto.
    + rewrite Hlen in H. destruct (IH _ _ _ H) as (Hwb & Hdmg & Hone).
      rewrite Hpre, Hwb, <- app_assoc. auto.
Qed.

(** X26. The power attack against a boss in the fight: the projectiles
    that strike the boss are deactivated in the attack's own array, at
    their own places, though the check ran on the filtered copy of it;
    all others are left as they are; and with [n] of them striking, the
    boss starts dying exactly when [n] reaches its hit points, with the
    reward given once, and loses [n] hit points otherwise. *)
Theorem powerAttackVsBoss_spec (cfg : Config) (st : PlayState.t)
    (attack : PowerAttack.t) (b : Boss.t) :
  PlayState.powerAttack st = Some attack -> PlayState.boss st = Some b ->
  fighting b ->
  let bounds := Boss.getBounds b in
  let n :=
    inject_Z (Z.of_nat (length (List.filter (strikesBoss bounds)
                                  (PowerAttack.projectiles attack)))) in
  let st1 := PlayState.powerAttackVsBoss cfg st in
  exists (attack1 : PowerAttack.t) (b1 : Boss.t),
    PlayState.powerAttack st1 = Some attack1 /\
    PlayState.boss st1 = Some b1 /\
    PowerAttack.projectiles attack1
    = map (fun p => if strikesBoss bounds p
                    then PowerProjectile.deactivate p else p)
          (PowerAttack.projectiles attack) /\
    (Boss.hp b <= n ->
     Boss.dying b1 = true /\
     PlayState.score st1 = ScoreSystem.addBossKill cfg (PlayState.score st) /\
     PlayState.bossActive st1 = false) /\
    (n < Boss.hp b ->
     Boss.dying b1 = false /\ Boss.hp b1 == Boss.hp b - n /\
     PlayState.score st1 = PlayState.score st /\
     PlayState.bossActive st1 = PlayState.bossActive st).
Proof.
  intros Hp Hb Hf. cbn zeta. pose proof Hf as (Ha & _ & _).
  unfold PlayState.powerAttackVsBoss. rewrite Hp, Hb, Ha.
  unfold CollisionSystem.checkPowerAttackBossCollisions.
  rewrite Ha. cbn [negb]. unfold PowerAttack.getProjectiles.
  destruct (CollisionSystem.powerBossLoop (Boss.getBounds b)
              (PowerAttack.activeFrom 0 (PowerAttack.projectiles attack)))
    as [found updated] eqn:Hloop.
  cbn [CollisionSystem.collisions CollisionSystem.firsts
       CollisionSystem.events].
  destruct (powerBossLoop_writeBack (Boss.getBounds b)
              (PowerAttack.projectiles attack) [] found updated Hloop)
    as (Hwb & Hdmg & Hone).
  cbn [app] in Hwb.
  assert (Hall : Forall (fun hit => 0 <= damageOf hit) found).
  { eapply Forall_impl; [exact Hone |]. intros hit ->. lra. }
  destruct (PlayState.applyBossHits cfg found b (PlayState.score st)
              (PlayState.bossActive st))
    as [[b1 s1] flag1] eqn:Hrun.
  destruct (applyBossHits_total cfg _ Hall b _ _ Hf b1 s1 flag1 Hrun)
    as (_ & Hdie & Hlive).
  eexists. exists b1.
  cbn [PlayState.powerAttack PlayState.boss PlayState.score
       PlayState.bossActive].
  split; [reflexivity |]. split; [reflexivity |].
  split; [exact Hwb |]. split.
  - intros H. destruct Hdie as (H1 & _ & _ & H3 & H4); [lra | auto].
  - intros H. destruct Hlive as (H1 & H2 & H3 & H4); [lra |].
    split; [exact H1 |]. split; [lra | auto].
Qed.

Lemma powerAttackVsBoss_spec_witness :
  let b := Boss.new CONFIG 400 300 20 in
  let st :=
    PlayState.mk [] (ScoreSystem.new CONFIG) [] []
      (FormationController.new CONFIG) (Some b) (Some oneProjectile)
      true in
  exists (attack1 : PowerAttack.t),
    PlayState.powerAttack (PlayState.powerAttackVsBoss CONFIG st)
    = Some attack1 /\
    PowerAttack.projectiles attack1
    = map (fun p => if strikesBoss (Boss.getBounds b) p
                    then PowerProjectile.deactivate p else p)
          (PowerAttack.projectiles oneProjectile).
Proof.
  cbn zeta.
  destruct (powerAttackVsBoss_spec CONFIG
              (PlayState.mk [] (ScoreSystem.new CONFIG) [] []
                 (FormationController.new CONFIG)
                 (Some (Boss.new CONFIG 400 300 20)) (Some oneProjectile)
                 true)
              oneProjectile (Boss.new CONFIG 400 300 20))
    as (attack1 & b1 & Hp1 & _ & Hps & _).
  - reflexivity.
  - reflexivity.
  - split; [reflexivity |]. split; [reflexivity |].
    vm_compute. reflexivity.
  - exists attack1. split; [exact Hp1 | exact Hps].
Defined.

(** ** Lives and the bottom line over the whole collision step *)

Lemma kill_idem (e : Enemy.t) : Enemy.kill (Enemy.kill e) = Enemy.kill e.
Proof.
  unfold Enemy.kill. destruct (Enemy.alive e) eqn:Ha; cbn.
  - reflexivity.
  - rewrite Ha. reflexivity.
Qed.

Lemma sameOrKilled_trans (e e1 e2 : Enemy.t) :
  sameOrKilled e e1 -> sameOrKilled e1 e2 -> sameOrKilled e e2.
Proof.
  unfold sameOrKilled. intros [-> | ->] [-> | ->]; auto.
  rewrite kill_idem. auto.
Qed.

Lemma sameOrKilled_reached (off : Offset) (line : Q) (e e1 : Enemy.t) :
  sameOrKilled e e1 ->
  (reachedBottom off line e1 <-> reachedBottom off line e).
Proof.
  intros [-> | ->]; [reflexivity |].
  unfold reachedBottom, bottomY, Enemy.kill.
  destruct (Enemy.alive e) eqn:Ha; cbn; [| rewrite Ha]; reflexivity.
Qed.

Lemma Forall2_sameOrKilled_refl (es : list Enemy.t) :
  Forall2 sameOrKilled es es.
Proof. induction es; constructor; [left; reflexivity | assumption]. Qed.

Lemma Forall2_sameOrKilled_trans (es es1 es2 : list Enemy.t) :
  Forall2 sameOrKilled es es1 -> Forall2 sameOrKilled es1 es2 ->
  Forall2 sameOrKilled es es2.
Proof.
  intros H. revert es2. induction H as [| e e1 es es1 He _ IH];
    intros es2 H2; inversion H2; subst; constructor.
  - eapply sameOrKilled_trans; eassumption.
  - apply IH. assumption.
Qed.

Lemma Forall2_sameOrKilled_insert (es : list Enemy.t) (j : nat)
    (e : Enemy.t) :
  es !! j = Some e -> Forall2 sameOrKilled es (<[j := Enemy.kill e]> es).
Proof.
  revert j. induction es as [| a es IH]; intros [| j] Hj;
    try discriminate.
  - cbn in Hj. injection Hj as ->. cbn. constructor;
      [right; reflexivity | apply Forall2_sameOrKilled_refl].
  - cbn in Hj |- *. constructor; [left; reflexivity | apply IH, Hj].
Qed.

Lemma Forall2_sameOrKilled_map (f : Enemy.t -> bool) (es : list Enemy.t) :
  Forall2 sameOrKilled es
          (map (fun e => if f e then Enemy.kill e else e) es).
Proof.
  induction es as [| e es IH]; cbn; constructor; [| exact IH].
  destruct (f e); [right | left]; reflexivity.
Qed.

Lemma bulletLoop_fate (off : Offset) (bs : list Bullet.t) :
  forall (i : nat) (es : list Enemy.t) cs bs1 es1,
    CollisionSystem.bulletLoop off i bs es = (cs, bs1, es1) ->
    Forall2 sameOrKilled es es1.
Proof.
  induction bs as [| b rest IH]; intros i es cs bs1 es1 H.
  - injection H as <- <- <-. apply Forall2_sameOrKilled_refl.
  - loop_turn H.
    + apply (IH _ _ _ _ _ Hrec).
    + eapply Forall2_sameOrKilled_trans;
        [apply Forall2_sameOrKilled_insert; exact Hj0
        | apply (IH _ _ _ _ _ Hrec)].
Qed.

Lemma passes_trans (st st1 st2 : PlayState.t) :
  passes st st1 -> passes st1 st2 -> passes st st2.
Proof.
  intros (Hf1 & Hl1 & He1) (Hf2 & Hl2 & He2). unfold passes.
  rewrite Hf2, Hl2. split; [exact Hf1 |]. split; [exact Hl1 |].
  eapply Forall2_sameOrKilled_trans; eassumption.
Qed.

Lemma passes_refl (st : PlayState.t) : passes st st.
Proof.
  unfold passes. split; [reflexivity |]. split; [reflexivity |].
  apply Forall2_sameOrKilled_refl.
Qed.

Lemma bulletsVsEnemies_passes (cfg : Config) (off : Offset)
    (st : PlayState.t) :
  passes st (PlayState.bulletsVsEnemies cfg off st).
Proof.
  unfold passes, PlayState.bulletsVsEnemies.
  cbn [PlayState.formation PlayState.score PlayState.enemies].
  split; [reflexivity |]. split; [apply addKills_score |].
  destruct (checkBulletEnemyCollisions_loop
              (PlayState.collision st) (PlayState.bullets st)
              (PlayState.enemies st) off) as [Hloop _].
  exact (bulletLoop_fate _ _ _ _ _ _ _ Hloop).
Qed.

Lemma bulletsVsBoss_passes (cfg : Config) (st : PlayState.t) :
  passes st (PlayState.bulletsVsBoss cfg st).
Proof.
  unfold PlayState.bulletsVsBoss.
  destruct (PlayState.boss st) as [b |]; [| apply passes_refl].
  destruct (Boss.active b); [| apply passes_refl].
  pose proof (applyBossHits_lives cfg
                (CollisionSystem.collisions
                   (CollisionSystem.checkBulletBossCollisions
                      (PlayState.collision st) (PlayState.bullets st)
                      (Some b)))
                b (PlayState.score st) (PlayState.bossActive st)) as Hl.
  destruct (PlayState.applyBossHits cfg _ b (PlayState.score st)
                                    (PlayState.bossActive st))
    as [[b1 score1] flag1].
  unfold passes. cbn in *. split; [reflexivity |].
  split; [exact Hl | apply Forall2_sameOrKilled_refl].
Qed.

Lemma powerAttackVsBoss_passes (cfg : Config) (st : PlayState.t) :
  passes st (PlayState.powerAttackVsBoss cfg st).
Proof.
  unfold PlayState.powerAttackVsBoss.
  destruct (PlayState.powerAttack st) as [attack |]; [| apply passes_refl].
  destruct (PlayState.boss st) as [b |]; [| apply passes_refl].
  destruct (Boss.active b); [| apply passes_refl].
  pose proof (applyBossHits_lives cfg
                (CollisionSystem.collisions
                   (CollisionSystem.checkPowerAttackBossCollisions
                      (PlayState.collision st)
                      (PowerAttack.getProjectiles attack) (Some b)))
                b (PlayState.score st) (PlayState.bossActive st)) as Hl.
  destruct (PlayState.applyBossHits cfg _ b (PlayState.score st)
                                    (PlayState.bossActive st))
    as [[b1 score1] flag1].
  unfold passes. cbn in *. split; [reflexivity |].
  split; [exact Hl | apply Forall2_sameOrKilled_refl].
Qed.

Lemma powerAttackVsEnemies_passes (cfg : Config) (off : Offset)
    (st : PlayState.t) :
  passes st (PlayState.powerAttackVsEnemies cfg off st).
Proof.
  unfold PlayState.powerAttackVsEnemies.
  destruct (PlayState.powerAttack st) as [attack |]; [| apply passes_refl].
  destruct (PowerAttack.active attack); [| apply passes_refl].
  eapply passes_trans; [| apply powerAttackVsBoss_passes].
  unfold passes.
  cbn [PlayState.formation PlayState.score PlayState.enemies].
  split; [reflexivity |]. split; [apply addKills_score |].
  pose proof (checkPowerAttackEnemyCollisions_loop
                (PlayState.collision st)
                (PowerAttack.getProjectiles attack)
                (PlayState.enemies st) off) as Hloop.
  cbv zeta in Hloop.
  destruct (powerLoop_map _ _ _ _ _ Hloop) as [Hmap _].
  rewrite Hmap. apply Forall2_sameOrKilled_map.
Qed.

Lemma passes_reached (off : Offset) (line : Q) (st st1 : PlayState.t) :
  passes st st1 ->
  ((exists e : Enemy.t,
       In e (PlayState.enemies st1) /\ reachedBottom off line e) <->
   (exists e : Enemy.t,
       In e (PlayState.enemies st) /\ reachedBottom off line e)).
Proof.
  intros (_ & _ & H). induction H as [| e e1 es es1 He _ IH].
  - split; intros (e & [] & _).
  - pose proof (sameOrKilled_reached off line e e1 He) as Hr.
    split.
    + intros (x & [<- | Hin] & Hx).
      * exists e. split; [left; reflexivity | apply Hr, Hx].
      * destruct (proj1 IH) as (y & Hy & Hyr); [exists x; auto |].
        exists y. split; [right; exact Hy | exact Hyr].
    + intros (x & [<- | Hin] & Hx).
      * exists e1. split; [left; reflexivity | apply Hr, Hx].
      * destruct (proj2 IH) as (y & Hy & Hyr); [exists x; auto |].
        exists y. split; [right; exact Hy | exact Hyr].
Qed.

(** X27. Lives over the whole collision step: when some enemy of the
    tick has its [alive] flag set and its bottom edge at or below the
    bottom line, whether or not it is shot in this very tick,
    [checkCollisions] takes one life (never below 0) and resets the
    formation unless no life is left; when there is no such enemy, lives
    and formation are as before. *)
Theorem checkCollisions_lives (cfg : Config) (st : PlayState.t) :
  let off := FormationController.getOffset (PlayState.formation st) in
  let line := GAMEPLAY_bottomLine cfg in
  let lives0 := ScoreSystem.lives (PlayState.score st) in
  let st1 := PlayState.checkCollisions cfg st in
  ((exists e : Enemy.t,
       In e (PlayState.enemies st) /\ reachedBottom off line e) ->
   ScoreSystem.lives (PlayState.score st1) = Z.max 0 (lives0 - 1) /\
   PlayState.formation st1
   = if (Z.max 0 (lives0 - 1) <=? 0)%Z then PlayState.formation st
     else FormationController.reset (PlayState.formation st)) /\
  ((forall e : Enemy.t,
       In e (PlayState.enemies st) -> ~ reachedBottom off line e) ->
   ScoreSystem.lives (PlayState.score st1) = lives0 /\
   PlayState.formation st1 = PlayState.formation st).
Proof.
  cbn zeta. unfold PlayState.checkCollisions.
  set (off := FormationController.getOffset (PlayState.formation st)).
  set (line := GAMEPLAY_bottomLine cfg).
  set (st0 := PlayState.powerAttackVsEnemies cfg off
                (PlayState.bulletsVsBoss cfg
                   (PlayState.bulletsVsEnemies cfg off
                      (PlayState.clearEvents st)))).
  assert (Hpass : passes st st0).
  { apply passes_trans with (PlayState.clearEvents st).
    { unfold passes. cbn. split; [reflexivity |].
      split; [reflexivity | apply Forall2_sameOrKilled_refl]. }
    eapply passes_trans; [apply bulletsVsEnemies_passes |].
    eapply passes_trans; [apply bulletsVsBoss_passes |].
    apply powerAttackVsEnemies_passes. }
  pose proof (passes_reached off line st st0 Hpass) as Hreach.
  destruct Hpass as (Hf & Hl & _).
  unfold PlayState.enemiesReachingBottom,
    CollisionSystem.checkEnemyReachBottom.
  fold line.
  destruct (CollisionSystem.reachBottomLoop off line 0
              (PlayState.enemies st0)) as [k |] eqn:Hloop.
  - destruct (reachBottomLoop_Some _ _ _ _ _ Hloop)
      as (j & e & _ & Hj & Hr & _).
    assert (Hex : exists e : Enemy.t,
               In e (PlayState.enemies st) /\ reachedBottom off line e).
    { apply Hreach. exists e. split; [| exact Hr].
      apply list_elem_of_In, list_elem_of_lookup. exists j. exact Hj. }
    split.
    + intros _. unfold PlayState.handleEnemyReachBottom.
      cbn [ScoreSystem.loseLife PlayState.score PlayState.formation].
      rewrite Hl.
      destruct (Z.max 0 (ScoreSystem.lives (PlayState.score st) - 1)
                <=? 0)%Z;
        cbn [PlayState.score PlayState.formation ScoreSystem.lives];
        rewrite Hf; auto.
    + intros Hnone. exfalso. destruct Hex as (x & Hx & Hxr).
      exact (Hnone x Hx Hxr).
  - split.
    + intros Hex. exfalso. apply Hreach in Hex.
      destruct Hex as (x & Hx & Hxr).
      apply list_elem_of_In, list_elem_of_lookup in Hx.
      destruct Hx as [j Hj].
      exact (reachBottomLoop_None _ _ _ _ Hloop j x Hj Hxr).
    + intros _. cbn [PlayState.score PlayState.formation]. auto.
Qed.

Lemma checkCollisions_lives_witness :
  ScoreSystem.lives
    (PlayState.score (PlayState.checkCollisions CONFIG dyingState))
  = Z.max 0 (ScoreSystem.lives (PlayState.score dyingState) - 1).
Proof.
  destruct (checkCollisions_lives CONFIG dyingState) as [H _].
  destruct H as [Hl _]; [| exact Hl].
  eexists. split; [left; reflexivity |].
  split; [reflexivity | vm_compute; discriminate].
Defined.

(** ** The end of a wave *)

Lemma Enemy_update_iter_dying (dt : Q) (k : nat) (e : Enemy.t) :
  Enemy.dying e = true ->
  let e1 := Nat.iter k (Enemy.update dt) e in
  FormationController.aliveOrDying e1 = false \/
  (Enemy.dying e1 = true /\
   Enemy.deathTimer e1
   == Enemy.deathTimer e - inject_Z (Z.of_nat k) * (dt * 1000) /\
   ((0 < k)%nat -> 0 < Enemy.deathTimer e1)).
Proof.
  intros Hd. cbn zeta. induction k as [| k IH].
  - right. cbn [Nat.iter nat_rect]. split; [exact Hd |].
    change (inject_Z (Z.of_nat 0)) with 0. split; [lra | lia].
  - rewrite !Nat.iter_succ.
    set (e0 := Nat.iter k (Enemy.update dt) e) in *.
    destruct IH as [Hgone | (Hd0 & Ht0 & _)].
    + left. unfold FormationController.aliveOrDying in Hgone.
      apply orb_false_iff in Hgone. destruct Hgone as [Ha0 Hd0].
      unfold Enemy.update. rewrite Hd0.
      unfold FormationController.aliveOrDying. rewrite Ha0, Hd0.
      reflexivity.
    + unfold Enemy.update. rewrite Hd0.
      destruct (leb (Enemy.deathTimer e0 - dt * 1000) 0) eqn:Hend.
      * left. reflexivity.
      * right. apply leb_nle in Hend.
        cbn [Enemy.dying Enemy.deathTimer].
        split; [reflexivity |].
        rewrite Nat2Z.inj_succ. unfold Z.succ. rewrite inject_Z_plus.
        change (inject_Z 1) with 1.
        set (T := Enemy.deathTimer e0) in *. clearbody T.
        split; [lra | intros _; lra].
Qed.

Lemma updateEnemies_iter_In (cfg : Config) (dt : Q) (k : nat)
    (st : PlayState.t) (e : Enemy.t) :
  In e (PlayState.enemies
          (Nat.iter (S k) (PlayState.updateEnemies cfg dt) st)) ->
  FormationController.aliveOrDying e = true /\
  exists e0 : Enemy.t,
    In e0 (PlayState.enemies st) /\
    e = Nat.iter (S k) (Enemy.update dt) e0.
Proof.
  revert e. induction k as [| k IH]; intros e Hin.
  - cbn [Nat.iter nat_rect] in Hin |- *.
    unfold PlayState.updateEnemies in Hin. cbn [PlayState.enemies] in Hin.
    apply filter_In in Hin. destruct Hin as [Hin Hok].
    split; [exact Hok |].
    apply in_map_iff in Hin. destruct Hin as (e0 & <- & Hin).
    exists e0. auto.
  - change (Nat.iter (S (S k)) (PlayState.updateEnemies cfg dt) st)
      with (PlayState.updateEnemies cfg dt
              (Nat.iter (S k) (PlayState.updateEnemies cfg dt) st)) in Hin.
    unfold PlayState.updateEnemies at 1 in Hin.
    cbn [PlayState.enemies] in Hin.
    apply filter_In in Hin. destruct Hin as [Hin Hok].
    split; [exact Hok |].
    apply in_map_iff in Hin. destruct Hin as (e1 & <- & Hin).
    destruct (IH e1 Hin) as (_ & e0 & Hin0 & ->).
    exists e0. split; [exact Hin0 | reflexivity].
Qed.

(** X28. A wave whose enemies are all dying clears: with frames of a
    fixed positive length, after finitely many [updateEnemies] the enemy
    array is empty, and it stays empty. *)
Theorem dying_wave_clears (cfg : Config) (dt : Q) (st : PlayState.t) :
  0 < dt ->
  Forall (fun e => Enemy.dying e = true) (PlayState.enemies st) ->
  exists N : nat,
    forall k : nat, (N <= k)%nat ->
      PlayState.enemies (Nat.iter k (PlayState.updateEnemies cfg dt) st)
      = [].
Proof.
  intros Hdt Hall.
  assert (Hstep : 0 < dt * 1000) by lra.
  assert (Huni : exists N : nat,
             forall e : Enemy.t, In e (PlayState.enemies st) ->
             forall k : nat, (N <= k)%nat ->
               FormationController.aliveOrDying
                 (Nat.iter k (Enemy.update dt) e) = false).
  { induction Hall as [| e l Hd _ (N & HN)].
    - exists 0%nat. intros e [].
    - destruct (multiples_pass (Enemy.deathTimer e) _ Hstep) as [M HM].
      exists (Nat.max (S M) N). intros e' [<- | Hin] k Hk.
      + destruct (Enemy_update_iter_dying dt k e Hd)
          as [Hgone | (_ & Ht & Hpos)]; [exact Hgone | exfalso].
        specialize (HM k ltac:(lia)). specialize (Hpos ltac:(lia)).
        set (T := Enemy.deathTimer (Nat.iter k (Enemy.update dt) e)) in *.
        clearbody T. lra.
      + apply HN; [exact Hin | lia]. }
  destruct Huni as [N HN]. exists (S N). intros k Hk.
  destruct k as [| k]; [lia |].
  destruct (PlayState.enemies
              (Nat.iter (S k) (PlayState.updateEnemies cfg dt) st))
    as [| e l] eqn:E; [reflexivity | exfalso].
  assert (Hin : In e (PlayState.enemies
              (Nat.iter (S k) (PlayState.updateEnemies cfg dt) st)))
    by (rewrite E; left; reflexivity).
  apply updateEnemies_iter_In in Hin.
  destruct Hin as (Hon & e0 & Hin0 & ->).
  rewrite (HN e0 Hin0 (S k)) in Hon; [discriminate | lia].
Qed.

Lemma dying_wave_clears_witness :
  exists N : nat,
    forall k : nat, (N <= k)%nat ->
      PlayState.enemies
        (Nat.iter k (PlayState.updateEnemies CONFIG (1 # 10)) dyingState)
      = [].
Proof.
  apply (dying_wave_clears CONFIG (1 # 10) dyingState).
  - reflexivity.
  - repeat constructor.
Defined.
